(** * The multi-provider generation orchestrator of the DocOnCall server

    A shallow embedding of the fallback orchestrator of the server file
    ([MODEL_PRIORITY], [modelStats], [generateWithFallback],
    [chatWithFallback], the AI route handlers and the error middleware),
    followed by the properties of the design document that concern it.

    Conventions of the embedding:
    - JS numbers that are only counted ([attempts], [failures],
      [rateLimitHits]) are [N]; timestamps of [Date.now()] are [Z]
      (milliseconds); generation parameters are rationals [Q]
      (0.7 is [7 # 10]);
    - [undefined] and [null] are [None];
    - a [Map] is a [gmap]; the objects a [Map] stores by reference live in
      an explicit object store ([chatObjects]);
    - an [async] function is a state transformer returning a
      [Completion]: the promise is fulfilled ([Return]) or rejected
      ([Throw]);
    - the providers and the clock are the environment of one call, a
      [World]; every provider invocation is appended to the ghost trace
      [calls] of the state;
    - calls are served one after the other: two [async] calls that
      interleave at their [await]s are outside the model. *)

From Stdlib Require Import String Ascii ZArith NArith QArith List Bool Lia.
From stdpp Require Import base option list gmap strings.

Local Open Scope string_scope.

(** ** JS values *)

(** The part of a thrown value that the server reads. *)
Record JsError := mkError {
  message : option string;
  statusCode : option Z;
  isOperational : bool
}.

(** [class AppError extends Error]. *)
Definition AppError (msg : string) (code : Z) : JsError :=
  {| message := Some msg; statusCode := Some code; isOperational := true |}.

(** The [TypeError] of a property access on [undefined]. *)
Definition TypeError (msg : string) : JsError :=
  {| message := Some msg; statusCode := None; isOperational := false |}.

(** Settlement of a promise. *)
Inductive Completion (A : Type) : Type :=
  | Return (a : A)
  | Throw (e : JsError).
Arguments Return {A} a.
Arguments Throw {A} e.

(** [String.prototype.includes]. *)
Fixpoint includes (s pat : string) : bool :=
  if String.prefix pat s then true
  else match s with
       | EmptyString => false
       | String _ s' => includes s' pat
       end.

(** Truthiness of a string and of a number. *)
Definition truthy_str (s : string) : bool :=
  match s with EmptyString => false | _ => true end.

Definition truthy_num (q : Q) : bool := negb (Qnum q =? 0)%Z.

(** [a || b] on optional strings and on optional numbers. *)
Definition or_str (a : option string) (b : string) : string :=
  match a with
  | Some s => if truthy_str s then s else b
  | None => b
  end.

Definition or_num (a b : option Q) : option Q :=
  match a with
  | Some q => if truthy_num q then Some q else b
  | None => b
  end.

(** ** Model configuration *)

Inductive Provider := gemini | groq.

Definition provider_name (p : Provider) : string :=
  match p with gemini => "gemini" | groq => "groq" end.

(** A generation config object: property name to number.  The spread
    [{ ...a, ...b }] is the union that prefers [b]. *)
Abbreviation Config := (gmap string Q).

Definition spread (a b : Config) : Config := b ∪ a.

Record ModelConfig := mkModel {
  name : string;
  provider : Provider;
  config : Config
}.

Definition gemini_config (maxOutputTokens : Q) : Config :=
  <["temperature" := 7 # 10]>
    (<["topK" := 40 # 1]>
       (<["topP" := 95 # 100]>
          (<["maxOutputTokens" := maxOutputTokens]> ∅))).

Definition groq_config : Config :=
  <["temperature" := 7 # 10]> (<["max_tokens" := 8000 # 1]> ∅).

Definition MODEL_PRIORITY : list ModelConfig :=
  [ mkModel "gemini-2.5-flash" gemini (gemini_config (8000 # 1));
    mkModel "gemini-2.5-flash-lite" gemini (gemini_config (8000 # 1));
    mkModel "llama-3.3-70b-versatile" groq groq_config;
    mkModel "gemini-2.5-flash-tts" gemini (gemini_config (800 # 1));
    mkModel "gemini-3-flash" gemini (gemini_config (8000 # 1));
    mkModel "gemma-3-12b" gemini (gemini_config (8000 # 1));
    mkModel "gemma-3-1b" gemini (gemini_config (8000 # 1));
    mkModel "gemma-3-27b" gemini (gemini_config (8000 # 1));
    mkModel "gemma-3-2b" gemini (gemini_config (8000 # 1));
    mkModel "gemma-3-4b" gemini (gemini_config (8000 # 1));
    mkModel "gemini-robotics-er-1.5-preview" gemini (gemini_config (8000 # 1)) ].

(** ** Model statistics *)

Record ModelStats := mkStats {
  attempts : N;
  failures : N;
  lastFailure : option Z;
  rateLimitHits : N
}.

Definition fresh_stats : ModelStats :=
  {| attempts := 0; failures := 0; lastFailure := None; rateLimitHits := 0 |}.

(** [MODEL_PRIORITY.forEach(model => modelStats.set(model.name, {...}))]. *)
Definition init_modelStats (reg : list ModelConfig) : gmap string ModelStats :=
  foldl (fun m model => <[name model := fresh_stats]> m) ∅ reg.

(** [stats.lastFailure && (Date.now() - stats.lastFailure) < 60000]:
    [null] and the timestamp [0] are falsy. *)
Definition recently_rate_limited (stats : ModelStats) (now : Z) : bool :=
  match lastFailure stats with
  | None => false
  | Some t => negb (t =? 0)%Z && (now - t <? 60000)%Z
  end.

(** ** Provider payloads *)

Inductive Part :=
  | Text (text : string)
  | InlineData (data mimeType : string).

(** An entry of a Gemini chat history. *)
Record Content := mkContent { role : string; parts : list Part }.

(** A message of a Groq chat completion request. *)
Record GroqMessage := mkMessage { msg_role : string; msg_content : string }.

Record GroqRequest := mkGroqRequest {
  groq_model : string;
  groq_messages : list GroqMessage;
  groq_temperature : option Q;
  groq_max_tokens : option Q
}.

(** What was asked of a provider, in the order it was asked. *)
Inductive ProviderCall :=
  | GroqCreate (req : GroqRequest)
  | GeminiGenerate (model : string) (generationConfig : Config) (content : list Part)
  | GeminiSend (chat : nat) (model : string) (generationConfig : Config)
      (history : list Content) (msg : string).

Definition call_model (c : ProviderCall) : string :=
  match c with
  | GroqCreate req => groq_model req
  | GeminiGenerate model _ _ => model
  | GeminiSend _ model _ _ _ => model
  end.

(** Result of awaiting a provider promise. *)
Inductive Outcome (A : Type) : Type :=
  | Resolved (a : A)
  | Rejected (e : JsError).
Arguments Resolved {A} a.
Arguments Rejected {A} e.

(** What a fulfilled [chat.sendMessage(message)] has done and holds.  The
    SDK decides by the response whether it appends the exchange to the
    history of the chat object: [recorded] is the model turn it appended
    after the user turn, if it did.  [response_text] is what
    [result.response.text()] does afterwards: it returns the text or it
    throws.  The two are independent: a response can be recorded and have
    no readable text, and an empty or part-less answer reads as a text
    and is not recorded. *)
Record SendResult := mkSendResult {
  recorded : option Content;
  response_text : Completion string
}.

(** The environment of one orchestrator call.  The clock is read at the
    cooldown test and in the [catch] block of a candidate; the providers
    answer the payload they are sent.  [groq_create] resolves to
    [completion.choices[0]?.message?.content]; [gemini_generateContent]
    resolves to [result.response.text()], a throw of which is a
    rejection. *)
Record World := mkWorld {
  now_at_check : string -> Z;
  now_at_catch : string -> Z;
  groq_create : GroqRequest -> Outcome (option string);
  gemini_generateContent : string -> Config -> list Part -> Outcome string;
  gemini_sendMessage : string -> Config -> list Content -> string
                       -> Outcome SendResult
}.

(** What the [try] block of the chat path gets from
    [await chat.sendMessage(message)] followed by
    [result.response.text()]: the text, or the error that one of the two
    throws. *)
Definition send_outcome (w : World) (model : string) (cfg : Config)
    (h : list Content) (msg : string) : Outcome string :=
  match gemini_sendMessage w model cfg h msg with
  | Resolved result =>
      match response_text result with
      | Return t => Resolved t
      | Throw e => Rejected e
      end
  | Rejected e => Rejected e
  end.

(** ** Server state *)

(** A Gemini [ChatSession] object with the [modelName] property the server
    adds to it. *)
Record ChatSession := mkChat {
  modelName : string;
  chat_generationConfig : Config;
  history : list Content
}.

Record State := mkState {
  modelStats : gmap string ModelStats;
  chatSessions : gmap string nat;
  chatObjects : gmap nat ChatSession;
  calls : list ProviderCall
}.

Definition with_stats (f : gmap string ModelStats -> gmap string ModelStats)
    (st : State) : State :=
  {| modelStats := f (modelStats st); chatSessions := chatSessions st;
     chatObjects := chatObjects st; calls := calls st |}.

Definition with_sessions (f : gmap string nat -> gmap string nat)
    (st : State) : State :=
  {| modelStats := modelStats st; chatSessions := f (chatSessions st);
     chatObjects := chatObjects st; calls := calls st |}.

Definition with_objects (f : gmap nat ChatSession -> gmap nat ChatSession)
    (st : State) : State :=
  {| modelStats := modelStats st; chatSessions := chatSessions st;
     chatObjects := f (chatObjects st); calls := calls st |}.

Definition log_call (c : ProviderCall) (st : State) : State :=
  {| modelStats := modelStats st; chatSessions := chatSessions st;
     chatObjects := chatObjects st; calls := calls st ++ [c] |}.

(** State of the server when it starts listening. *)
Definition init_state : State :=
  {| modelStats := init_modelStats MODEL_PRIORITY; chatSessions := ∅;
     chatObjects := ∅; calls := [] |}.

(** ** Mutations of a stats object *)

Definition incr_attempts (s : ModelStats) : ModelStats :=
  {| attempts := attempts s + 1; failures := failures s;
     lastFailure := lastFailure s; rateLimitHits := rateLimitHits s |}.

Definition incr_failures (s : ModelStats) : ModelStats :=
  {| attempts := attempts s; failures := failures s + 1;
     lastFailure := lastFailure s; rateLimitHits := rateLimitHits s |}.

Definition hit_rate_limit (now : Z) (s : ModelStats) : ModelStats :=
  {| attempts := attempts s; failures := failures s;
     lastFailure := Some now; rateLimitHits := rateLimitHits s + 1 |}.

(** The rate-limit test of the [catch] blocks; [error.message?.includes]
    is [undefined] when the error has no message. *)
Definition isRateLimit (error : JsError) : bool :=
  match message error with
  | None => false
  | Some m =>
      includes m "RESOURCE_EXHAUSTED" || includes m "429" || includes m "quota"
      || includes m "rate limit" || includes m "Rate limit"
  end.

(** The [catch] block of both loops, up to [lastError = error]. *)
Definition record_failure (w : World) (modelConfig : ModelConfig)
    (error : JsError) (st : State) : State :=
  let st1 := with_stats (alter incr_failures (name modelConfig)) st in
  if isRateLimit error
  then with_stats
         (alter (hit_rate_limit (now_at_catch w (name modelConfig)))
            (name modelConfig)) st1
  else st1.

(** ** generateWithFallback *)

Record GenerateResult := mkGenerateResult {
  text : string;
  modelUsed : string;
  gen_provider : string;
  success : bool
}.

Definition stats_undefined : JsError :=
  TypeError "Cannot read properties of undefined".

Definition exhausted_message (lastError : option JsError) : string :=
  "AI service temporarily unavailable. Please try again in a moment. Last error: "
  +:+ or_str (lastError ≫= message) "Unknown".

(** The argument of [groqClient.chat.completions.create] in the
    plain-generation path. *)
Definition generate_request (modelConfig : ModelConfig) (prompt : string)
    (customConfig : Config) : GroqRequest :=
  {| groq_model := name modelConfig;
     groq_messages := [mkMessage "user" prompt];
     groq_temperature :=
       or_num (customConfig !! "temperature")
              (config modelConfig !! "temperature");
     groq_max_tokens :=
       or_num (customConfig !! "maxOutputTokens")
              (config modelConfig !! "max_tokens") |}.

(** The argument of [model.generateContent]: [[prompt, ...imageParts]]
    with an image, [prompt] without. *)
Definition generate_content (prompt : string) (imageParts : option (list Part))
    : list Part :=
  match imageParts with
  | Some imgs => Text prompt :: imgs
  | None => [Text prompt]
  end.

(** The body of the [for ... of] loop over the remaining candidates,
    followed by the code after the loop. *)
Fixpoint generate_loop (w : World) (prompt : string) (customConfig : Config)
    (imageParts : option (list Part)) (candidates : list ModelConfig)
    (lastError : option JsError) (st : State)
    : Completion GenerateResult * State :=
  match candidates with
  | [] => (Throw (AppError (exhausted_message lastError) 503), st)
  | modelConfig :: rest =>
      match modelStats st !! name modelConfig with
      | None => (Throw stats_undefined, st)
      | Some stats =>
          let st := with_stats (alter incr_attempts (name modelConfig)) st in
          if recently_rate_limited stats (now_at_check w (name modelConfig))
          then generate_loop w prompt customConfig imageParts rest lastError st
          else
            match provider modelConfig with
            | groq =>
                match imageParts with
                | Some _ =>
                    generate_loop w prompt customConfig imageParts rest lastError st
                | None =>
                    let req := generate_request modelConfig prompt customConfig in
                    let st := log_call (GroqCreate req) st in
                    match groq_create w req with
                    | Resolved content =>
                        (Return {| text := or_str content "";
                                   modelUsed := name modelConfig;
                                   gen_provider := "groq";
                                   success := true |}, st)
                    | Rejected error =>
                        generate_loop w prompt customConfig imageParts rest
                          (Some error) (record_failure w modelConfig error st)
                    end
                end
            | gemini =>
                let generationConfig := spread (config modelConfig) customConfig in
                let content := generate_content prompt imageParts in
                let st :=
                  log_call (GeminiGenerate (name modelConfig) generationConfig content) st in
                match gemini_generateContent w (name modelConfig) generationConfig content with
                | Resolved text =>
                    (Return {| text := text;
                               modelUsed := name modelConfig;
                               gen_provider := "gemini";
                               success := true |}, st)
                | Rejected error =>
                    generate_loop w prompt customConfig imageParts rest
                      (Some error) (record_failure w modelConfig error st)
                end
            end
      end
  end.

Definition generateWithFallback (w : World) (prompt : string)
    (customConfig : Config) (imageParts : option (list Part)) (st : State)
    : Completion GenerateResult * State :=
  generate_loop w prompt customConfig imageParts MODEL_PRIORITY None st.

(** ** chatWithFallback *)

(** The priming text: the [systemMessage] of the Groq branch and the first
    history entry of the Gemini branch are the same string. *)
Definition systemMessage : string :=
  "You are Dr. AI, the official medical assistant for the DocOnCall platform. Your role is to be a friendly and empathetic medical assistant chatbot for a virtual healthcare platform. Your role is to: 1) Ask relevant questions about symptoms, 2) Provide general health guidance, 3) Show empathy and be reassuring, 4) Keep responses concise (2-4 sentences), 5) ALWAYS remind users this is not a replacement for professional medical advice. Be warm, professional, and helpful.".

Definition greeting : string :=
  "Hello! I'm Dr. AI, your virtual health assistant. I'm here to help answer your health questions and provide general guidance. Please remember that I'm not a replacement for professional medical advice. How can I assist you today?".

(** The [history] passed to [model.startChat]. *)
Definition initial_history : list Content :=
  [ mkContent "user" [Text systemMessage];
    mkContent "model" [Text greeting] ].

Record ChatResult := mkChatResult {
  reply : string;
  result_chat : option nat;
  chat_modelUsed : string;
  chat_provider : string;
  chat_success : bool
}.

(** The object the local variable [chat] refers to when it is bound to the
    model [n]: the negation of [!chat || chat.modelName !== n].  A reference
    to no object reads [modelName] as [undefined]. *)
Definition bound_chat (st : State) (chat : option nat) (n : string)
    : option (nat * ChatSession) :=
  match chat with
  | None => None
  | Some r =>
      match chatObjects st !! r with
      | Some o => if String.eqb (modelName o) n then Some (r, o) else None
      | None => None
      end
  end.

(** [model.startChat({history: [...]})] followed by
    [chat.modelName = modelConfig.name]: a new object. *)
Definition startChat (modelConfig : ModelConfig) : ChatSession :=
  {| modelName := name modelConfig;
     chat_generationConfig := config modelConfig;
     history := initial_history |}.

(** The exchange the SDK appends to the history of a chat object: the
    user turn with the message and the model turn of the response. *)
Definition recorded_turns (message : string) (turn : Content) : list Content :=
  [ mkContent "user" [Text message]; turn ].

(** What a fulfilled [chat.sendMessage(message)] appends to the
    history. *)
Definition turns_of (message : string) (turn : option Content) : list Content :=
  match turn with
  | Some turn => recorded_turns message turn
  | None => []
  end.

(** The chat object after a fulfilled [chat.sendMessage(message)]: the
    SDK has appended the exchange, or it has left the history alone. *)
Definition record_turns (message : string) (turn : option Content)
    (o : ChatSession) : ChatSession :=
  match turn with
  | Some turn =>
      {| modelName := modelName o;
         chat_generationConfig := chat_generationConfig o;
         history := history o ++ recorded_turns message turn |}
  | None => o
  end.

(** The argument of [groqClient.chat.completions.create] in the chat
    path. *)
Definition chat_request (modelConfig : ModelConfig) (message : string)
    : GroqRequest :=
  {| groq_model := name modelConfig;
     groq_messages := [ mkMessage "system" systemMessage;
                        mkMessage "user" message ];
     groq_temperature := config modelConfig !! "temperature";
     groq_max_tokens := config modelConfig !! "max_tokens" |}.

(** The block [if (!chat || chat.modelName !== modelConfig.name) {...}]:
    the chat to send on, its object, and the store after the block. *)
Definition resolve_chat (st : State) (chat : option nat)
    (modelConfig : ModelConfig) : nat * ChatSession * State :=
  match bound_chat st chat (name modelConfig) with
  | Some (r, o) => (r, o, st)
  | None =>
      let r := fresh (dom (chatObjects st)) in
      let o := startChat modelConfig in
      (r, o, with_objects (insert r o) st)
  end.

Definition chat_exhausted : JsError :=
  AppError "AI chat temporarily unavailable. Please try again in a moment." 503.

Fixpoint chat_loop (w : World) (message : string)
    (candidates : list ModelConfig) (chat : option nat)
    (lastError : option JsError) (st : State)
    : Completion ChatResult * State :=
  match candidates with
  | [] => (Throw chat_exhausted, st)
  | modelConfig :: rest =>
      match modelStats st !! name modelConfig with
      | None => (Throw stats_undefined, st)
      | Some stats =>
          if recently_rate_limited stats (now_at_check w (name modelConfig))
          then chat_loop w message rest chat lastError st
          else
            let st := with_stats (alter incr_attempts (name modelConfig)) st in
            match provider modelConfig with
            | groq =>
                let req := chat_request modelConfig message in
                let st := log_call (GroqCreate req) st in
                match groq_create w req with
                | Resolved content =>
                    (Return {| reply := or_str content "";
                               result_chat := None;
                               chat_modelUsed := name modelConfig;
                               chat_provider := "groq";
                               chat_success := true |}, st)
                | Rejected error =>
                    chat_loop w message rest chat (Some error)
                      (record_failure w modelConfig error st)
                end
            | gemini =>
                let '(r, o, st) := resolve_chat st chat modelConfig in
                let st :=
                  log_call (GeminiSend r (modelName o) (chat_generationConfig o)
                              (history o) message) st in
                match gemini_sendMessage w (modelName o) (chat_generationConfig o)
                        (history o) message with
                | Resolved result =>
                    let st :=
                      with_objects
                        (insert r (record_turns message (recorded result) o)) st in
                    match response_text result with
                    | Return reply =>
                        (Return {| reply := reply;
                                   result_chat := Some r;
                                   chat_modelUsed := name modelConfig;
                                   chat_provider := "gemini";
                                   chat_success := true |}, st)
                    | Throw error =>
                        chat_loop w message rest (Some r) (Some error)
                          (record_failure w modelConfig error st)
                    end
                | Rejected error =>
                    chat_loop w message rest (Some r) (Some error)
                      (record_failure w modelConfig error st)
                end
            end
      end
  end.

Definition chatWithFallback (w : World) (chat : option nat) (message : string)
    (sessionId : string) (st : State) : Completion ChatResult * State :=
  chat_loop w message MODEL_PRIORITY chat None st.

(** ** Route handlers *)

Inductive JsonValue :=
  | JStr (s : string)
  | JBool (b : bool).

Abbreviation Json := (list (string * JsonValue)).

(** The template literal of [/api/analyze-symptoms]. *)
Definition symptoms_prompt (symptoms : string) (age gender duration : option string)
    : string :=
  "You are a medical AI assistant. Analyze the following patient symptoms and provide a structured medical assessment.

**Patient Information:**
- Age: "
  +:+ or_str age "Not specified"
  +:+ "
- Gender: "
  +:+ or_str gender "Not specified"
  +:+ "
- Symptoms: "
  +:+ symptoms
  +:+ "
- Duration: "
  +:+ or_str duration "Not specified"
  +:+ "

**Provide analysis in this exact format:**

**POSSIBLE CONDITIONS:**
1. [Condition Name] - Probability: [High/Medium/Low]
   Brief explanation of why this is suspected.

2. [Condition Name] - Probability: [High/Medium/Low]
   Brief explanation of why this is suspected.

3. [Condition Name] - Probability: [High/Medium/Low]
   Brief explanation of why this is suspected.

**SEVERITY LEVEL:** [Low/Medium/High]
Brief explanation of severity assessment.

**URGENCY:** [Immediate/Soon/Routine]
When should the patient seek medical attention.

**RECOMMENDATIONS:**
1. [Specific recommendation]
2. [Specific recommendation]
3. [Specific recommendation]
4. [Specific recommendation]
5. [Specific recommendation]

**IMPORTANT DISCLAIMER:**
[Clear statement about seeking professional medical help]

Provide detailed, accurate, and helpful information while being clear this is preliminary guidance only.".

(** The template literal of [/api/summarize-report]. *)
Definition report_prompt (reportText : string) (reportType : option string)
    : string :=
  "You are a medical AI assistant specializing in explaining medical reports to patients.

**Report Type:** "
  +:+ or_str reportType "Medical Report"
  +:+ "

**Report Content:**
"
  +:+ reportText
  +:+ "

**Please provide a patient-friendly summary with:**

1. **KEY FINDINGS:** Main results from the report
2. **ABNORMAL VALUES:** Any values outside normal range (explain what they mean)
3. **WHAT IT MEANS:** Is not normal or what could be the implications and should the patient be concerned with doctor?
4. **NEXT STEPS:** Suggested actions or follow-up needed
5. **QUESTIONS TO ASK YOUR DOCTOR:** Important questions patient should ask

Use simple, non-technical language. Avoid medical jargon. Be clear and reassuring while being honest about findings.".

(** The template literal of [/api/medicine-info]. *)
Definition medicine_prompt (medicineName : string) : string :=
  "Provide accurate, patient-friendly information about the medicine: **"
  +:+ medicineName
  +:+ "**

Include the following sections:

**WHAT IT'S USED FOR:**
Primary uses and conditions it treats.

**HOW IT WORKS:**
Simple explanation of mechanism.

**COMMON SIDE EFFECTS:**
Most frequently reported side effects.

**IMPORTANT PRECAUTIONS:**
- Who should not take it
- Drug interactions to be aware of
- Special warnings

**WHEN TO CONSULT A DOCTOR:**
Signs that require immediate medical attention.

**IMPORTANT NOTE:**
Always remind to consult healthcare provider or pharmacist for personalized advice.

Keep information accurate and helpful. Use simple language.".

(** The template literal of [/api/read-prescription]. *)
Definition prescription_prompt : string :=
  "Analyze this prescription image and extract all readable information.

Provide:

**MEDICINES PRESCRIBED:**
List each medicine with:
- Medicine name
- Dosage (strength)
- Frequency (how often to take)
- Duration (how many days)

**SPECIAL INSTRUCTIONS:**
Any additional notes or warnings

**DOCTOR INFORMATION:**
Doctor's name and credentials if visible

**DATE:**
Prescription date if visible

**IMPORTANT NOTES:**
- Highlight any unclear or unreadable parts
- Note if prescription needs verification
- Remind to consult pharmacist if unsure

Be accurate and clear. If something is unclear, state it explicitly.".

(** [!field] for a field of [req.body]. *)
Definition missing (field : option string) : bool :=
  match field with
  | Some s => negb (truthy_str s)
  | None => true
  end.

(** The common tail of the generation routes:
    [res.json({<key>: result.text, success: true, modelUsed, provider})]. *)
Definition generation_json (key : string) (result : GenerateResult) : Json :=
  [ (key, JStr (text result)); ("success", JBool true);
    ("modelUsed", JStr (modelUsed result));
    ("provider", JStr (gen_provider result)) ].

Definition respond_generation (key : string)
    (r : Completion GenerateResult * State) : Completion Json * State :=
  match r with
  | (Return result, st) => (Return (generation_json key result), st)
  | (Throw e, st) => (Throw e, st)
  end.

Definition options (temperature maxOutputTokens : Q) : Config :=
  <["temperature" := temperature]> (<["maxOutputTokens" := maxOutputTokens]> ∅).

(** The bodies of the API requests.  Each field is a string or absent
    ([undefined]), as the pages of the application post them; a field of
    another JSON type is outside the model. *)
Record ChatBody := mkChatBody {
  body_message : option string;
  body_sessionId : option string
}.

(** [app.post('/api/chat', ...)]. *)
Definition api_chat (w : World) (body : ChatBody) (st : State)
    : Completion Json * State :=
  let sessionId := default "default" (body_sessionId body) in
  if missing (body_message body)
  then (Throw (AppError "Message is required" 400), st)
  else
    let message := default "" (body_message body) in
    let chat := chatSessions st !! sessionId in
    match chatWithFallback w chat message sessionId st with
    | (Throw e, st) => (Throw e, st)
    | (Return result, st) =>
        let st :=
          match result_chat result with
          | Some r => with_sessions (insert sessionId r) st
          | None => st
          end in
        (Return [ ("reply", JStr (reply result)); ("success", JBool true);
                  ("sessionId", JStr sessionId);
                  ("modelUsed", JStr (chat_modelUsed result));
                  ("provider", JStr (chat_provider result)) ], st)
    end.

Record SymptomsBody := mkSymptomsBody {
  body_symptoms : option string;
  body_age : option string;
  body_gender : option string;
  body_duration : option string
}.

(** [app.post('/api/analyze-symptoms', ...)]. *)
Definition api_analyze_symptoms (w : World) (body : SymptomsBody) (st : State)
    : Completion Json * State :=
  if missing (body_symptoms body)
  then (Throw (AppError "Symptoms are required" 400), st)
  else
    let prompt :=
      symptoms_prompt (default "" (body_symptoms body)) (body_age body)
        (body_gender body) (body_duration body) in
    respond_generation "analysis"
      (generateWithFallback w prompt (options (3 # 10) (600 # 1)) None st).

Record ReportBody := mkReportBody {
  body_reportText : option string;
  body_reportType : option string
}.

(** [app.post('/api/summarize-report', ...)]. *)
Definition api_summarize_report (w : World) (body : ReportBody) (st : State)
    : Completion Json * State :=
  if missing (body_reportText body)
  then (Throw (AppError "Report text is required" 400), st)
  else
    let prompt :=
      report_prompt (default "" (body_reportText body)) (body_reportType body) in
    respond_generation "summary"
      (generateWithFallback w prompt (options (4 # 10) (500 # 1)) None st).

(** [app.post('/api/medicine-info', ...)]. *)
Definition api_medicine_info (w : World) (medicineName : option string)
    (st : State) : Completion Json * State :=
  if missing medicineName
  then (Throw (AppError "Medicine name is required" 400), st)
  else
    respond_generation "info"
      (generateWithFallback w (medicine_prompt (default "" medicineName))
         (options (3 # 10) (400 # 1)) None st).

(** [String.prototype.split] on a one-character separator. *)
Fixpoint split_on (sep : ascii) (s : string) : list string :=
  match s with
  | EmptyString => [EmptyString]
  | String a s' =>
      if Ascii.eqb a sep then EmptyString :: split_on sep s'
      else match split_on sep s' with
           | x :: xs => String a x :: xs
           | [] => [String a EmptyString]
           end
  end.

(** [imageBase64.includes(',') ? imageBase64.split(',')[1] : imageBase64]. *)
Definition base64Data (imageBase64 : string) : string :=
  if includes imageBase64 ","
  then default "" (split_on "," imageBase64 !! 1%nat)
  else imageBase64.

(** [app.post('/api/read-prescription', ...)]. *)
Definition api_read_prescription (w : World) (imageBase64 : option string)
    (st : State) : Completion Json * State :=
  if missing imageBase64
  then (Throw (AppError "Image data is required" 400), st)
  else
    let imageParts :=
      [InlineData (base64Data (default "" imageBase64)) "image/jpeg"] in
    respond_generation "analysis"
      (generateWithFallback w prescription_prompt (options (2 # 10) (500 # 1))
         (Some imageParts) st).

(** ** Error middleware *)

Inductive Response :=
  | SendJson (status : Z) (body : Json)
  | RenderError (status : Z) (title : string) (errorMessage : option string).

(** [app.use((err, req, res, next) => ...)]: the status is
    [err.statusCode || 500]. *)
Definition errorHandler (err : JsError) : Response :=
  let code :=
    match statusCode err with
    | Some c => if (c =? 0)%Z then 500%Z else c
    | None => 500%Z
    end in
  let msg :=
    if isOperational err then message err
    else Some "Something went wrong on the server." in
  RenderError code (if (code =? 404)%Z then "Page Not Found" else "Error") msg.

(** [wrapAsync]: a rejected handler goes to the error middleware;
    [res.json] answers with status 200. *)
Definition wrapAsync (r : Completion Json * State) : Response * State :=
  match r with
  | (Return body, st) => (SendJson 200 body, st)
  | (Throw e, st) => (errorHandler e, st)
  end.

(** ** Sequences of calls *)

Inductive Request :=
  | PostChat (body : ChatBody)
  | PostAnalyzeSymptoms (body : SymptomsBody)
  | PostSummarizeReport (body : ReportBody)
  | PostMedicineInfo (medicineName : option string)
  | PostReadPrescription (imageBase64 : option string).

(** The route table, for a request that passed [requireLogin]. *)
Definition handle (w : World) (req : Request) (st : State) : Response * State :=
  wrapAsync
    match req with
    | PostChat body => api_chat w body st
    | PostAnalyzeSymptoms body => api_analyze_symptoms w body st
    | PostSummarizeReport body => api_summarize_report w body st
    | PostMedicineInfo medicineName => api_medicine_info w medicineName st
    | PostReadPrescription imageBase64 => api_read_prescription w imageBase64 st
    end.

(** One use of the orchestrator: a direct call of one of its two
    functions, or a request to a route. *)
Inductive Call :=
  | Generate (prompt : string) (customConfig : Config) (imageParts : option (list Part))
  | Chat (chat : option nat) (message sessionId : string)
  | Serve (req : Request).

Definition run_call (wc : World * Call) (st : State) : State :=
  match wc with
  | (w, Generate prompt customConfig imageParts) =>
      snd (generateWithFallback w prompt customConfig imageParts st)
  | (w, Chat chat message sessionId) =>
      snd (chatWithFallback w chat message sessionId st)
  | (w, Serve req) => snd (handle w req st)
  end.

(** The calls run one after the other, each in its own world. *)
Definition run (trace : list (World * Call)) (st : State) : State :=
  foldl (fun st wc => run_call wc st) st trace.

(** * Vocabulary of the properties *)

(** The invariant of a stats object. *)
Definition stats_ok (s : ModelStats) : Prop :=
  (failures s <= attempts s)%N /\ (rateLimitHits s <= failures s)%N.

(** Every candidate of the list has its stats object. *)
Definition registered (candidates : list ModelConfig) (st : State) : Prop :=
  Forall (fun m => is_Some (modelStats st !! name m)) candidates.

(** The provider calls made between two states, and the models they were
    made for. *)
Definition new_calls (st st' : State) : list ProviderCall :=
  drop (length (calls st)) (calls st').

Definition models_asked (st st' : State) : list string :=
  map call_model (new_calls st st').

(** What the catch block does to the stats object of the candidate. *)
Definition failed_stats (now : Z) (error : JsError) (s : ModelStats) : ModelStats :=
  if isRateLimit error then hit_rate_limit now (incr_failures s)
  else incr_failures s.

(** What a loop may do to a model it does not invoke: count attempts. *)
Definition only_attempts (s s' : ModelStats) : Prop :=
  failures s' = failures s /\ rateLimitHits s' = rateLimitHits s
  /\ lastFailure s' = lastFailure s /\ (attempts s <= attempts s')%N.

(** The candidate is skipped by the cooldown test in state [st]. *)
Definition cooling_down (w : World) (st : State) (m : ModelConfig) : Prop :=
  exists stats, modelStats st !! name m = Some stats
                /\ recently_rate_limited stats (now_at_check w (name m)) = true.

(** The stats object of [n], if any, has no rate-limit timestamp. *)
Definition no_timestamp (n : string) (st : State) : Prop :=
  forall s, modelStats st !! n = Some s -> lastFailure s = None.

(** The text the candidate [m] would answer to a plain generation started
    in state [st]: [None] when the candidate is cooling down, when it is a
    groq candidate and the request carries an image, or when its provider
    rejects. *)
Definition candidate_answer (w : World) (prompt : string) (customConfig : Config)
    (imageParts : option (list Part)) (st : State) (m : ModelConfig)
    : option string :=
  match modelStats st !! name m with
  | None => None
  | Some stats =>
      if recently_rate_limited stats (now_at_check w (name m)) then None
      else
        match provider m, imageParts with
        | groq, Some _ => None
        | groq, None =>
            match groq_create w (generate_request m prompt customConfig) with
            | Resolved content => Some (or_str content "")
            | Rejected _ => None
            end
        | gemini, _ =>
            match gemini_generateContent w (name m)
                    (spread (config m) customConfig)
                    (generate_content prompt imageParts) with
            | Resolved t => Some t
            | Rejected _ => None
            end
        end
  end.

(** How the overrides of a plain generation reach the provider in the call
    [call] made for the candidate [c].  Gemini is sent the key-by-key merge
    in which an override wins and a default fills a key the overrides omit.
    Groq is sent two parameters: a non-zero override [temperature]
    (resp. [maxOutputTokens]) is sent as [temperature] (resp. [max_tokens]),
    and without that override the default [temperature]
    (resp. [max_tokens]) of the candidate is sent. *)
Definition sent_with_overrides (c : ModelConfig) (customConfig : Config)
    (call : ProviderCall) : Prop :=
  match call with
  | GeminiGenerate model generationConfig _ =>
      model = name c /\ provider c = gemini
      /\ forall k, generationConfig !! k
                   = match customConfig !! k with
                     | Some v => Some v
                     | None => config c !! k
                     end
  | GroqCreate req =>
      groq_model req = name c /\ provider c = groq
      /\ (forall v, customConfig !! "temperature" = Some v ->
                    truthy_num v = true -> groq_temperature req = Some v)
      /\ (customConfig !! "temperature" = None ->
          groq_temperature req = config c !! "temperature")
      /\ (forall v, customConfig !! "maxOutputTokens" = Some v ->
                    truthy_num v = true -> groq_max_tokens req = Some v)
      /\ (customConfig !! "maxOutputTokens" = None ->
          groq_max_tokens req = config c !! "max_tokens")
  | GeminiSend _ _ _ _ _ => False
  end.

(** The error with which the world rejects a call, if it rejects it; for
    a Gemini [sendMessage] this is also the error that reading the text
    of the response throws. *)
Definition rejection (w : World) (call : ProviderCall) : option JsError :=
  match call with
  | GroqCreate req =>
      match groq_create w req with Rejected e => Some e | Resolved _ => None end
  | GeminiGenerate model generationConfig content =>
      match gemini_generateContent w model generationConfig content with
      | Rejected e => Some e
      | Resolved _ => None
      end
  | GeminiSend _ model generationConfig history msg =>
      match send_outcome w model generationConfig history msg with
      | Rejected e => Some e
      | Resolved _ => None
      end
  end.

(** The most recent rejection among the calls [asked], or [lastError] when
    none of them was rejected. *)
Definition last_rejection (w : World) (lastError : option JsError)
    (asked : list ProviderCall) : option JsError :=
  foldl (fun acc call =>
           match rejection w call with Some e => Some e | None => acc end)
    lastError asked.

(** The required field of a route is absent (or an empty string). *)
Definition required_field_missing (req : Request) : bool :=
  match req with
  | PostChat body => missing (body_message body)
  | PostAnalyzeSymptoms body => missing (body_symptoms body)
  | PostSummarizeReport body => missing (body_reportText body)
  | PostMedicineInfo medicineName => missing medicineName
  | PostReadPrescription imageBase64 => missing imageBase64
  end.

(** A chat object is still the chat it was: it is bound to the same model
    with the same config, and its history starts with the history it
    had. *)
Definition chat_survives (o o' : ChatSession) : Prop :=
  modelName o' = modelName o
  /\ chat_generationConfig o' = chat_generationConfig o
  /\ history o `prefix_of` history o'.

(** Every chat object of [st] is still there in [st']. *)
Definition chats_survive (st st' : State) : Prop :=
  forall r o, chatObjects st !! r = Some o ->
              exists o', chatObjects st' !! r = Some o' /\ chat_survives o o'.

(** The user turn and the model turn of one exchange. *)
Definition exchange (message answer : string) : list Content :=
  [ mkContent "user" [Text message]; mkContent "model" [Text answer] ].

(** * Scenarios *)

Definition flash : string := "gemini-2.5-flash".
Definition flash_lite : string := "gemini-2.5-flash-lite".
Definition llama : string := "llama-3.3-70b-versatile".

Definition provider_error (msg : string) : JsError :=
  {| message := Some msg; statusCode := None; isOperational := false |}.

(** A plain answer to a chat message: the response holds the text [t]
    as its one part, the SDK records it and the text reads back. *)
Definition answered (t : string) : SendResult :=
  {| recorded := Some (mkContent "model" [Text t]); response_text := Return t |}.

(** The models of [down] reject with [msg], the others answer; the clock
    stands at [t]. *)
Definition world_partial (down : list string) (msg : string) (t : Z) : World :=
  {| now_at_check := fun _ => t;
     now_at_catch := fun _ => t;
     groq_create := fun req =>
       if bool_decide (groq_model req ∈ down)
       then Rejected (provider_error msg) else Resolved (Some "groq answer");
     gemini_generateContent := fun model _ _ =>
       if bool_decide (model ∈ down)
       then Rejected (provider_error msg) else Resolved "gemini answer";
     gemini_sendMessage := fun model _ _ m =>
       if bool_decide (model ∈ down)
       then Rejected (provider_error msg)
       else Resolved (answered ("re: " +:+ m)) |}.

(** Every provider answers. *)
Definition world_up (t : Z) : World := world_partial [] "" t.

(** Every provider rejects with the same message. *)
Definition world_down (msg : string) (t : Z) : World :=
  {| now_at_check := fun _ => t;
     now_at_catch := fun _ => t;
     groq_create := fun _ => Rejected (provider_error msg);
     gemini_generateContent := fun _ _ _ => Rejected (provider_error msg);
     gemini_sendMessage := fun _ _ _ _ => Rejected (provider_error msg) |}.

Definition jpeg : list Part := [InlineData "AAAA" "image/jpeg"].

(** The server after one plain generation at time 1000 in which the first
    candidate was rate limited and the second one answered. *)
Definition after_rate_limit : State :=
  snd (generateWithFallback
         (world_partial [flash] "429 Too Many Requests" 1000) "hello" ∅ None
         init_state).

(** The server after a first chat turn of session [s1], served by the
    first candidate. *)
Definition after_first_turn : State :=
  snd (handle (world_up 1000)
         (PostChat (mkChatBody (Some "first") (Some "s1"))) init_state).

(** Two chat turns of session [s1] in a world where the first candidate
    is rejected with an error that is not a rate limit, and every other
    candidate answers. *)
Definition flash_down : World :=
  world_partial [flash] "500 Internal Server Error" 1000.

Definition turn (message : string) : Request :=
  PostChat (mkChatBody (Some message) (Some "s1")).

Definition after_turn_one : State :=
  snd (handle flash_down (turn "first") init_state).

Definition after_turn_two : State :=
  snd (handle flash_down (turn "second") after_turn_one).

(** A world in which the first candidate answers a chat message with a
    response that the SDK records and whose text cannot be read (as for a
    candidate cut off by a safety finish reason), the second candidate
    rejects the call and every other provider answers. *)
Definition unreadable_flash : World :=
  {| now_at_check := fun _ => 2000%Z;
     now_at_catch := fun _ => 2000%Z;
     groq_create := fun _ => Resolved (Some "groq answer");
     gemini_generateContent := fun _ _ _ => Resolved "gemini answer";
     gemini_sendMessage := fun model _ _ _ =>
       if String.eqb model flash
       then Resolved {| recorded := Some (mkContent "model" [Text "cut off"]);
                        response_text :=
                          Throw (provider_error "Candidate was blocked due to SAFETY") |}
       else if String.eqb model flash_lite
       then Rejected (provider_error "fetch failed")
       else Resolved (answered "unused") |}.

(** A world in which every provider answers and a chat message is
    answered with a response that has no parts: its text reads as the
    empty string and the SDK records nothing. *)
Definition empty_answers : World :=
  {| now_at_check := fun _ => 2000%Z;
     now_at_catch := fun _ => 2000%Z;
     groq_create := fun _ => Resolved (Some "groq answer");
     gemini_generateContent := fun _ _ _ => Resolved "gemini answer";
     gemini_sendMessage := fun _ _ _ _ =>
       Resolved {| recorded := None; response_text := Return "" |} |}.

(** * The rest of the server *)

From Stdlib Require Import DecimalString.

(** ** The diet plan route *)

Record DietBody := mkDietBody {
  body_goal : option string;
  body_restrictions : option string;
  body_preferences : option string
}.

(** The template literal of [/api/diet-plan]. *)
Definition diet_prompt (goal restrictions preferences : option string) : string :=
  "Create a personalized one-day diet plan.

**Goal:** "
  +:+ or_str goal "General health"
  +:+ "
**Dietary Restrictions:** "
  +:+ or_str restrictions "None"
  +:+ "
**Preferences:** "
  +:+ or_str preferences "None"
  +:+ "

Provide:

**BREAKFAST (7-9 AM):**
- Meal description
- Approximate calories
- Key nutrients

**MID-MORNING SNACK (11 AM):**
- Snack suggestion
- Benefits

**LUNCH (1-2 PM):**
- Meal description
- Approximate calories
- Key nutrients

**EVENING SNACK (4-5 PM):**
- Snack suggestion
- Benefits

**DINNER (7-8 PM):**
- Meal description
- Approximate calories
- Key nutrients

**HYDRATION TIPS:**
Water intake recommendations

**NUTRITIONAL SUMMARY:**
Total approximate calories and macronutrient breakdown

Make it practical, affordable, and easy to prepare.".

(** [app.post('/api/diet-plan', ...)]: no field is required. *)
Definition api_diet_plan (w : World) (body : DietBody) (st : State)
    : Completion Json * State :=
  respond_generation "plan"
    (generateWithFallback w
       (diet_prompt (body_goal body) (body_restrictions body)
          (body_preferences body))
       (options (6 # 10) (800 # 1)) None st).

(** ** The chat session utilities *)

(** A count in a template literal. *)
Definition string_of_nat (n : nat) : string :=
  NilZero.string_of_uint (Nat.to_uint n).

(** [app.post('/api/clear-chat', ...)]: [chatSessions.delete(sessionId)]. *)
Definition api_clear_chat (sessionId : option string) (st : State)
    : Response * State :=
  let sessionId := default "default" sessionId in
  (SendJson 200 [ ("success", JBool true);
                  ("message", JStr "Chat history cleared");
                  ("sessionId", JStr sessionId) ],
   with_sessions (delete sessionId) st).

(** [app.post('/api/clear-all-chats', ...)]: [chatSessions.clear()]. *)
Definition api_clear_all_chats (st : State) : Response * State :=
  let count := size (chatSessions st) in
  (SendJson 200 [ ("success", JBool true);
                  ("message",
                   JStr ("Cleared " +:+ string_of_nat count +:+ " chat sessions")) ],
   with_sessions (fun _ => ∅) st).

(** ** The API routes *)

Inductive ApiRequest :=
  | AiRoute (req : Request)
  | PostDietPlan (body : DietBody)
  | PostClearChat (sessionId : option string)
  | PostClearAllChats.

(** The handlers of the API routes, for a request that passed
    [requireLogin]. *)
Definition api (w : World) (req : ApiRequest) (st : State) : Response * State :=
  match req with
  | AiRoute req => handle w req st
  | PostDietPlan body => wrapAsync (api_diet_plan w body st)
  | PostClearChat sessionId => api_clear_chat sessionId st
  | PostClearAllChats => api_clear_all_chats st
  end.

(** One step of the server: a direct call of the orchestrator or a request
    to an API route. *)
Inductive Step :=
  | Direct (c : Call)
  | Route (req : ApiRequest).

Definition run_step (ws : World * Step) (st : State) : State :=
  match ws with
  | (w, Direct c) => run_call (w, c) st
  | (w, Route req) => snd (api w req st)
  end.

Definition run_server (trace : list (World * Step)) (st : State) : State :=
  foldl (fun st ws => run_step ws st) st trace.

(** ** Sessions and the login guard *)

Module Session.
Record user := mkUser { id : nat; name : string; email : string }.

(** The two properties of [req.session] that the login and signup routes
    write: [user_id] and [user]. *)
Record t := mk { user_id : option nat; user_info : option user }.

(** The session of a client that is not logged in. *)
Definition empty : t := {| user_id := None; user_info := None |}.
End Session.

Inductive Reply :=
  | Sent (r : Response)
  | Redirect (location : string)
  | Render (view : string).

(** [requireLogin]: without [req.session.user_id] the request is
    redirected and [next] is not called. *)
Definition requireLogin {S : Type} (session : Session.t)
    (next : S -> Reply * S) (st : S) : Reply * S :=
  match Session.user_id session with
  | None => (Redirect "/login", st)
  | Some _ => next st
  end.

(** An API route as it is mounted: [app.post(path, requireLogin, handler)]. *)
Definition mounted_api (w : World) (session : Session.t) (req : ApiRequest)
    (st : State) : Reply * State :=
  requireLogin session
    (fun st => let '(r, st') := api w req st in (Sent r, st')) st.

(** [app.get("/", ...)]. *)
Definition get_home (session : Session.t) : Reply :=
  match Session.user_id session with
  | Some _ => Render "main"
  | None => Render "welcome"
  end.

(** ** Accounts *)

Module User.
(** The fields of a user document that signup and login write and read;
    the profile fields of the schema keep their defaults. *)
Record t := mk { _id : nat; name : string; email : string; password : string }.
End User.

(** A value of a parsed request body: [express.json] and
    [express.urlencoded] with [extended: true] give a client strings,
    numbers, booleans, [null], arrays and objects. *)
#[warnings="-register-all"] Inductive BodyValue :=
  | BStr (s : string)
  | BNum (q : Q)
  | BBool (b : bool)
  | BNull
  | BArr (items : list BodyValue)
  | BObj (fields : list (string * BodyValue)).

(** Truthiness of a body value; an absent field is [undefined]. *)
Definition truthy_value (v : BodyValue) : bool :=
  match v with
  | BStr s => truthy_str s
  | BNum q => truthy_num q
  | BBool b => b
  | BNull => false
  | BArr _ | BObj _ => true
  end.

Definition missing_value (field : option BodyValue) : bool :=
  match field with
  | Some v => negb (truthy_value v)
  | None => true
  end.

(** The database during one request: [User.findOne] and [user.save] may
    reject, a new document gets the [_id] the driver generates, and
    [selects v] are the documents that the filter [{ email: v }] selects
    when [v] is not a string (a query operator object such as
    [{ $ne: null }], or a value that is cast). *)
Record Db := mkDb {
  findOne_rejects : option JsError;
  save_rejects : option JsError;
  new_id : nat;
  selects : BodyValue -> User.t -> bool
}.

(** [User.findOne({ email })] for a string: the first document with that
    email. *)
Definition findOne (email : string) (users : list User.t) : option User.t :=
  List.find (fun u => String.eqb (User.email u) email) users.

(** [User.findOne({ email })] for the [email] of a request body. *)
Definition findOne_by (db : Db) (email : option BodyValue)
    (users : list User.t) : option User.t :=
  match email with
  | Some (BStr e) => findOne e users
  | Some v => List.find (selects db v) users
  | None => None
  end.

(** [password === user.password]: the stored password is a string. *)
Definition same_password (password : option BodyValue) (stored : string) : bool :=
  match password with
  | Some (BStr p) => String.eqb p stored
  | _ => false
  end.

Definition log_in (u : User.t) : Session.t :=
  {| Session.user_id := Some (User._id u);
     Session.user_info :=
       Some {| Session.id := User._id u; Session.name := User.name u;
               Session.email := User.email u |} |}.

(** The body of a login request: the handler passes whatever value the
    client sent on. *)
Record LoginBody := mkLoginBody {
  login_email : option BodyValue;
  login_password : option BodyValue
}.

Definition invalid_credentials : JsError :=
  AppError "Invalid email or password" 401.

(** The handler of [app.post("/login", ...)]: the location it redirects
    to, or the error it throws. *)
Definition login (db : Db) (body : LoginBody) (users : list User.t)
    (session : Session.t) : Completion string * Session.t :=
  if missing_value (login_email body) || missing_value (login_password body)
  then (Throw (AppError "Email and password are required" 400), session)
  else
    match findOne_rejects db with
    | Some e => (Throw e, session)
    | None =>
        match findOne_by db (login_email body) users with
        | None => (Throw invalid_credentials, session)
        | Some user =>
            if same_password (login_password body) (User.password user)
            then (Return "/", log_in user)
            else (Throw invalid_credentials, session)
        end
    end.

(** The body of a signup request whose fields are strings or absent, as
    the signup form posts them. *)
Record SignupBody := mkSignupBody {
  signup_name : option string;
  signup_email : option string;
  signup_password : option string
}.

(** The handler of [app.post("/signup", ...)]. *)
Definition signup (db : Db) (body : SignupBody) (users : list User.t)
    (session : Session.t) : Completion string * (list User.t * Session.t) :=
  if missing (signup_name body) || missing (signup_email body)
     || missing (signup_password body)
  then (Throw (AppError "All fields are required" 400), (users, session))
  else
    match findOne_rejects db with
    | Some e => (Throw e, (users, session))
    | None =>
        match findOne (default "" (signup_email body)) users with
        | Some _ => (Throw (AppError "Email already registered" 409), (users, session))
        | None =>
            let user :=
              {| User._id := new_id db;
                 User.name := default "" (signup_name body);
                 User.email := default "" (signup_email body);
                 User.password := default "" (signup_password body) |} in
            match save_rejects db with
            | Some e => (Throw e, (users, session))
            | None => (Return "/", ((users ++ [user])%list, log_in user))
            end
        end
    end.

(** [wrapAsync] around a handler that redirects. *)
Definition wrapRedirect {S : Type} (r : Completion string * S) : Reply * S :=
  match r with
  | (Return location, s) => (Redirect location, s)
  | (Throw e, s) => (Sent (errorHandler e), s)
  end.

Definition post_login (db : Db) (body : LoginBody) (users : list User.t)
    (session : Session.t) : Reply * Session.t :=
  wrapRedirect (login db body users session).

Definition post_signup (db : Db) (body : SignupBody) (users : list User.t)
    (session : Session.t) : Reply * (list User.t * Session.t) :=
  wrapRedirect (signup db body users session).

(** [app.get("/logout", ...)]: when [req.session.destroy] fails the
    session stays in the store. *)
Definition get_logout (destroy_failed : bool) (session : Session.t)
    : Reply * Session.t :=
  if destroy_failed then (Redirect "/", session)
  else (Redirect "/login", Session.empty).

(** A request to one of the account routes. *)
Inductive AccountRequest :=
  | PostSignup (db : Db) (body : SignupBody)
  | PostLogin (db : Db) (body : LoginBody)
  | GetLogout (destroy_failed : bool).

Definition account (req : AccountRequest) (users : list User.t)
    (session : Session.t) : Reply * (list User.t * Session.t) :=
  match req with
  | PostSignup db body => post_signup db body users session
  | PostLogin db body =>
      let '(r, s) := post_login db body users session in (r, (users, s))
  | GetLogout destroy_failed =>
      let '(r, s) := get_logout destroy_failed session in (r, (users, s))
  end.

(** The accounts after a sequence of account requests, each sent by a
    client with its own session. *)
Definition run_accounts (trace : list (AccountRequest * Session.t))
    (users : list User.t) : list User.t :=
  foldl (fun users rs => fst (snd (account (fst rs) users (snd rs)))) users trace.

(** * Vocabulary of the further properties *)

(** The substrings the [catch] blocks look for. *)
Definition rate_limit_indicators : list string :=
  ["RESOURCE_EXHAUSTED"; "429"; "quota"; "rate limit"; "Rate limit"].

(** The text with which the world answers a call, if it answers it. *)
Definition answer (w : World) (call : ProviderCall) : option string :=
  match call with
  | GroqCreate req =>
      match groq_create w req with
      | Resolved content => Some (or_str content "")
      | Rejected _ => None
      end
  | GeminiGenerate model generationConfig content =>
      match gemini_generateContent w model generationConfig content with
      | Resolved t => Some t
      | Rejected _ => None
      end
  | GeminiSend _ model generationConfig history msg =>
      match send_outcome w model generationConfig history msg with
      | Resolved t => Some t
      | Rejected _ => None
      end
  end.

(** Calls made for the model [n], calls the world rejects, and calls the
    world rejects with an error classified as a rate limit. *)
Definition made_for (n : string) (call : ProviderCall) : bool :=
  String.eqb (call_model call) n.

Definition rejected (w : World) (call : ProviderCall) : bool :=
  match rejection w call with Some _ => true | None => false end.

Definition rate_limited (w : World) (call : ProviderCall) : bool :=
  match rejection w call with Some e => isRateLimit e | None => false end.

Definition count (p : ProviderCall -> bool) (asked : list ProviderCall) : N :=
  N.of_nat (length (List.filter p asked)).

(** What the calls [asked] of one request in the world [w] add to the
    failure bookkeeping of the model [n]. *)
Definition failures_of (w : World) (n : string) (asked : list ProviderCall) : N :=
  count (fun call => made_for n call && rejected w call) asked.

Definition rate_limits_of (w : World) (n : string) (asked : list ProviderCall) : N :=
  count (fun call => made_for n call && rate_limited w call) asked.

(** The stats object [s'] is [s] after the calls [asked]: the failures and
    the rate-limit hits of the model have been counted, and a rate-limit
    hit has stamped the clock of the catch block. *)
Definition booked (w : World) (n : string) (asked : list ProviderCall)
    (s s' : ModelStats) : Prop :=
  failures s' = (failures s + failures_of w n asked)%N
  /\ rateLimitHits s' = (rateLimitHits s + rate_limits_of w n asked)%N
  /\ lastFailure s'
     = (if (0 <? rate_limits_of w n asked)%N then Some (now_at_catch w n)
        else lastFailure s)
  /\ (attempts s + count (made_for n) asked <= attempts s')%N.

(** The two states have the same stats and the same trace of calls. *)
Definition same_books (st1 st2 : State) : Prop :=
  modelStats st1 = modelStats st2 /\ calls st1 = calls st2.

(** The calls [asked] of one request end with a call that the world
    answers with [text], made for the candidate [model] of [cands] whose
    provider is [prov]; every call before it was rejected. *)
Definition served (w : World) (cands : list ModelConfig)
    (asked : list ProviderCall) (model prov text : string) : Prop :=
  exists earlier call m,
    asked = (earlier ++ [call])%list
    /\ Forall (fun c => rejected w c = true) earlier
    /\ answer w call = Some text
    /\ call_model call = model
    /\ m ∈ cands /\ name m = model /\ provider_name (provider m) = prov.

(** A chat object made by the server: it is bound to a Gemini candidate of
    the registry, with the config of that candidate, and its history
    starts with the two priming turns. *)
Definition chat_ok (o : ChatSession) : Prop :=
  initial_history `prefix_of` history o
  /\ exists c, c ∈ MODEL_PRIORITY /\ provider c = gemini
               /\ modelName o = name c /\ chat_generationConfig o = config c.

(** The session store and the chat objects fit together: every chat
    object is well made, every session refers to a chat object, and no
    two sessions share one. *)
Definition store_ok (st : State) : Prop :=
  map_Forall (fun _ o => chat_ok o) (chatObjects st)
  /\ (forall k r, chatSessions st !! k = Some r -> is_Some (chatObjects st !! r))
  /\ (forall k1 k2 r, chatSessions st !! k1 = Some r ->
                      chatSessions st !! k2 = Some r -> k1 = k2).

(** What a chat request that starts on the chat [chat] may do to the
    store on its way from [st] to [st']: the sessions are as they were, no
    chat object is lost, a chat object other than [chat] is as it was,
    and well-made chat objects stay well made. *)
Definition chat_store_kept (chat : option nat) (st st' : State) : Prop :=
  chatSessions st' = chatSessions st
  /\ (forall k, is_Some (chatObjects st !! k) -> is_Some (chatObjects st' !! k))
  /\ (forall k, Some k <> chat -> is_Some (chatObjects st !! k) ->
                chatObjects st' !! k = chatObjects st !! k)
  /\ (map_Forall (fun _ o => chat_ok o) (chatObjects st) ->
      map_Forall (fun _ o => chat_ok o) (chatObjects st')).

(** The chat object [r] of a result: it is in the store, and it is the
    chat the request started on or a chat object made during the
    request. *)
Definition result_ref_ok (chat : option nat) (st st' : State) (r : nat) : Prop :=
  is_Some (chatObjects st' !! r)
  /\ (chat = Some r \/ chatObjects st !! r = None).

(** The steps that only generate text. *)
Definition generation_step (step : Step) : bool :=
  match step with
  | Direct (Generate _ _ _) => true
  | Direct (Serve (PostChat _)) | Route (AiRoute (PostChat _)) => false
  | Direct (Serve _) | Route (AiRoute _) => true
  | Route (PostDietPlan _) => true
  | _ => false
  end.


(** During the steps [trace], run from the state [st], no call made for
    the model [n] was rejected with an error classified as a rate
    limit. *)
Fixpoint no_rate_limit_hit (n : string) (trace : list (World * Step))
    (st : State) : Prop :=
  match trace with
  | [] => True
  | ws :: rest =>
      rate_limits_of (fst ws) n (new_calls st (run_step ws st)) = 0%N
      /\ no_rate_limit_hit n rest (run_step ws st)
  end.

(** The status of a response. *)
Definition status (r : Response) : Z :=
  match r with
  | SendJson code _ => code
  | RenderError code _ _ => code
  end.

(** The session key of a chat request. *)
Definition session_key (body : ChatBody) : string :=
  default "default" (body_sessionId body).

(** * Further scenarios *)

Definition alice : SignupBody :=
  mkSignupBody (Some "Alice") (Some "alice@example.org") (Some "s3cret").

Definition db_up (id : nat) : Db :=
  {| findOne_rejects := None; save_rejects := None; new_id := id;
     selects := fun _ _ => false |}.

(** A database that answers and in which the filter
    [{ email: { $ne: null } }] selects every document. *)
Definition db_operators (id : nat) : Db :=
  {| findOne_rejects := None; save_rejects := None; new_id := id;
     selects := fun v _ =>
       match v with
       | BObj [(op, BNull)] => String.eqb op "$ne"
       | _ => false
       end |}.

Definition alice_account : User.t :=
  {| User._id := 1; User.name := "Alice"; User.email := "alice@example.org";
     User.password := "s3cret" |}.

(** * Properties *)

(** ** Strings *)

Lemma prefix_refl (s : string) : String.prefix s s = true.
Proof.
  induction s as [|a s IH]; simpl; [reflexivity|].
  destruct (ascii_dec a a); [exact IH | congruence].
Qed.

Lemma includes_unfold (s pat : string) :
  includes s pat
  = if String.prefix pat s then true
    else match s with
         | EmptyString => false
         | String _ s' => includes s' pat
         end.
Proof. destruct s; reflexivity. Qed.

Lemma includes_self (s : string) : includes s s = true.
Proof. rewrite includes_unfold. now rewrite prefix_refl. Qed.

Lemma includes_append (p s : string) : includes (p +:+ s) s = true.
Proof.
  induction p as [|a p IH].
  - apply includes_self.
  - change (String a p +:+ s) with (String a (p +:+ s)).
    rewrite includes_unfold, IH.
    now destruct (String.prefix s (String a (p +:+ s))).
Qed.

(** The message of the 503 error of the plain-generation path embeds the
    message of the last error. *)
Lemma exhausted_message_embeds (error : JsError) (msg : string) :
  message error = Some msg ->
  includes (exhausted_message (Some error)) msg = true.
Proof.
  intros Hmsg. unfold exhausted_message.
  change (Some error ≫= message) with (message error). rewrite Hmsg.
  destruct msg as [|a msg].
  - rewrite includes_unfold. reflexivity.
  - change (or_str (Some (String a msg)) "Unknown") with (String a msg).
    apply includes_append.
Qed.

Example rate_limit_message :
  isRateLimit (provider_error "[429 Too Many Requests] Resource has been exhausted")
  = true.
Proof. reflexivity. Qed.

Example plain_failure_message : isRateLimit (provider_error "fetch failed") = false.
Proof. reflexivity. Qed.

Example error_without_message :
  isRateLimit {| message := None; statusCode := None; isOperational := false |}
  = false.
Proof. reflexivity. Qed.

Example base64Data_of_data_url :
  base64Data "data:image/jpeg;base64,AAAA" = "AAAA".
Proof. reflexivity. Qed.

Example base64Data_of_raw_data : base64Data "AAAA" = "AAAA".
Proof. reflexivity. Qed.

(** ** Maps *)

Lemma alter_lookup_inv {A} (f : A -> A) (m : gmap string A) (i j : string) (y : A) :
  alter f i m !! j = Some y ->
  exists x, m !! j = Some x /\ y = if decide (i = j) then f x else x.
Proof.
  rewrite lookup_alter. destruct (decide (i = j)) as [->|Hne].
  - destruct (m !! j) as [x|] eqn:E; simpl; [|discriminate].
    intros [= <-]. eauto.
  - intros H. eauto.
Qed.

Lemma spread_lookup (defaults overrides : Config) (k : string) :
  spread defaults overrides !! k
  = match overrides !! k with
    | Some v => Some v
    | None => defaults !! k
    end.
Proof.
  unfold spread. rewrite lookup_union.
  destruct (overrides !! k), (defaults !! k); reflexivity.
Qed.

Lemma fresh_object_free (objs : gmap nat ChatSession) :
  objs !! fresh (dom objs) = None.
Proof. apply not_elem_of_dom, is_fresh. Qed.

(** ** The registry *)

Lemma MODEL_PRIORITY_names_NoDup : NoDup (map name MODEL_PRIORITY).
Proof. apply (bool_decide_unpack _). vm_compute. exact I. Qed.

Lemma NoDup_map_name_inj (l : list ModelConfig) (m c : ModelConfig) :
  NoDup (map name l) -> m ∈ l -> c ∈ l -> name m = name c -> m = c.
Proof.
  induction l as [|x l IH]; intros Hnd Hm Hc Heq; [now apply elem_of_nil in Hm|].
  simpl in Hnd. apply NoDup_cons in Hnd as [Hx Hnd].
  apply elem_of_cons in Hm as [->|Hm]; apply elem_of_cons in Hc as [->|Hc].
  - reflexivity.
  - exfalso. apply Hx. rewrite Heq. apply list_elem_of_fmap. eauto.
  - exfalso. apply Hx. rewrite <- Heq. apply list_elem_of_fmap. eauto.
  - now apply IH.
Qed.

Lemma init_modelStats_Forall (P : ModelStats -> Prop) reg :
  P fresh_stats -> map_Forall (fun _ s => P s) (init_modelStats reg).
Proof.
  intros Hfresh. unfold init_modelStats.
  assert (H : forall (ms : gmap string ModelStats),
             map_Forall (fun _ s => P s) ms ->
             map_Forall (fun _ s => P s)
               (foldl (fun m model => <[name model := fresh_stats]> m) ms reg)).
  { induction reg as [|m reg IH]; intros ms Hms; simpl; [exact Hms|].
    apply IH. apply map_Forall_insert_2; [exact Hfresh | exact Hms]. }
  apply H, map_Forall_empty.
Qed.

Lemma init_state_registered : registered MODEL_PRIORITY init_state.
Proof. unfold registered. repeat constructor; vm_compute; eauto. Qed.

(** ** The two entry points *)

Lemma generateWithFallback_eq w prompt cc img st :
  generateWithFallback w prompt cc img st
  = generate_loop w prompt cc img MODEL_PRIORITY None st.
Proof. reflexivity. Qed.

Lemma chatWithFallback_eq w chat message sessionId st :
  chatWithFallback w chat message sessionId st
  = chat_loop w message MODEL_PRIORITY chat None st.
Proof. reflexivity. Qed.

(** ** The state after the catch block *)

Lemma modelStats_record_failure w m e st :
  modelStats (record_failure w m e st)
  = alter (failed_stats (now_at_catch w (name m)) e) (name m) (modelStats st).
Proof.
  unfold record_failure, failed_stats.
  destruct (isRateLimit e); simpl; [|reflexivity].
  now rewrite alter_alter_eq.
Qed.

Lemma chatSessions_record_failure w m e st :
  chatSessions (record_failure w m e st) = chatSessions st.
Proof. unfold record_failure. now destruct (isRateLimit e). Qed.

Lemma chatObjects_record_failure w m e st :
  chatObjects (record_failure w m e st) = chatObjects st.
Proof. unfold record_failure. now destruct (isRateLimit e). Qed.

Lemma calls_record_failure w m e st :
  calls (record_failure w m e st) = calls st.
Proof. unfold record_failure. now destruct (isRateLimit e). Qed.

Create Rewrite HintDb state.

#[local] Hint Rewrite modelStats_record_failure chatSessions_record_failure
  chatObjects_record_failure calls_record_failure : state.

(** The stats object of another model after a failed attempt. *)
Lemma lookup_failed_attempt_ne w m e c st n :
  name m <> n ->
  modelStats (record_failure w m e
                (log_call c (with_stats (alter incr_attempts (name m)) st))) !! n
  = modelStats st !! n.
Proof.
  intros Hne. rewrite modelStats_record_failure. simpl.
  now rewrite !lookup_alter_ne by exact Hne.
Qed.

Lemma registered_after_alter (k : ModelStats -> ModelStats) m rest st st1 :
  registered rest st ->
  modelStats st1 = alter k (name m) (modelStats st) ->
  registered rest st1.
Proof.
  intros Hreg Hst1. unfold registered in *.
  eapply Forall_impl; [exact Hreg|]. intros x Hx. simpl in *.
  rewrite Hst1. now apply lookup_alter_is_Some.
Qed.

(** ** The algebra of the counters *)

Lemma stats_ok_fresh : stats_ok fresh_stats.
Proof. split; simpl; lia. Qed.

Lemma stats_ok_attempt s : stats_ok s -> stats_ok (incr_attempts s).
Proof. intros [H1 H2]. split; simpl; lia. Qed.

Lemma stats_ok_failed now e s :
  stats_ok s -> stats_ok (failed_stats now e (incr_attempts s)).
Proof.
  intros [H1 H2]. unfold failed_stats.
  destruct (isRateLimit e); split; simpl; lia.
Qed.

Lemma Forall_alter_ok (f : ModelStats -> ModelStats) n (ms : gmap string ModelStats) :
  (forall s, stats_ok s -> stats_ok (f s)) ->
  map_Forall (fun _ s => stats_ok s) ms ->
  map_Forall (fun _ s => stats_ok s) (alter f n ms).
Proof.
  intros Hf Hms k s Hk.
  apply alter_lookup_inv in Hk as (x & Hx & ->).
  specialize (Hms k x Hx). simpl in Hms.
  destruct (decide (n = k)); auto.
Qed.

Lemma Forall_failed_ok now e n (ms : gmap string ModelStats) :
  map_Forall (fun _ s => stats_ok s) ms ->
  map_Forall (fun _ s => stats_ok s)
    (alter (failed_stats now e) n (alter incr_attempts n ms)).
Proof.
  intros Hms. rewrite alter_alter_eq.
  apply Forall_alter_ok; [|exact Hms].
  intros s Hs. now apply stats_ok_failed.
Qed.

Lemma only_attempts_refl s : only_attempts s s.
Proof. repeat split; lia. Qed.

Lemma only_attempts_step s s' :
  only_attempts (incr_attempts s) s' -> only_attempts s s'.
Proof. intros (H1 & H2 & H3 & H4). simpl in *. repeat split; try assumption; lia. Qed.

Create HintDb orchestrator.

#[local] Hint Resolve stats_ok_fresh stats_ok_attempt stats_ok_failed
  only_attempts_refl list_elem_of_here list_elem_of_further : orchestrator.

Lemma init_state_no_timestamp n : no_timestamp n init_state.
Proof.
  intros s Hs.
  exact (init_modelStats_Forall (fun s => lastFailure s = None) MODEL_PRIORITY
           eq_refl n s Hs).
Qed.

(** ** Traces *)

(** The loop asked no provider. *)
Ltac nothing_asked :=
  exists []; split; [now rewrite ?app_nil_r | constructor].

(** The loop asked one provider and stopped. *)
Ltac asked_once :=
  eexists [_]; split; [reflexivity | constructor; [|constructor]].

Lemma new_calls_app st st' asked :
  calls st' = (calls st ++ asked)%list -> new_calls st st' = asked.
Proof. intros H. unfold new_calls. now rewrite H, drop_app_length. Qed.

(** ** The chat object of a candidate *)

Lemma bound_chat_Some st chat n r o :
  bound_chat st chat n = Some (r, o) ->
  chat = Some r /\ chatObjects st !! r = Some o /\ modelName o = n.
Proof.
  unfold bound_chat. destruct chat as [r'|]; [|discriminate].
  destruct (chatObjects st !! r') as [o'|] eqn:E; [|discriminate].
  destruct (String.eqb (modelName o') n) eqn:Heq; [|discriminate].
  intros [= <- <-]. apply String.eqb_eq in Heq. auto.
Qed.

(** The block either keeps the chat it was given, when that chat is bound
    to the candidate, or allocates a new object holding the two priming
    turns. *)
Lemma resolve_chat_spec st chat m r o st1 :
  resolve_chat st chat m = (r, o, st1) ->
  modelName o = name m
  /\ modelStats st1 = modelStats st /\ calls st1 = calls st
  /\ chatSessions st1 = chatSessions st
  /\ chatObjects st1 !! r = Some o
  /\ ((chat = Some r /\ chatObjects st !! r = Some o /\ st1 = st)
      \/ (bound_chat st chat (name m) = None /\ o = startChat m
          /\ chatObjects st !! r = None
          /\ chatObjects st1 = <[r := o]> (chatObjects st))).
Proof.
  unfold resolve_chat.
  destruct (bound_chat st chat (name m)) as [[r' o']|] eqn:E.
  - intros [= <- <- <-]. apply bound_chat_Some in E as (-> & Hr & Hn).
    repeat split; auto.
  - intros [= <- <- <-]. simpl. repeat split.
    + apply lookup_insert_eq.
    + right. repeat split. apply fresh_object_free.
Qed.

Lemma resolve_chat_objects st chat m r o st1 :
  resolve_chat st chat m = (r, o, st1) -> chatObjects st ⊆ chatObjects st1.
Proof.
  intros H. apply resolve_chat_spec in H as (_ & _ & _ & _ & _ & H).
  destruct H as [(_ & _ & ->)|(_ & _ & Hfree & ->)]; [reflexivity|].
  now apply insert_subseteq.
Qed.

(** ** The settlement of a Gemini send *)

Lemma rejection_send_rejected w r model cfg h msg e :
  gemini_sendMessage w model cfg h msg = Rejected e ->
  rejection w (GeminiSend r model cfg h msg) = Some e.
Proof. intros E. simpl. unfold send_outcome. now rewrite E. Qed.

Lemma rejection_send_unreadable w r model cfg h msg sent e :
  gemini_sendMessage w model cfg h msg = Resolved sent ->
  response_text sent = Throw e ->
  rejection w (GeminiSend r model cfg h msg) = Some e.
Proof. intros E E'. simpl. unfold send_outcome. now rewrite E, E'. Qed.

Lemma rejection_send_answered w r model cfg h msg sent t :
  gemini_sendMessage w model cfg h msg = Resolved sent ->
  response_text sent = Return t ->
  rejection w (GeminiSend r model cfg h msg) = None.
Proof. intros E E'. simpl. unfold send_outcome. now rewrite E, E'. Qed.

(** ** Recorded turns *)

Lemma history_record_turns message turn o :
  history (record_turns message turn o)
  = (history o ++ turns_of message turn)%list.
Proof. destruct turn; simpl; [reflexivity | now rewrite app_nil_r]. Qed.

Lemma modelName_record_turns message turn o :
  modelName (record_turns message turn o) = modelName o.
Proof. now destruct turn. Qed.

Lemma config_record_turns message turn o :
  chat_generationConfig (record_turns message turn o) = chat_generationConfig o.
Proof. now destruct turn. Qed.

Lemma record_turns_answered message t o :
  history (record_turns message (recorded (answered t)) o)
  = (history o ++ exchange message t)%list.
Proof. reflexivity. Qed.

Lemma chat_survives_refl o : chat_survives o o.
Proof. now repeat split. Qed.

Lemma chat_survives_trans o1 o2 o3 :
  chat_survives o1 o2 -> chat_survives o2 o3 -> chat_survives o1 o3.
Proof.
  intros (Hn & Hc & Hh) (Hn' & Hc' & Hh').
  split; [congruence|]. split; [congruence|]. now transitivity (history o2).
Qed.

Lemma chat_survives_record_turns message turn o :
  chat_survives o (record_turns message turn o).
Proof.
  split; [apply modelName_record_turns|].
  split; [apply config_record_turns|].
  rewrite history_record_turns. now apply prefix_app_r.
Qed.

Lemma chats_survive_refl st : chats_survive st st.
Proof. intros r o Ho. exists o. split; [exact Ho | apply chat_survives_refl]. Qed.

Lemma chats_survive_trans st1 st2 st3 :
  chats_survive st1 st2 -> chats_survive st2 st3 -> chats_survive st1 st3.
Proof.
  intros H12 H23 r o Ho.
  destruct (H12 r o Ho) as (o2 & Ho2 & Hs2).
  destruct (H23 r o2 Ho2) as (o3 & Ho3 & Hs3).
  exists o3. split; [exact Ho3|]. now apply (chat_survives_trans o o2 o3).
Qed.

Lemma chats_survive_same st st' :
  chatObjects st' = chatObjects st -> chats_survive st st'.
Proof. intros H r o Ho. exists o. rewrite H. auto using chat_survives_refl. Qed.

Lemma chats_survive_subseteq st st' :
  chatObjects st ⊆ chatObjects st' -> chats_survive st st'.
Proof.
  intros H r o Ho. exists o.
  split; [exact (lookup_weaken _ _ _ _ Ho H) | apply chat_survives_refl].
Qed.

(** A fulfilled send on the chat [r]. *)
Lemma chats_survive_record st st' r o message turn :
  chatObjects st !! r = Some o ->
  chatObjects st' = <[r := record_turns message turn o]> (chatObjects st) ->
  chats_survive st st'.
Proof.
  intros Hr Hst' k x Hk. rewrite Hst'. destruct (decide (k = r)) as [->|Hne].
  - rewrite lookup_insert_eq. rewrite Hr in Hk. injection Hk as <-.
    eexists. split; [reflexivity | apply chat_survives_record_turns].
  - rewrite lookup_insert_ne by congruence. exists x.
    auto using chat_survives_refl.
Qed.

(** ** Payloads *)

Lemma generate_request_overrides (c : ModelConfig) (prompt : string) (cc : Config) :
  provider c = groq ->
  sent_with_overrides c cc (GroqCreate (generate_request c prompt cc)).
Proof.
  intros Hgroq. simpl. repeat split; try assumption.
  - intros v -> Hv. simpl. now rewrite Hv.
  - now intros ->.
  - intros v -> Hv. simpl. now rewrite Hv.
  - now intros ->.
Qed.

Lemma generate_content_overrides (c : ModelConfig) (prompt : string) (cc : Config)
    (img : option (list Part)) :
  provider c = gemini ->
  sent_with_overrides c cc
    (GeminiGenerate (name c) (spread (config c) cc) (generate_content prompt img)).
Proof.
  intros Hgemini. simpl. repeat split; [exact Hgemini|].
  intros k. apply spread_lookup.
Qed.

(** ** The plain-generation loop *)

Section GenerateLoop.
Context (w : World) (prompt : string) (cc : Config).

#[local] Abbreviation loop img cands lastError st :=
  (generate_loop w prompt cc img cands lastError st).

(** *** Counters *)

Lemma generate_loop_stats_ok img cands :
  forall lastError st,
    map_Forall (fun _ s => stats_ok s) (modelStats st) ->
    map_Forall (fun _ s => stats_ok s) (modelStats (snd (loop img cands lastError st))).
Proof.
  induction cands as [|m rest IH]; intros lastError st Hst; simpl; [exact Hst|].
  destruct (modelStats st !! name m) as [stats|]; [|exact Hst].
  assert (Hatt : map_Forall (fun _ s => stats_ok s)
                   (alter incr_attempts (name m) (modelStats st)))
    by (apply Forall_alter_ok; auto with orchestrator).
  destruct (recently_rate_limited stats _); [now apply IH|].
  destruct (provider m).
  - destruct (gemini_generateContent w _ _ _); simpl; [exact Hatt|].
    apply IH. autorewrite with state. simpl. now apply Forall_failed_ok.
  - destruct img; [now apply IH|].
    destruct (groq_create w _); simpl; [exact Hatt|].
    apply IH. autorewrite with state. simpl. now apply Forall_failed_ok.
Qed.

Lemma generate_loop_dom img cands :
  forall lastError st,
    dom (modelStats (snd (loop img cands lastError st))) = dom (modelStats st).
Proof.
  induction cands as [|m rest IH]; intros lastError st; simpl; [reflexivity|].
  destruct (modelStats st !! name m) as [stats|]; [|reflexivity].
  destruct (recently_rate_limited stats _);
    [rewrite IH; simpl; apply dom_alter_L|].
  destruct (provider m).
  - destruct (gemini_generateContent w _ _ _); simpl; [apply dom_alter_L|].
    rewrite IH. autorewrite with state. simpl. now rewrite !dom_alter_L.
  - destruct img; [rewrite IH; simpl; apply dom_alter_L|].
    destruct (groq_create w _); simpl; [apply dom_alter_L|].
    rewrite IH. autorewrite with state. simpl. now rewrite !dom_alter_L.
Qed.

(** The loop leaves the stats object of a model that is not a candidate. *)
Lemma generate_loop_frame img n cands :
  n ∉ map name cands ->
  forall lastError st,
    modelStats (snd (loop img cands lastError st)) !! n = modelStats st !! n.
Proof.
  induction cands as [|m rest IH]; intros Hn lastError st; simpl; [reflexivity|].
  simpl in Hn. apply not_elem_of_cons in Hn as [Hne Hn].
  specialize (IH Hn).
  assert (Hatt : alter incr_attempts (name m) (modelStats st) !! n
                 = modelStats st !! n) by now apply lookup_alter_ne.
  destruct (modelStats st !! name m) as [stats|]; [|reflexivity].
  destruct (recently_rate_limited stats _); [now rewrite IH|].
  destruct (provider m).
  - destruct (gemini_generateContent w _ _ _); simpl; [exact Hatt|].
    rewrite IH. apply lookup_failed_attempt_ne. congruence.
  - destruct img; [now rewrite IH|].
    destruct (groq_create w _); simpl; [exact Hatt|].
    rewrite IH. apply lookup_failed_attempt_ne. congruence.
Qed.

(** The loop counts one attempt for the candidate at the head of the list
    when that candidate is cooling down. *)
Lemma generate_loop_counts_skipped img m rest lastError st s :
  name m ∉ map name rest ->
  modelStats st !! name m = Some s ->
  recently_rate_limited s (now_at_check w (name m)) = true ->
  modelStats (snd (loop img (m :: rest) lastError st)) !! name m
  = Some (incr_attempts s).
Proof.
  intros Hfresh Hs Hcool. simpl. rewrite Hs, Hcool.
  rewrite generate_loop_frame by exact Hfresh.
  simpl. now rewrite lookup_alter_eq, Hs.
Qed.

(** A model whose candidates are all passed over (cooling down, or a
    groq candidate of an image request) is not invoked, and only its
    attempts counter may move. *)
Lemma generate_loop_passed_over img n cands :
  forall lastError st s,
    modelStats st !! n = Some s ->
    Forall (fun m => name m = n ->
              recently_rate_limited s (now_at_check w n) = true
              \/ (provider m = groq /\ is_Some img)) cands ->
    let st' := snd (loop img cands lastError st) in
    (exists s', modelStats st' !! n = Some s' /\ only_attempts s s')
    /\ exists asked, calls st' = (calls st ++ asked)%list
                     /\ Forall (fun c => call_model c <> n) asked.
Proof.
  induction cands as [|m rest IH]; intros lastError st s Hs Hskip; simpl.
  { split; [eauto with orchestrator | nothing_asked]. }
  apply Forall_cons in Hskip as [Hm Hrest].
  destruct (decide (name m = n)) as [Heq|Hne].
  - (* the candidate is the model: it is passed over *)
    rewrite Heq, Hs. specialize (Hm Heq).
    assert (Hs1 : modelStats (with_stats (alter incr_attempts n) st) !! n
                  = Some (incr_attempts s))
      by (simpl; now rewrite lookup_alter_eq, Hs).
    assert (Hgo : forall le,
      let st' := snd (loop img rest le (with_stats (alter incr_attempts n) st)) in
      (exists s', modelStats st' !! n = Some s' /\ only_attempts s s')
      /\ exists asked, calls st' = (calls st ++ asked)%list
                       /\ Forall (fun c => call_model c <> n) asked).
    { intros le. destruct (IH le _ _ Hs1 Hrest) as [(s' & Hs' & Hoa) Hcalls].
      split; [|exact Hcalls]. exists s'. split; [exact Hs'|].
      now apply only_attempts_step. }
    destruct (recently_rate_limited s (now_at_check w n)) eqn:Hcool; [apply Hgo|].
    destruct Hm as [Hm|[Hgroq [imgs ->]]]; [discriminate|].
    rewrite Hgroq. apply Hgo.
  - (* another candidate: it touches only its own stats *)
    destruct (modelStats st !! name m) as [stats|] eqn:Em; simpl.
    2:{ split; [eauto with orchestrator | nothing_asked]. }
    assert (Hs1 : modelStats (with_stats (alter incr_attempts (name m)) st) !! n
                  = Some s)
      by (simpl; now rewrite lookup_alter_ne).
    assert (Hstep : forall e call,
      call_model call = name m ->
      let st' := snd (loop img rest (Some e)
                        (record_failure w m e
                           (log_call call
                              (with_stats (alter incr_attempts (name m)) st)))) in
      (exists s', modelStats st' !! n = Some s' /\ only_attempts s s')
      /\ exists asked, calls st' = (calls st ++ asked)%list
                       /\ Forall (fun c => call_model c <> n) asked).
    { intros e call Hcall.
      edestruct (IH (Some e)) as [Hstats (asked & Hasked & Hall)];
        [| exact Hrest | split; [exact Hstats|]].
      { rewrite lookup_failed_attempt_ne by exact Hne. exact Hs. }
      rewrite Hasked. autorewrite with state. simpl.
      exists (call :: asked). split; [now rewrite <- app_assoc|].
      constructor; [congruence | exact Hall]. }
    destruct (recently_rate_limited stats _); [exact (IH _ _ _ Hs1 Hrest)|].
    destruct (provider m).
    + destruct (gemini_generateContent w _ _ _) as [t|e]; simpl;
        [|now apply Hstep].
      split; [eauto with orchestrator|]. asked_once. exact Hne.
    + destruct img; [exact (IH _ _ _ Hs1 Hrest)|].
      destruct (groq_create w _) as [t|e]; simpl; [|now apply Hstep].
      split; [eauto with orchestrator|]. asked_once. exact Hne.
Qed.

(** *** Exhaustion *)

(** When the loop fails, the error it carries in its message is the most
    recent rejection of a provider during the call. *)
Lemma generate_loop_exhausted_last img cands :
  forall lastError st e,
    registered cands st ->
    fst (loop img cands lastError st) = Throw e ->
    exists asked,
      calls (snd (loop img cands lastError st)) = (calls st ++ asked)%list
      /\ e = AppError (exhausted_message (last_rejection w lastError asked)) 503.
Proof.
  induction cands as [|m rest IH]; intros lastError st e Hreg; simpl.
  { intros [= <-]. exists []. now rewrite app_nil_r. }
  apply Forall_cons in Hreg as [[stats Hm] Hreg]. simpl in Hm. rewrite Hm.
  assert (Hatt : registered rest (with_stats (alter incr_attempts (name m)) st))
    by (apply (registered_after_alter incr_attempts m rest st); auto).
  destruct (recently_rate_limited stats _); [exact (IH lastError _ e Hatt)|].
  pose (k e := failed_stats (now_at_catch w (name m)) e ∘ incr_attempts).
  destruct (provider m).
  - destruct (gemini_generateContent w _ _ _) as [t|e0] eqn:E; simpl;
      [discriminate|].
    intros Hthrow.
    assert (Hreg1 : registered rest
              (record_failure w m e0 (log_call (GeminiGenerate (name m) (spread (config m) cc)
                 (generate_content prompt img))
                 (with_stats (alter incr_attempts (name m)) st)))).
    { apply (registered_after_alter (k e0) m rest st); [exact Hreg|].
      autorewrite with state. simpl. now rewrite alter_alter_eq. }
    destruct (IH (Some e0) _ e Hreg1 Hthrow) as (asked & Hasked & ->).
    rewrite Hasked. autorewrite with state. simpl.
    exists (GeminiGenerate (name m) (spread (config m) cc)
              (generate_content prompt img) :: asked).
    split; [now rewrite <- app_assoc|]. simpl. now rewrite E.
  - destruct img; [exact (IH lastError _ e Hatt)|].
    destruct (groq_create w _) as [t|e0] eqn:E; simpl; [discriminate|].
    intros Hthrow.
    assert (Hreg1 : registered rest
              (record_failure w m e0 (log_call (GroqCreate (generate_request m prompt cc))
                 (with_stats (alter incr_attempts (name m)) st)))).
    { apply (registered_after_alter (k e0) m rest st); [exact Hreg|].
      autorewrite with state. simpl. now rewrite alter_alter_eq. }
    destruct (IH (Some e0) _ e Hreg1 Hthrow) as (asked & Hasked & ->).
    rewrite Hasked. autorewrite with state. simpl.
    exists (GroqCreate (generate_request m prompt cc) :: asked).
    split; [now rewrite <- app_assoc|]. simpl. now rewrite E.
Qed.

(** *** First answer *)

Lemma candidate_answer_ext img st st1 m :
  modelStats st1 !! name m = modelStats st !! name m ->
  candidate_answer w prompt cc img st1 m = candidate_answer w prompt cc img st m.
Proof. unfold candidate_answer. now intros ->. Qed.

(** After a candidate that did not answer, only the stats object of that
    candidate and the trace have moved. *)
Lemma generate_loop_step_failed img m rest lastError st :
  is_Some (modelStats st !! name m) ->
  candidate_answer w prompt cc img st m = None ->
  exists lastError1 st1 asked,
    loop img (m :: rest) lastError st = loop img rest lastError1 st1
    /\ (forall k, k <> name m -> modelStats st1 !! k = modelStats st !! k)
    /\ calls st1 = (calls st ++ asked)%list
    /\ Forall (fun c => call_model c = name m) asked.
Proof.
  intros [stats Hstats] Hnone. unfold candidate_answer in Hnone.
  simpl. rewrite Hstats in *.
  assert (Hfr : forall k, k <> name m ->
            alter incr_attempts (name m) (modelStats st) !! k = modelStats st !! k)
    by (intros k Hk; now apply lookup_alter_ne).
  assert (Hskip : exists lastError1 st1 asked,
    loop img rest lastError (with_stats (alter incr_attempts (name m)) st)
    = loop img rest lastError1 st1
    /\ (forall k, k <> name m -> modelStats st1 !! k = modelStats st !! k)
    /\ calls st1 = (calls st ++ asked)%list
    /\ Forall (fun c => call_model c = name m) asked).
  { eexists _, _, []. split; [reflexivity|]. simpl. rewrite app_nil_r. auto. }
  destruct (recently_rate_limited stats _); [exact Hskip|].
  destruct (provider m).
  - destruct (gemini_generateContent w _ _ _) as [t|e]; [discriminate|].
    eexists _, _, [_]. split; [reflexivity|].
    rewrite calls_record_failure. split; [|split; [reflexivity|repeat constructor]].
    intros k Hk. apply lookup_failed_attempt_ne. congruence.
  - destruct img; [exact Hskip|].
    destruct (groq_create w _) as [t|e]; [discriminate|].
    eexists _, _, [_]. split; [reflexivity|].
    rewrite calls_record_failure. split; [|split; [reflexivity|repeat constructor]].
    intros k Hk. apply lookup_failed_attempt_ne. congruence.
Qed.

(** The candidate that answers ends the loop. *)
Lemma generate_loop_step_answered img m rest lastError st t :
  candidate_answer w prompt cc img st m = Some t ->
  exists st1 call,
    loop img (m :: rest) lastError st
    = (Return {| text := t; modelUsed := name m;
                 gen_provider := provider_name (provider m);
                 success := true |}, st1)
    /\ calls st1 = (calls st ++ [call])%list
    /\ call_model call = name m.
Proof.
  unfold candidate_answer. simpl.
  destruct (modelStats st !! name m) as [stats|]; [|discriminate].
  destruct (recently_rate_limited stats _); [discriminate|].
  destruct (provider m).
  - destruct (gemini_generateContent w _ _ _) as [t'|e]; [|discriminate].
    intros [= ->]. eexists _, _. split; [reflexivity|]. split; reflexivity.
  - destruct img; [discriminate|].
    destruct (groq_create w _) as [content|e]; [|discriminate].
    intros [= <-]. eexists _, _. split; [reflexivity|]. split; reflexivity.
Qed.

Lemma generate_loop_first_answer img c post t :
  forall pre lastError st,
    NoDup (map name (pre ++ c :: post)) ->
    registered pre st ->
    Forall (fun m => candidate_answer w prompt cc img st m = None) pre ->
    candidate_answer w prompt cc img st c = Some t ->
    exists st' asked,
      loop img (pre ++ c :: post) lastError st
      = (Return {| text := t; modelUsed := name c;
                   gen_provider := provider_name (provider c);
                   success := true |}, st')
      /\ calls st' = (calls st ++ asked)%list
      /\ Forall (fun call => call_model call ∉ map name post) asked.
Proof.
  induction pre as [|m pre IH]; intros lastError st Hnd Hreg Hpre Hc.
  - destruct (generate_loop_step_answered img c post lastError st t Hc)
      as (st1 & call & Hrun & Hcalls & Hmodel).
    exists st1, [call]. split; [exact Hrun|]. split; [exact Hcalls|].
    constructor; [|constructor]. rewrite Hmodel.
    simpl in Hnd. now apply NoDup_cons in Hnd as [Hnotin _].
  - apply Forall_cons in Hreg as [Hm Hreg].
    apply Forall_cons in Hpre as [Hnone Hpre].
    simpl in Hnd. apply NoDup_cons in Hnd as [Hnotin Hnd].
    assert (Hother : forall x, x ∈ (pre ++ c :: post)%list -> name x <> name m).
    { intros x Hx Heq. apply Hnotin. rewrite <- Heq.
      apply list_elem_of_fmap. eauto. }
    destruct (generate_loop_step_failed img m (pre ++ c :: post) lastError st
                Hm Hnone)
      as (le1 & st1 & asked1 & Hrun & Hframe & Hcalls1 & Hasked1).
    destruct (IH le1 st1 Hnd) as (st' & asked & Hrun' & Hcalls & Hasked).
    + unfold registered. rewrite Forall_forall in Hreg |- *. intros x Hx.
      rewrite Hframe; [now apply Hreg|].
      apply Hother, elem_of_app. now left.
    + rewrite Forall_forall in Hpre |- *. intros x Hx.
      rewrite (candidate_answer_ext img st st1); [now apply Hpre|].
      apply Hframe, Hother, elem_of_app. now left.
    + rewrite (candidate_answer_ext img st st1); [exact Hc|].
      apply Hframe, Hother, elem_of_app. right. apply list_elem_of_here.
    + exists st', (asked1 ++ asked)%list.
      split; [simpl app; rewrite Hrun; exact Hrun'|].
      split; [rewrite Hcalls, Hcalls1; now rewrite <- app_assoc|].
      apply Forall_app. split; [|exact Hasked].
      eapply Forall_impl; [exact Hasked1|]. intros call -> Hin.
      apply list_elem_of_fmap in Hin as (x & Heq & Hx).
      apply (Hother x); [|now symmetry].
      apply elem_of_app. right. now apply list_elem_of_further.
Qed.

(** *** Payloads *)

(** Every call of the loop is made for one of its candidates, with the
    payload that candidate builds from the overrides. *)
Lemma generate_loop_overrides img cands :
  forall lastError st,
    exists asked,
      calls (snd (loop img cands lastError st)) = (calls st ++ asked)%list
      /\ Forall (fun call => exists c, c ∈ cands /\ sent_with_overrides c cc call)
           asked.
Proof.
  induction cands as [|m rest IH]; intros lastError st; simpl; [nothing_asked|].
  assert (Hlift : forall le1 st1 asked1,
    calls st1 = (calls st ++ asked1)%list ->
    Forall (fun call => exists c, c ∈ m :: rest /\ sent_with_overrides c cc call)
      asked1 ->
    exists asked,
      calls (snd (loop img rest le1 st1)) = (calls st ++ asked)%list
      /\ Forall (fun call => exists c, c ∈ m :: rest /\ sent_with_overrides c cc call)
           asked).
  { intros le1 st1 asked1 Hc1 Ha1.
    destruct (IH le1 st1) as (asked & Hc & Ha).
    exists (asked1 ++ asked)%list.
    split; [rewrite Hc, Hc1; now rewrite <- app_assoc|].
    apply Forall_app. split; [exact Ha1|].
    eapply Forall_impl; [exact Ha|]. intros call (c & Hin & Hsent).
    exists c. split; [now apply list_elem_of_further | exact Hsent]. }
  destruct (modelStats st !! name m) as [stats|]; simpl; [|nothing_asked].
  destruct (recently_rate_limited stats _).
  { apply (Hlift _ _ []); [simpl; now rewrite app_nil_r | constructor]. }
  destruct (provider m) eqn:Hprov.
  - pose proof (generate_content_overrides m prompt cc img Hprov) as Hsent.
    destruct (gemini_generateContent w _ _ _) as [t|e]; simpl.
    + asked_once. eauto with orchestrator.
    + apply (Hlift _ _ [GeminiGenerate (name m) (spread (config m) cc)
                          (generate_content prompt img)]);
        [now autorewrite with state|].
      constructor; [eauto with orchestrator | constructor].
  - destruct img.
    { apply (Hlift _ _ []); [simpl; now rewrite app_nil_r | constructor]. }
    pose proof (generate_request_overrides m prompt cc Hprov) as Hsent.
    destruct (groq_create w _) as [t|e]; simpl.
    + asked_once. eauto with orchestrator.
    + apply (Hlift _ _ [GroqCreate (generate_request m prompt cc)]);
        [now autorewrite with state|].
      constructor; [eauto with orchestrator | constructor].
Qed.

End GenerateLoop.

(** ** The chat loop *)

Section ChatLoop.
Context (w : World) (message : string).

#[local] Abbreviation loop cands chat lastError st :=
  (chat_loop w message cands chat lastError st).

(** The call a Gemini candidate makes on the chat [r] with object [o]. *)
#[local] Abbreviation send r o :=
  (GeminiSend r (modelName o) (chat_generationConfig o) (history o) message).

(** *** Counters *)

Lemma chat_loop_stats_ok cands :
  forall chat lastError st,
    map_Forall (fun _ s => stats_ok s) (modelStats st) ->
    map_Forall (fun _ s => stats_ok s)
      (modelStats (snd (loop cands chat lastError st))).
Proof.
  induction cands as [|m rest IH]; intros chat lastError st Hst; simpl; [exact Hst|].
  destruct (modelStats st !! name m) as [stats|]; [|exact Hst].
  assert (Hatt : map_Forall (fun _ s => stats_ok s)
                   (alter incr_attempts (name m) (modelStats st)))
    by (apply Forall_alter_ok; auto with orchestrator).
  destruct (recently_rate_limited stats _); [now apply IH|].
  destruct (provider m).
  - destruct (resolve_chat _ chat m) as [[r o] st1] eqn:Er.
    apply resolve_chat_spec in Er as (_ & Hms & _). simpl in Hms.
    destruct (gemini_sendMessage w _ _ _ _) as [res|e]; simpl;
      [destruct (response_text res) as [t|e]; simpl; [now rewrite Hms|]|];
      (apply IH; autorewrite with state; simpl; rewrite Hms;
       now apply Forall_failed_ok).
  - destruct (groq_create w _); simpl; [exact Hatt|].
    apply IH. autorewrite with state. simpl. now apply Forall_failed_ok.
Qed.

Lemma chat_loop_dom cands :
  forall chat lastError st,
    dom (modelStats (snd (loop cands chat lastError st))) = dom (modelStats st).
Proof.
  induction cands as [|m rest IH]; intros chat lastError st; simpl; [reflexivity|].
  destruct (modelStats st !! name m) as [stats|]; [|reflexivity].
  destruct (recently_rate_limited stats _); [apply IH|].
  destruct (provider m).
  - destruct (resolve_chat _ chat m) as [[r o] st1] eqn:Er.
    apply resolve_chat_spec in Er as (_ & Hms & _). simpl in Hms.
    destruct (gemini_sendMessage w _ _ _ _) as [res|e]; simpl;
      [destruct (response_text res) as [t|e]; simpl;
       [rewrite Hms; apply dom_alter_L|]|];
      (rewrite IH; autorewrite with state; simpl;
       now rewrite Hms, !dom_alter_L).
  - destruct (groq_create w _); simpl; [apply dom_alter_L|].
    rewrite IH. autorewrite with state. simpl. now rewrite !dom_alter_L.
Qed.

(** *** Traces *)

Lemma chat_loop_calls_app cands :
  forall chat lastError st,
    exists asked,
      calls (snd (loop cands chat lastError st)) = (calls st ++ asked)%list.
Proof.
  induction cands as [|m rest IH]; intros chat lastError st; simpl.
  { exists []. now rewrite app_nil_r. }
  destruct (modelStats st !! name m) as [stats|]; simpl.
  2:{ exists []. now rewrite app_nil_r. }
  destruct (recently_rate_limited stats _); [apply IH|].
  destruct (provider m).
  - destruct (resolve_chat _ chat m) as [[r o] st1] eqn:Er.
    apply resolve_chat_spec in Er as (_ & _ & Hcalls & _). simpl in Hcalls.
    destruct (gemini_sendMessage w _ _ _ _) as [res|e]; simpl;
      [destruct (response_text res) as [t|e]; simpl|].
    + rewrite Hcalls. eauto.
    + destruct (IH (Some r) (Some e)
                  (record_failure w m e
                     (with_objects
                        (insert r (record_turns message (recorded res) o))
                        (log_call (send r o) st1))))
        as (asked & ->).
      autorewrite with state. simpl. rewrite Hcalls, <- app_assoc. eauto.
    + destruct (IH (Some r) (Some e)
                  (record_failure w m e (log_call (send r o) st1)))
        as (asked & ->).
      autorewrite with state. simpl. rewrite Hcalls, <- app_assoc. eauto.
  - destruct (groq_create w _) as [t|e]; simpl; [eauto|].
    destruct (IH chat (Some e)
                (record_failure w m e
                   (log_call (GroqCreate (chat_request m message))
                      (with_stats (alter incr_attempts (name m)) st))))
      as (asked & ->).
    autorewrite with state. simpl. rewrite <- app_assoc. eauto.
Qed.

(** *** Cooldown *)

(** A model that is cooling down is not invoked and its stats object is
    left as it was. *)
Lemma chat_loop_cooling n cands :
  forall chat lastError st s,
    modelStats st !! n = Some s ->
    recently_rate_limited s (now_at_check w n) = true ->
    let st' := snd (loop cands chat lastError st) in
    modelStats st' !! n = Some s
    /\ exists asked, calls st' = (calls st ++ asked)%list
                     /\ Forall (fun c => call_model c <> n) asked.
Proof.
  induction cands as [|m rest IH]; intros chat lastError st s Hs Hcool; simpl.
  { split; [exact Hs | nothing_asked]. }
  destruct (decide (name m = n)) as [Heq|Hne].
  - rewrite Heq, Hs, Hcool. now apply IH.
  - destruct (modelStats st !! name m) as [stats|] eqn:Em; simpl.
    2:{ split; [exact Hs | nothing_asked]. }
    destruct (recently_rate_limited stats _); [now apply IH|].
    assert (Hs1 : alter incr_attempts (name m) (modelStats st) !! n = Some s)
      by now rewrite lookup_alter_ne.
    destruct (provider m).
    + destruct (resolve_chat _ chat m) as [[r o] st1] eqn:Er.
      apply resolve_chat_spec in Er as (Hn & Hms & Hcalls & _).
      simpl in Hms, Hcalls.
      destruct (gemini_sendMessage w _ _ _ _) as [res|e]; simpl;
        [destruct (response_text res) as [t|e]; simpl|].
      * split; [now rewrite Hms|]. rewrite Hcalls.
        asked_once. simpl. congruence.
      * edestruct (IH (Some r) (Some e)) as [Hstats (asked & Hasked & Hall)];
          [| exact Hcool | split; [exact Hstats|]].
        { autorewrite with state. simpl.
          rewrite lookup_alter_ne by exact Hne. rewrite Hms. exact Hs1. }
        rewrite Hasked. autorewrite with state. simpl. rewrite Hcalls.
        eexists (_ :: asked). split; [now rewrite <- app_assoc|].
        constructor; [simpl; congruence | exact Hall].
      * edestruct (IH (Some r) (Some e)) as [Hstats (asked & Hasked & Hall)];
          [| exact Hcool | split; [exact Hstats|]].
        { autorewrite with state. simpl.
          rewrite lookup_alter_ne by exact Hne. rewrite Hms. exact Hs1. }
        rewrite Hasked. autorewrite with state. simpl. rewrite Hcalls.
        eexists (_ :: asked). split; [now rewrite <- app_assoc|].
        constructor; [simpl; congruence | exact Hall].
    + destruct (groq_create w _) as [t|e]; simpl.
      * split; [exact Hs1|]. asked_once. exact Hne.
      * edestruct (IH chat (Some e)) as [Hstats (asked & Hasked & Hall)];
          [| exact Hcool | split; [exact Hstats|]].
        { rewrite lookup_failed_attempt_ne by exact Hne. exact Hs. }
        rewrite Hasked. autorewrite with state. simpl.
        eexists (_ :: asked). split; [now rewrite <- app_assoc|].
        constructor; [exact Hne | exact Hall].
Qed.

(** *** Exhaustion *)

(** When every candidate has its stats object, the only failure is the
    fixed 503 error. *)
Lemma chat_loop_registered_throws cands :
  forall chat lastError st e,
    registered cands st ->
    fst (loop cands chat lastError st) = Throw e -> e = chat_exhausted.
Proof.
  induction cands as [|m rest IH]; intros chat lastError st e Hreg; simpl.
  { now intros [= <-]. }
  apply Forall_cons in Hreg as [[stats Hm] Hreg]. simpl in Hm. rewrite Hm.
  destruct (recently_rate_limited stats _); [now apply IH|].
  pose (k e := failed_stats (now_at_catch w (name m)) e ∘ incr_attempts).
  destruct (provider m).
  - destruct (resolve_chat _ chat m) as [[r o] st1] eqn:Er.
    apply resolve_chat_spec in Er as (_ & Hms & _). simpl in Hms.
    destruct (gemini_sendMessage w _ _ _ _) as [res|e0]; simpl;
      [destruct (response_text res) as [t|e0]; simpl; [discriminate|]|];
      (apply IH, (registered_after_alter (k e0) m rest st); [exact Hreg|];
       autorewrite with state; simpl; now rewrite Hms, alter_alter_eq).
  - destruct (groq_create w _) as [t|e0]; simpl; [discriminate|].
    apply IH, (registered_after_alter (k e0) m rest st); [exact Hreg|].
    autorewrite with state. simpl. now rewrite alter_alter_eq.
Qed.

(** *** Turns served by groq *)

(** A call served by groq returns no chat, keeps the session store, loses
    no chat object it found, and sends groq the request built from the
    system message and the current message. *)
Lemma chat_loop_groq_served cands :
  forall chat lastError st res st',
    loop cands chat lastError st = (Return res, st') ->
    chat_provider res = "groq" ->
    result_chat res = None
    /\ chatSessions st' = chatSessions st
    /\ chats_survive st st'
    /\ exists before c,
         c ∈ cands /\ provider c = groq /\ chat_modelUsed res = name c
         /\ calls st'
            = (calls st ++ before ++ [GroqCreate (chat_request c message)])%list.
Proof.
  induction cands as [|m rest IH]; intros chat lastError st res st'; simpl;
    [discriminate|].
  destruct (modelStats st !! name m) as [stats|]; [|discriminate].
  assert (Hlift : forall chat1 le1 st1 before1,
    chatSessions st1 = chatSessions st ->
    chats_survive st st1 ->
    calls st1 = (calls st ++ before1)%list ->
    loop rest chat1 le1 st1 = (Return res, st') ->
    chat_provider res = "groq" ->
    result_chat res = None
    /\ chatSessions st' = chatSessions st
    /\ chats_survive st st'
    /\ exists before c,
         c ∈ m :: rest /\ provider c = groq /\ chat_modelUsed res = name c
         /\ calls st'
            = (calls st ++ before ++ [GroqCreate (chat_request c message)])%list).
  { intros chat1 le1 st1 before1 Hsess Hobjs Hcalls Hrun Hgroq.
    destruct (IH _ _ _ _ _ Hrun Hgroq)
      as (Hnull & Hsess' & Hobjs' & before & c & Hc & Hp & Hn & Hcalls').
    split; [exact Hnull|]. split; [congruence|].
    split; [now apply (chats_survive_trans st st1 st')|].
    exists (before1 ++ before)%list, c.
    split; [now apply list_elem_of_further|]. split; [exact Hp|].
    split; [exact Hn|].
    rewrite Hcalls', Hcalls. now rewrite <- !app_assoc. }
  destruct (recently_rate_limited stats _).
  { intros Hrun Hgroq.
    apply (Hlift chat lastError st []); rewrite ?app_nil_r;
      auto using chats_survive_refl. }
  destruct (provider m) eqn:Hprov.
  - destruct (resolve_chat _ chat m) as [[r o] st1] eqn:Er.
    pose proof (resolve_chat_objects _ _ _ _ _ _ Er) as Hsub.
    apply resolve_chat_spec in Er as (_ & _ & Hcalls & Hsess & Hr & _).
    simpl in Hcalls, Hsess, Hsub.
    assert (Hst1 : chats_survive st st1) by now apply chats_survive_subseteq.
    destruct (gemini_sendMessage w _ _ _ _) as [sent|e];
      [destruct (response_text sent) as [t|e]|].
    + intros [= <- <-]. discriminate.
    + intros Hrun Hgroq.
      apply (Hlift (Some r) (Some e) _ [send r o]) in Hrun;
        [exact Hrun| | | |exact Hgroq]; autorewrite with state; simpl.
      * exact Hsess.
      * apply (chats_survive_trans st st1); [exact Hst1|].
        apply (chats_survive_record st1 _ r o message (recorded sent));
          [exact Hr | now rewrite chatObjects_record_failure].
      * now rewrite Hcalls.
    + intros Hrun Hgroq.
      apply (Hlift (Some r) (Some e) _ [send r o]) in Hrun;
        [exact Hrun| | | |exact Hgroq]; autorewrite with state; simpl.
      * exact Hsess.
      * apply (chats_survive_trans st st1); [exact Hst1|].
        apply chats_survive_same. now rewrite chatObjects_record_failure.
      * now rewrite Hcalls.
  - destruct (groq_create w _) as [t|e].
    + intros [= <- <-] _. simpl.
      split; [reflexivity|]. split; [reflexivity|].
      split; [now apply chats_survive_same|].
      exists [], m. split; [apply list_elem_of_here|]. auto.
    + intros Hrun Hgroq.
      apply (Hlift chat (Some e) _ [GroqCreate (chat_request m message)]) in Hrun;
        [exact Hrun| | | |exact Hgroq]; autorewrite with state; simpl;
        [reflexivity
        | apply chats_survive_same; now rewrite chatObjects_record_failure
        | reflexivity].
Qed.

(** *** Turns served by Gemini *)

(** A turn served by Gemini is sent either on a chat that holds the
    priming turns only, or on the chat passed to the call, which is then
    bound to the serving model; what the SDK recorded of the exchange is
    in the history of that chat. *)
Lemma chat_loop_gemini_served cands :
  NoDup (map name cands) ->
  forall chat lastError st res st' r,
    loop cands chat lastError st = (Return res, st') ->
    result_chat res = Some r ->
    chat_modelUsed res ∈ map name cands
    /\ exists before cfg h sent,
      calls st'
      = (calls st ++ before
           ++ [GeminiSend r (chat_modelUsed res) cfg h message])%list
      /\ gemini_sendMessage w (chat_modelUsed res) cfg h message = Resolved sent
      /\ response_text sent = Return (reply res)
      /\ chatObjects st' !! r
         = Some {| modelName := chat_modelUsed res;
                   chat_generationConfig := cfg;
                   history := (h ++ turns_of message (recorded sent))%list |}
      /\ (h = initial_history
          \/ (chat = Some r
              /\ exists o, chatObjects st !! r = Some o
                           /\ modelName o = chat_modelUsed res
                           /\ h = history o)).
Proof.
  induction cands as [|m rest IH]; intros Hnd chat lastError st res st' r; simpl;
    [discriminate|].
  simpl in Hnd. apply NoDup_cons in Hnd as [Hm Hnd]. specialize (IH Hnd).
  destruct (modelStats st !! name m) as [stats|]; [|discriminate].
  assert (Hskip : forall le st2 before2,
    calls st2 = (calls st ++ before2)%list ->
    chatObjects st2 = chatObjects st ->
    loop rest chat le st2 = (Return res, st') ->
    result_chat res = Some r ->
    chat_modelUsed res ∈ name m :: map name rest
    /\ exists before cfg h sent,
      calls st'
      = (calls st ++ before
           ++ [GeminiSend r (chat_modelUsed res) cfg h message])%list
      /\ gemini_sendMessage w (chat_modelUsed res) cfg h message = Resolved sent
      /\ response_text sent = Return (reply res)
      /\ chatObjects st' !! r
         = Some {| modelName := chat_modelUsed res;
                   chat_generationConfig := cfg;
                   history := (h ++ turns_of message (recorded sent))%list |}
      /\ (h = initial_history
          \/ (chat = Some r
              /\ exists o, chatObjects st !! r = Some o
                           /\ modelName o = chat_modelUsed res
                           /\ h = history o))).
  { intros le st2 before2 Hcalls2 Hobj2 Hrun Hres.
    destruct (IH _ _ _ _ _ _ Hrun Hres)
      as (Hin & before & cfg & h & sent & Hc & Hsend & Htext & Ho & Hh).
    split; [now apply list_elem_of_further|].
    exists (before2 ++ before)%list, cfg, h, sent.
    split; [rewrite Hc, Hcalls2; now rewrite <- !app_assoc|].
    split; [exact Hsend|]. split; [exact Htext|]. split; [exact Ho|].
    now rewrite Hobj2 in Hh. }
  destruct (recently_rate_limited stats _).
  { apply (Hskip lastError st []); [now rewrite app_nil_r | reflexivity]. }
  destruct (provider m).
  - destruct (resolve_chat _ chat m) as [[r0 o] st1] eqn:Er.
    apply resolve_chat_spec in Er as (Hn & _ & Hcalls & _ & Hlook & Hobj).
    simpl in Hcalls.
    assert (Horigin : history o = initial_history
              \/ (chat = Some r0 /\ chatObjects st !! r0 = Some o)).
    { destruct Hobj as [(Hchat & Hr0 & _)|(_ & -> & _)]; [right|left]; auto. }
    (* after a failed attempt of [m] the local chat is bound to [m], which
       no later candidate is *)
    assert (Hfail : forall e st2,
      calls st2 = (calls st1 ++ [send r0 o])%list ->
      (forall o', chatObjects st2 !! r0 = Some o' -> modelName o' = name m) ->
      loop rest (Some r0) (Some e) (record_failure w m e st2) = (Return res, st') ->
      result_chat res = Some r ->
      chat_modelUsed res ∈ name m :: map name rest
      /\ exists before cfg h sent,
        calls st'
        = (calls st ++ before
             ++ [GeminiSend r (chat_modelUsed res) cfg h message])%list
        /\ gemini_sendMessage w (chat_modelUsed res) cfg h message
           = Resolved sent
        /\ response_text sent = Return (reply res)
        /\ chatObjects st' !! r
           = Some {| modelName := chat_modelUsed res;
                     chat_generationConfig := cfg;
                     history := (h ++ turns_of message (recorded sent))%list |}
        /\ (h = initial_history
            \/ (chat = Some r
                /\ exists o, chatObjects st !! r = Some o
                             /\ modelName o = chat_modelUsed res
                             /\ h = history o))).
    { intros e st2 Hcalls2 Hbound Hrun Hres.
      destruct (IH _ _ _ _ _ _ Hrun Hres)
        as (Hin & before & cfg & h & sent & Hc & Hsend & Htext & Ho & Hh).
      split; [now apply list_elem_of_further|].
      exists (send r0 o :: before), cfg, h, sent.
      split; [rewrite Hc; autorewrite with state; rewrite Hcalls2, Hcalls;
              now rewrite <- app_assoc|].
      split; [exact Hsend|]. split; [exact Htext|]. split; [exact Ho|].
      destruct Hh as [Hh|([= <-] & o' & Ho' & Hmodel & _)]; [now left|].
      autorewrite with state in Ho'.
      exfalso. apply Hm. rewrite <- (Hbound o' Ho'), Hmodel. exact Hin. }
    destruct (gemini_sendMessage w _ _ _ _) as [sent|e] eqn:Esend;
      [destruct (response_text sent) as [t|e] eqn:Etext|].
    + intros [= <- <-] [= <-]. simpl.
      split; [apply list_elem_of_here|].
      exists [], (chat_generationConfig o), (history o), sent.
      split; [now rewrite Hcalls, Hn|].
      split; [now rewrite <- Hn|]. split; [exact Etext|].
      split.
      { rewrite lookup_insert_eq. f_equal.
        destruct (recorded sent); simpl; [now rewrite Hn|].
        destruct o; simpl in *. now rewrite Hn, app_nil_r. }
      destruct Horigin as [Hh|[Hchat Hr0]]; [now left|right].
      split; [exact Hchat|]. exists o. auto.
    + apply Hfail; simpl; [reflexivity|].
      intros o'. rewrite lookup_insert_eq. intros [= <-].
      now rewrite modelName_record_turns.
    + apply Hfail; simpl; [reflexivity|].
      intros o'. rewrite Hlook. now intros [= <-].
  - destruct (groq_create w _) as [t|e]; [intros [= <- <-]; discriminate|].
    apply (Hskip (Some e) _ [GroqCreate (chat_request m message)]);
      autorewrite with state; reflexivity.
Qed.

(** When every candidate before [c] is cooling down and the chat passed
    to the call is bound to the Gemini candidate [c], the message is sent
    on that chat, with its whole history, and what the SDK records of the
    exchange is appended to it. *)
Lemma chat_loop_continues c post r o sent t :
  forall pre lastError st stats,
    Forall (cooling_down w st) pre ->
    modelStats st !! name c = Some stats ->
    recently_rate_limited stats (now_at_check w (name c)) = false ->
    provider c = gemini ->
    chatObjects st !! r = Some o -> modelName o = name c ->
    gemini_sendMessage w (name c) (chat_generationConfig o) (history o) message
    = Resolved sent ->
    response_text sent = Return t ->
    exists st',
      loop (pre ++ c :: post) (Some r) lastError st
      = (Return {| reply := t; result_chat := Some r;
                   chat_modelUsed := name c; chat_provider := "gemini";
                   chat_success := true |}, st')
      /\ calls st' = (calls st ++ [send r o])%list
      /\ chatObjects st' !! r = Some (record_turns message (recorded sent) o).
Proof.
  induction pre as [|m pre IH];
    intros lastError st stats Hpre Hstats Hcool Hprov Ho Hn Hsend Htext.
  - simpl. rewrite Hstats, Hcool, Hprov.
    unfold resolve_chat, bound_chat. simpl. rewrite Ho, Hn, String.eqb_refl.
    rewrite Hn, Hsend, Htext. eexists. split; [reflexivity|]. simpl.
    split; [reflexivity | apply lookup_insert_eq].
  - apply Forall_cons in Hpre as [(sm & Hsm & Hcm) Hpre].
    simpl. rewrite Hsm, Hcm. now apply (IH _ _ stats).
Qed.

End ChatLoop.

(** ** Routes and sequences of calls *)

Lemma respond_generation_state key r : snd (respond_generation key r) = snd r.
Proof. now destruct r as [[result|e] st]. Qed.

Lemma wrapAsync_state r : snd (wrapAsync r) = snd r.
Proof. now destruct r as [[body|e] st]. Qed.

(** A route leaves the stats as they were, or as one call of one of the
    two orchestrator functions leaves them. *)
Lemma handle_modelStats w req st :
  modelStats (snd (handle w req st)) = modelStats st
  \/ (exists prompt cc img,
        modelStats (snd (handle w req st))
        = modelStats (snd (generateWithFallback w prompt cc img st)))
  \/ (exists chat message sessionId,
        modelStats (snd (handle w req st))
        = modelStats (snd (chatWithFallback w chat message sessionId st))).
Proof.
  unfold handle. rewrite wrapAsync_state.
  destruct req as [body|body|body|med|image].
  - unfold api_chat. destruct (missing (body_message body)); [now left|].
    right; right.
    exists (chatSessions st !! default "default" (body_sessionId body)),
      (default "" (body_message body)), (default "default" (body_sessionId body)).
    destruct (chatWithFallback w _ _ _ st) as [[result|e] st']; simpl;
      [now destruct (result_chat result) | reflexivity].
  - unfold api_analyze_symptoms. destruct (missing _); [now left|].
    right; left. rewrite respond_generation_state. eauto.
  - unfold api_summarize_report. destruct (missing _); [now left|].
    right; left. rewrite respond_generation_state. eauto.
  - unfold api_medicine_info. destruct (missing _); [now left|].
    right; left. rewrite respond_generation_state. eauto.
  - unfold api_read_prescription. destruct (missing _); [now left|].
    right; left. rewrite respond_generation_state. eauto.
Qed.

(** A property of the stats that both loops keep, in the worlds that
    satisfy [Q], is kept by every sequence of calls in such worlds. *)
Section Preservation.
Variable Q : World -> Prop.
Variable P : gmap string ModelStats -> Prop.

Hypothesis generate_keeps :
  forall w prompt cc img cands lastError st,
    Q w -> P (modelStats st) ->
    P (modelStats (snd (generate_loop w prompt cc img cands lastError st))).

Hypothesis chat_keeps :
  forall w message cands chat lastError st,
    Q w -> P (modelStats st) ->
    P (modelStats (snd (chat_loop w message cands chat lastError st))).

Lemma run_call_keeps wc st :
  Q (fst wc) -> P (modelStats st) -> P (modelStats (run_call wc st)).
Proof.
  intros Hw Hst.
  destruct wc as [w [prompt cc img|chat message sessionId|req]];
    unfold run_call; simpl in Hw.
  - now apply generate_keeps.
  - now apply chat_keeps.
  - destruct (handle_modelStats w req st)
      as [->|[(prompt & cc & img & ->)|(chat & message & sessionId & ->)]];
      [exact Hst | now apply generate_keeps | now apply chat_keeps].
Qed.

Lemma run_keeps trace :
  Forall (fun wc => Q (fst wc)) trace ->
  forall st, P (modelStats st) -> P (modelStats (run trace st)).
Proof.
  induction 1 as [|wc trace Hwc _ IH]; intros st Hst; [exact Hst|].
  change (run (wc :: trace) st) with (run trace (run_call wc st)).
  now apply IH, run_call_keeps.
Qed.
End Preservation.

Lemma Forall_any_world (trace : list (World * Call)) :
  Forall (fun wc => (fun _ : World => True) (fst wc)) trace.
Proof. apply Forall_forall. intros wc _. exact I. Qed.

Lemma run_stats_ok trace st :
  map_Forall (fun _ s => stats_ok s) (modelStats st) ->
  map_Forall (fun _ s => stats_ok s) (modelStats (run trace st)).
Proof.
  apply (run_keeps (fun _ => True) (map_Forall (fun _ s => stats_ok s))).
  - intros w prompt cc img cands lastError st0 _. apply generate_loop_stats_ok.
  - intros w message cands chat lastError st0 _. apply chat_loop_stats_ok.
  - apply Forall_any_world.
Qed.

(** Every state the server reaches has a stats object for every candidate:
    the loops never meet an undefined [stats]. *)
Lemma run_registered trace : registered MODEL_PRIORITY (run trace init_state).
Proof.
  assert (H : dom (modelStats (run trace init_state)) = dom (modelStats init_state)).
  { apply (run_keeps (fun _ => True)
             (fun ms => dom ms = dom (modelStats init_state))).
    - intros w prompt cc img cands lastError st _ <-. apply generate_loop_dom.
    - intros w message cands chat lastError st _ <-. apply chat_loop_dom.
    - apply Forall_any_world.
    - reflexivity. }
  pose proof init_state_registered as Hinit. unfold registered in *.
  eapply Forall_impl; [exact Hinit|]. intros m Hm. simpl in Hm.
  apply elem_of_dom. rewrite H. now apply elem_of_dom.
Qed.

(** * The properties of the design document *)

(** ** Cooldown skip (C1) *)

(** In every state of the server, the chat path leaves the stats object of
    a model that is cooling down as it was and does not ask that model. *)
Lemma chat_skips_cooling_model w chat message sessionId st n s :
  modelStats st !! n = Some s ->
  recently_rate_limited s (now_at_check w n) = true ->
  let st' := snd (chatWithFallback w chat message sessionId st) in
  modelStats st' !! n = Some s /\ n ∉ models_asked st st'.
Proof.
  intros Hs Hcool st'. subst st'. unfold chatWithFallback.
  destruct (chat_loop_cooling w message n MODEL_PRIORITY chat None st s Hs Hcool)
    as (Hstats & asked & Hasked & Hall).
  split; [exact Hstats|]. unfold models_asked.
  rewrite (new_calls_app _ _ _ Hasked). intros Hin.
  apply list_elem_of_fmap in Hin as (call & -> & Hcall).
  rewrite Forall_forall in Hall. now apply (Hall call Hcall).
Qed.

(** In every state of the server, the plain-generation path counts one
    attempt for the first candidate of the registry when it is cooling
    down. *)
Lemma generate_counts_cooling_first_candidate w prompt cc img st s :
  modelStats st !! flash = Some s ->
  recently_rate_limited s (now_at_check w flash) = true ->
  modelStats (snd (generateWithFallback w prompt cc img st)) !! flash
  = Some (incr_attempts s).
Proof.
  intros Hs Hcool.
  apply (generate_loop_counts_skipped w prompt cc img
           (mkModel flash gemini (gemini_config (8000 # 1)))
           (drop 1 MODEL_PRIORITY) None st s); [|exact Hs|exact Hcool].
  apply (bool_decide_unpack _). vm_compute. exact I.
Qed.

(** C1 (the plain-generation path counts an attempt for a candidate it
    skips).  The first candidate was rate limited at time 1000, so at time
    2000 it is in its cooldown window.  A plain generation at time 2000 does
    not ask it, and yet moves its attempts counter from 1 to 2; a chat at
    time 2000 does not ask it either and leaves the counter at 1. *)
Theorem generate_counts_attempt_of_skipped_candidate :
  modelStats after_rate_limit !! flash
  = Some {| attempts := 1; failures := 1; lastFailure := Some 1000%Z;
            rateLimitHits := 1 |}
  /\ (let st' := snd (generateWithFallback (world_up 2000) "hello" ∅ None
                        after_rate_limit) in
      models_asked after_rate_limit st' = [flash_lite]
      /\ attempts <$> modelStats st' !! flash = Some 2%N)
  /\ (let st' := snd (chatWithFallback (world_up 2000) None "hello" "default"
                        after_rate_limit) in
      models_asked after_rate_limit st' = [flash_lite]
      /\ attempts <$> modelStats st' !! flash = Some 1%N).
Proof. vm_compute. repeat split. Qed.

(** ** Image requests and groq (C2) *)

(** C2 as stated fails: a prescription image request in which the two
    first Gemini models are down passes over the groq candidate, and the
    attempts counter of that candidate goes from 0 to 1. *)
Lemma image_request_counts_groq_attempt :
  let w := world_partial [flash; flash_lite] "fetch failed" 1000 in
  let st' := snd (handle w (PostReadPrescription (Some "data:image/jpeg;base64,AAAA"))
                    init_state) in
  (provider <$> MODEL_PRIORITY !! 2%nat) = Some groq
  /\ (name <$> MODEL_PRIORITY !! 2%nat) = Some llama
  /\ attempts <$> modelStats init_state !! llama = Some 0%N
  /\ attempts <$> modelStats st' !! llama = Some 1%N.
Proof. vm_compute. repeat split. Qed.

(** C2, amended.  For every generate request that carries an image payload
    and every groq candidate, the call does not invoke the candidate and
    records no failure for it: its failures counter, its rateLimitHits
    counter and its lastFailure timestamp are unchanged. *)
Theorem image_request_passes_over_groq (w : World) (prompt : string)
    (customConfig : Config) (images : list Part) (st : State)
    (c : ModelConfig) (s : ModelStats) :
  c ∈ MODEL_PRIORITY ->
  provider c = groq ->
  modelStats st !! name c = Some s ->
  let st' := snd (generateWithFallback w prompt customConfig (Some images) st) in
  (exists s', modelStats st' !! name c = Some s'
              /\ failures s' = failures s
              /\ rateLimitHits s' = rateLimitHits s
              /\ lastFailure s' = lastFailure s)
  /\ Forall (fun call => call_model call <> name c) (new_calls st st').
Proof.
  intros Hc Hgroq Hs st'.
  destruct (generate_loop_passed_over w prompt customConfig (Some images)
              (name c) MODEL_PRIORITY None st s Hs)
    as [(s' & Hs' & Hoa) (asked & Hasked & Hall)].
  - apply Forall_forall. intros m Hm Heq. right.
    rewrite (NoDup_map_name_inj _ m c MODEL_PRIORITY_names_NoDup Hm Hc Heq).
    split; [exact Hgroq | eauto].
  - split.
    + exists s'. destruct Hoa as (H1 & H2 & H3 & _). auto.
    + subst st'. unfold generateWithFallback.
      now rewrite (new_calls_app _ _ _ Hasked).
Qed.

Lemma image_request_passes_over_groq_witness :
  let st' := snd (generateWithFallback (world_down "fetch failed" 1000)
                    prescription_prompt (options (2 # 10) (500 # 1))
                    (Some jpeg) init_state) in
  (exists s', modelStats st' !! llama = Some s'
              /\ failures s' = 0%N /\ rateLimitHits s' = 0%N
              /\ lastFailure s' = None)
  /\ Forall (fun call => call_model call <> llama) (new_calls init_state st').
Proof.
  apply (image_request_passes_over_groq (world_down "fetch failed" 1000)
           prescription_prompt (options (2 # 10) (500 # 1)) jpeg init_state
           (mkModel llama groq groq_config) fresh_stats).
  - vm_compute. do 2 right. left.
  - reflexivity.
  - vm_compute. reflexivity.
Defined.

(** ** Exhaustion (C3) *)

(** C3 (the chat path drops the last provider error).  When every provider
    rejects with "fetch failed", the plain-generation path rejects with a
    503 error whose message embeds "fetch failed"; the chat path rejects
    with a 503 error whose message is the fixed sentence and does not embed
    it. *)
Theorem chat_exhaustion_omits_last_error :
  let w := world_down "fetch failed" 1000 in
  fst (generateWithFallback w "hello" ∅ None init_state)
  = Throw (AppError
             "AI service temporarily unavailable. Please try again in a moment. Last error: fetch failed"
             503)
  /\ (exists e, fst (chatWithFallback w None "hello" "default" init_state) = Throw e
                /\ statusCode e = Some 503%Z
                /\ message e
                   = Some "AI chat temporarily unavailable. Please try again in a moment."
                /\ includes
                     "AI chat temporarily unavailable. Please try again in a moment."
                     "fetch failed" = false)
  /\ fst (handle w (PostChat (mkChatBody (Some "hello") None)) init_state)
     = RenderError 503 "Error"
         (Some "AI chat temporarily unavailable. Please try again in a moment.").
Proof.
  split; [vm_compute; reflexivity|]. split; [|vm_compute; reflexivity].
  eexists. split; [vm_compute; reflexivity|]. vm_compute. repeat split.
Qed.

(** In every reachable state and every world, a chat that fails fails with
    the same fixed 503 error. *)
Lemma chat_failure_is_fixed trace w chat message sessionId e :
  fst (chatWithFallback w chat message sessionId (run trace init_state)) = Throw e ->
  e = chat_exhausted.
Proof.
  rewrite chatWithFallback_eq. apply chat_loop_registered_throws, run_registered.
Qed.

(** In every reachable state and every world, a plain generation that
    fails fails with status 503, and its message carries the most recent
    rejection of a provider during the call. *)
Lemma generate_failure_carries_last_rejection trace w prompt cc img e :
  fst (generateWithFallback w prompt cc img (run trace init_state)) = Throw e ->
  exists asked,
    new_calls (run trace init_state)
      (snd (generateWithFallback w prompt cc img (run trace init_state))) = asked
    /\ e = AppError (exhausted_message (last_rejection w None asked)) 503.
Proof.
  rewrite generateWithFallback_eq. intros Hthrow.
  destruct (generate_loop_exhausted_last w prompt cc img MODEL_PRIORITY None
              (run trace init_state) e (run_registered trace) Hthrow)
    as (asked & Hasked & He).
  exists asked. split; [exact (new_calls_app _ _ _ Hasked) | exact He].
Qed.

(** ** The stats invariant (C4) *)

(** C4. After any sequence of generate and chat calls (direct or through a
    route, each in an arbitrary world of successes, rate-limit failures and
    other failures) started from the initial server state, the stats object
    of every model has [failures <= attempts] and
    [rateLimitHits <= failures]. *)
Theorem stats_invariant_after_any_calls (trace : list (World * Call))
    (n : string) (s : ModelStats) :
  modelStats (run trace init_state) !! n = Some s ->
  (failures s <= attempts s)%N /\ (rateLimitHits s <= failures s)%N.
Proof.
  intros Hn.
  exact (run_stats_ok trace init_state
           (init_modelStats_Forall stats_ok MODEL_PRIORITY stats_ok_fresh) n s Hn).
Qed.

Lemma stats_invariant_after_any_calls_witness :
  let s := {| attempts := 3; failures := 2; lastFailure := Some 1000%Z;
              rateLimitHits := 1 |} in
  (failures s <= attempts s)%N /\ (rateLimitHits s <= failures s)%N.
Proof.
  apply (stats_invariant_after_any_calls
           [ (world_down "429 Too Many Requests" 1000, Generate "hello" ∅ None);
             (world_down "fetch failed" 70000, Chat None "hello" "default");
             (world_up 70001,
              Serve (PostChat (mkChatBody (Some "hello") None))) ]
           "gemini-2.5-flash").
  vm_compute. reflexivity.
Defined.

(** ** First answer (C5) *)

(** C5. Split the registry at a candidate [c] such that no candidate
    before it would answer (each is cooling down, or is a groq candidate
    facing an image, or is rejected by its provider) while [c] is not
    cooling down, can take the request and is answered [t] by its
    provider.  Then generate returns the result of [c], with its text, its
    name and its provider, and asks no candidate placed after [c]. *)
Theorem generate_returns_first_answer (w : World) (prompt : string)
    (customConfig : Config) (imageParts : option (list Part)) (st : State)
    (pre post : list ModelConfig) (c : ModelConfig) (t : string) :
  MODEL_PRIORITY = (pre ++ c :: post)%list ->
  registered MODEL_PRIORITY st ->
  Forall (fun m => candidate_answer w prompt customConfig imageParts st m = None) pre ->
  candidate_answer w prompt customConfig imageParts st c = Some t ->
  let r := generateWithFallback w prompt customConfig imageParts st in
  fst r = Return {| text := t; modelUsed := name c;
                    gen_provider := provider_name (provider c);
                    success := true |}
  /\ Forall (fun call => Forall (fun m => call_model call <> name m) post)
       (new_calls st (snd r)).
Proof.
  intros Hsplit Hreg Hpre Hc r. subst r. unfold generateWithFallback.
  pose proof MODEL_PRIORITY_names_NoDup as Hnd.
  unfold registered in Hreg. rewrite Hsplit in *.
  apply Forall_app in Hreg as [Hreg _].
  destruct (generate_loop_first_answer w prompt customConfig imageParts c post t
              pre None st Hnd Hreg Hpre Hc) as (st' & asked & -> & Hcalls & Hasked).
  split; [reflexivity|]. simpl.
  rewrite (new_calls_app _ _ _ Hcalls).
  eapply Forall_impl; [exact Hasked|]. intros call Hnotin.
  apply Forall_forall. intros m Hm Heq. apply Hnotin. rewrite Heq.
  apply list_elem_of_fmap. eauto.
Qed.

Lemma generate_returns_first_answer_witness :
  let w := world_partial [flash] "429 Too Many Requests" 1000 in
  let r := generateWithFallback w "hello" ∅ None init_state in
  fst r = Return {| text := "gemini answer"; modelUsed := flash_lite;
                    gen_provider := "gemini"; success := true |}
  /\ Forall (fun call =>
               Forall (fun m => call_model call <> name m)
                 (drop 2 MODEL_PRIORITY))
       (new_calls init_state (snd r)).
Proof.
  apply (generate_returns_first_answer
           (world_partial [flash] "429 Too Many Requests" 1000) "hello" ∅ None
           init_state
           [mkModel flash gemini (gemini_config (8000 # 1))]
           (drop 2 MODEL_PRIORITY)
           (mkModel flash_lite gemini (gemini_config (8000 # 1)))
           "gemini answer").
  - reflexivity.
  - apply init_state_registered.
  - constructor; [vm_compute; reflexivity | constructor].
  - vm_compute. reflexivity.
Defined.

(** ** Overrides (C6) *)

(** C6 as stated fails on the groq path: [max_tokens] is a key of the
    default config of the groq candidate and of the overrides below, and
    the value sent is the default 8000, not the override 100. *)
Lemma groq_ignores_max_tokens_override :
  let customConfig : Config := <["max_tokens" := 100 # 1]> ∅ in
  let w := world_partial [flash; flash_lite] "fetch failed" 1000 in
  let r := generateWithFallback w "hello" customConfig None init_state in
  (modelUsed <$> match fst r with Return x => Some x | Throw _ => None end)
  = Some llama
  /\ groq_config !! "max_tokens" = Some (8000 # 1)
  /\ customConfig !! "max_tokens" = Some (100 # 1)
  /\ last (calls (snd r))
     = Some (GroqCreate {| groq_model := llama;
                           groq_messages := [mkMessage "user" "hello"];
                           groq_temperature := Some (7 # 10);
                           groq_max_tokens := Some (8000 # 1) |}).
Proof. vm_compute. repeat split. Qed.

(** The groq path also loses an override that is zero: with
    [{temperature: 0}] groq is sent the default 0.7, where Gemini is
    sent 0. *)
Lemma groq_ignores_zero_temperature :
  let customConfig : Config := <["temperature" := 0 # 1]> ∅ in
  groq_temperature (generate_request (mkModel llama groq groq_config) "hello"
                      customConfig) = Some (7 # 10)
  /\ spread (gemini_config (8000 # 1)) customConfig !! "temperature"
     = Some (0 # 1).
Proof. vm_compute. split; reflexivity. Qed.

(** C6, amended.  Every provider call of a plain generation is made for a
    candidate of the registry and carries the overrides as follows.  On the
    Gemini path the generation config sent is the key-by-key merge: for
    every key the override's value when the overrides have the key, the
    candidate's default otherwise.  On the groq path only [temperature] and
    [max_tokens] are sent: a non-zero override [temperature] is sent as
    [temperature] and a non-zero override [maxOutputTokens] is sent as
    [max_tokens]; when the overrides omit [temperature]
    (resp. [maxOutputTokens]) the candidate's default [temperature]
    (resp. [max_tokens]) is sent. *)
Theorem overrides_reach_provider (w : World) (prompt : string)
    (customConfig : Config) (imageParts : option (list Part)) (st : State) :
  Forall (fun call =>
            exists c, c ∈ MODEL_PRIORITY /\ sent_with_overrides c customConfig call)
    (new_calls st (snd (generateWithFallback w prompt customConfig imageParts st))).
Proof.
  unfold generateWithFallback.
  destruct (generate_loop_overrides w prompt customConfig imageParts
              MODEL_PRIORITY None st) as (asked & Hasked & Hall).
  now rewrite (new_calls_app _ _ _ Hasked).
Qed.

Lemma overrides_reach_provider_witness :
  Forall (fun call =>
            exists c, c ∈ MODEL_PRIORITY
                      /\ sent_with_overrides c (options (3 # 10) (600 # 1)) call)
    (new_calls init_state
       (snd (generateWithFallback
               (world_partial [flash; flash_lite] "fetch failed" 1000) "hello"
               (options (3 # 10) (600 # 1)) None init_state))).
Proof.
  exact (overrides_reach_provider
           (world_partial [flash; flash_lite] "fetch failed" 1000) "hello"
           (options (3 # 10) (600 # 1)) None init_state).
Defined.

(** ** Chat continuation (C8) *)

(** C8 (a turn served by the model of the session can still restart the
    dialogue).  In both turns the first candidate is tried and rejected and
    the second candidate serves.  After the first turn the session is bound
    to the second candidate and holds the priming turns and the first
    exchange.  In the second turn the rejected attempt on the first
    candidate has replaced the local chat, so the serving candidate, the
    very model the session is bound to, is sent the message on a new chat
    that holds the priming turns only; the stored session is replaced and
    the first exchange is lost. *)
Theorem same_model_turn_restarts_dialogue :
  fst (handle flash_down (turn "first") init_state)
  = SendJson 200 [ ("reply", JStr "re: first"); ("success", JBool true);
                   ("sessionId", JStr "s1"); ("modelUsed", JStr flash_lite);
                   ("provider", JStr "gemini") ]
  /\ chatSessions after_turn_one !! "s1" = Some 1%nat
  /\ (modelName <$> chatObjects after_turn_one !! 1%nat) = Some flash_lite
  /\ (history <$> chatObjects after_turn_one !! 1%nat)
     = Some (initial_history ++ exchange "first" "re: first")%list
  /\ fst (handle flash_down (turn "second") after_turn_one)
     = SendJson 200 [ ("reply", JStr "re: second"); ("success", JBool true);
                      ("sessionId", JStr "s1"); ("modelUsed", JStr flash_lite);
                      ("provider", JStr "gemini") ]
  /\ last (calls after_turn_two)
     = Some (GeminiSend 3 flash_lite (gemini_config (8000 # 1)) initial_history
               "second")
  /\ chatSessions after_turn_two !! "s1" = Some 3%nat
  /\ (history <$> chatObjects after_turn_two !! 3%nat)
     = Some (initial_history ++ exchange "second" "re: second")%list.
Proof. vm_compute. repeat split. Qed.

(** When the model that serves the turn is not the one the chat passed to
    the call is bound to, the turn is sent on a chat that starts from the
    priming turns: the earlier dialogue is not sent, and the chat of the
    result holds the priming turns and what the SDK recorded of this
    exchange. *)
Lemma model_switch_starts_from_priming w message sessionId st res st' r r0 o :
  chatWithFallback w (Some r0) message sessionId st = (Return res, st') ->
  result_chat res = Some r ->
  chatObjects st !! r0 = Some o ->
  modelName o <> chat_modelUsed res ->
  exists before cfg sent,
    calls st'
    = (calls st ++ before
         ++ [GeminiSend r (chat_modelUsed res) cfg initial_history message])%list
    /\ gemini_sendMessage w (chat_modelUsed res) cfg initial_history message
       = Resolved sent
    /\ (history <$> chatObjects st' !! r)
       = Some (initial_history ++ turns_of message (recorded sent))%list.
Proof.
  rewrite chatWithFallback_eq. intros Hrun Hres Ho Hne.
  destruct (chat_loop_gemini_served w message _ MODEL_PRIORITY_names_NoDup
              _ _ _ _ _ _ Hrun Hres)
    as (_ & before & cfg & h & sent & Hc & Hsend & _ & Hobj & Hh).
  assert (h = initial_history) as ->.
  { destruct Hh as [Hh|([= <-] & o' & Ho' & Hmodel & _)]; [exact Hh|].
    rewrite Ho in Ho'. injection Ho' as <-. contradiction. }
  exists before, cfg, sent. split; [exact Hc|]. split; [exact Hsend|].
  now rewrite Hobj.
Qed.

(** When the first candidate is not cooling down and the stored chat is
    bound to it, a turn it answers is sent on the stored chat with its
    whole history, and the history grows by what the SDK records of the
    exchange: by the message and the answer when the answer is a plain
    one. *)
Lemma first_candidate_continues_session w message sessionId st stats r o sent t :
  modelStats st !! flash = Some stats ->
  recently_rate_limited stats (now_at_check w flash) = false ->
  chatObjects st !! r = Some o -> modelName o = flash ->
  gemini_sendMessage w flash (chat_generationConfig o) (history o) message
  = Resolved sent ->
  response_text sent = Return t ->
  exists st',
    chatWithFallback w (Some r) message sessionId st
    = (Return {| reply := t; result_chat := Some r; chat_modelUsed := flash;
                 chat_provider := "gemini"; chat_success := true |}, st')
    /\ last (calls st')
       = Some (GeminiSend r flash (chat_generationConfig o) (history o) message)
    /\ (history <$> chatObjects st' !! r)
       = Some (history o ++ turns_of message (recorded sent))%list
    /\ (sent = answered t ->
        (history <$> chatObjects st' !! r)
        = Some (history o ++ exchange message t)%list).
Proof.
  intros Hstats Hwarm Ho Hn Hsend Htext.
  destruct (chat_loop_continues w message
              (mkModel flash gemini (gemini_config (8000 # 1)))
              (drop 1 MODEL_PRIORITY) r o sent t [] None st stats)
    as (st' & Hrun & Hcalls & Hobj); auto.
  exists st'. split; [exact Hrun|].
  rewrite Hcalls, Hobj, last_snoc, Hn. split; [reflexivity|]. simpl.
  rewrite history_record_turns. split; [reflexivity|]. now intros ->.
Qed.

(** ** Invalid requests (C9) *)

(** C9. A request whose required field is missing ([message] for
    [/api/chat], [symptoms] for [/api/analyze-symptoms], [reportText] for
    [/api/summarize-report], [medicineName] for [/api/medicine-info],
    [imageBase64] for [/api/read-prescription]) is answered with status 400
    and the state is the one before the request: no stats object, no
    session and no provider call is touched. *)
Theorem missing_field_rejected (w : World) (req : Request) (st : State) :
  required_field_missing req = true ->
  exists msg, handle w req st = (RenderError 400 "Error" (Some msg), st).
Proof.
  unfold handle.
  destruct req as [body|body|body|med|image]; simpl; intros Hmiss.
  - unfold api_chat. rewrite Hmiss. eauto.
  - unfold api_analyze_symptoms. rewrite Hmiss. eauto.
  - unfold api_summarize_report. rewrite Hmiss. eauto.
  - unfold api_medicine_info. rewrite Hmiss. eauto.
  - unfold api_read_prescription. rewrite Hmiss. eauto.
Qed.

Lemma missing_field_rejected_witness :
  exists msg,
    handle (world_up 1000) (PostChat (mkChatBody None (Some "s1"))) init_state
    = (RenderError 400 "Error" (Some msg), init_state).
Proof.
  apply (missing_field_rejected (world_up 1000)
           (PostChat (mkChatBody None (Some "s1"))) init_state).
  reflexivity.
Defined.

(** ** Chat turns served by groq (C10) *)

(** C10. When a chat turn is served by a groq candidate, the result of
    [chatWithFallback] carries no chat object, the [/api/chat] handler
    leaves the session store as it was (the entry of the session key
    included), every chat object that existed before is still there, bound
    to the same model with the same config and with every turn it held, and
    the groq call that served the turn carries exactly two messages: the
    fixed system message and the current user message. *)
Theorem groq_chat_turn_keeps_session (w : World) (body : ChatBody)
    (st st' : State) (json : Json) :
  api_chat w body st = (Return json, st') ->
  ("provider", JStr "groq") ∈ json ->
  let sessionId := default "default" (body_sessionId body) in
  let message := default "" (body_message body) in
  (exists res,
     chatWithFallback w (chatSessions st !! sessionId) message sessionId st
     = (Return res, st')
     /\ result_chat res = None)
  /\ chatSessions st' = chatSessions st
  /\ chats_survive st st'
  /\ exists before req,
       calls st' = (calls st ++ before ++ [GroqCreate req])%list
       /\ groq_messages req
          = [ mkMessage "system" systemMessage; mkMessage "user" message ].
Proof.
  intros Hrun Hprov. cbv zeta. unfold api_chat in Hrun.
  destruct (missing (body_message body)); [discriminate|].
  destruct (chatWithFallback w _ _ _ st) as [[res|e] st1] eqn:Erun; [|discriminate].
  injection Hrun as <- <-.
  assert (Hgroq : chat_provider res = "groq").
  { repeat (apply elem_of_cons in Hprov as [Hprov|Hprov]; try discriminate).
    - now injection Hprov as <-.
    - now apply elem_of_nil in Hprov. }
  destruct (chat_loop_groq_served w _ _ _ _ _ _ _
              (eq_trans (eq_sym (chatWithFallback_eq _ _ _ _ _)) Erun) Hgroq)
    as (Hnull & Hsess & Hobjs & before & c & _ & _ & _ & Hcalls).
  rewrite Hnull.
  split; [exists res; split; [reflexivity | exact Hnull]|]. split; [exact Hsess|].
  split; [exact Hobjs|].
  exists before, (chat_request c (default "" (body_message body))).
  split; [exact Hcalls | reflexivity].
Qed.

Lemma groq_chat_turn_keeps_session_witness :
  (exists res,
     chatWithFallback (world_partial [flash; flash_lite] "fetch failed" 2000)
       (chatSessions after_first_turn !! "s1") "second" "s1" after_first_turn
     = (Return res,
        snd (api_chat (world_partial [flash; flash_lite] "fetch failed" 2000)
               (mkChatBody (Some "second") (Some "s1")) after_first_turn))
     /\ result_chat res = None)
  /\ chatSessions
       (snd (api_chat (world_partial [flash; flash_lite] "fetch failed" 2000)
               (mkChatBody (Some "second") (Some "s1")) after_first_turn))
     = chatSessions after_first_turn
  /\ chats_survive after_first_turn
       (snd (api_chat (world_partial [flash; flash_lite] "fetch failed" 2000)
               (mkChatBody (Some "second") (Some "s1")) after_first_turn))
  /\ exists before req,
       calls
         (snd (api_chat (world_partial [flash; flash_lite] "fetch failed" 2000)
                 (mkChatBody (Some "second") (Some "s1")) after_first_turn))
       = (calls after_first_turn ++ before ++ [GroqCreate req])%list
       /\ groq_messages req
          = [ mkMessage "system" systemMessage; mkMessage "user" "second" ].
Proof.
  apply (groq_chat_turn_keeps_session
           (world_partial [flash; flash_lite] "fetch failed" 2000)
           (mkChatBody (Some "second") (Some "s1")) after_first_turn
           (snd (api_chat (world_partial [flash; flash_lite] "fetch failed" 2000)
                   (mkChatBody (Some "second") (Some "s1")) after_first_turn))
           [ ("reply", JStr "groq answer"); ("success", JBool true);
             ("sessionId", JStr "s1"); ("modelUsed", JStr llama);
             ("provider", JStr "groq") ]).
  - vm_compute. reflexivity.
  - do 4 apply list_elem_of_further. apply list_elem_of_here.
Defined.

(** The chat object of the session is not frozen by such a turn.  Here
    the session is bound to the first candidate; its [sendMessage] is
    fulfilled and the SDK records the exchange, then reading the text of
    the response throws; the second candidate is rejected and groq serves
    the turn.  The session still refers to the same chat object, which
    now holds the turns of the failed attempt as well. *)
Lemma groq_turn_after_unreadable_response :
  let st' := snd (api_chat unreadable_flash
                    (mkChatBody (Some "second") (Some "s1")) after_first_turn) in
  fst (api_chat unreadable_flash
         (mkChatBody (Some "second") (Some "s1")) after_first_turn)
  = Return [ ("reply", JStr "groq answer"); ("success", JBool true);
             ("sessionId", JStr "s1"); ("modelUsed", JStr llama);
             ("provider", JStr "groq") ]
  /\ chatSessions after_first_turn !! "s1" = Some 0%nat
  /\ chatSessions st' !! "s1" = Some 0%nat
  /\ (history <$> chatObjects after_first_turn !! 0%nat)
     = Some (initial_history ++ exchange "first" "re: first")%list
  /\ (history <$> chatObjects st' !! 0%nat)
     = Some (initial_history ++ exchange "first" "re: first"
               ++ exchange "second" "cut off")%list.
Proof. vm_compute. repeat split. Qed.

(** * Further properties *)

(** ** Substrings *)

Lemma prefix_spec (pat s : string) :
  String.prefix pat s = true <-> exists q, s = pat +:+ q.
Proof.
  revert s. induction pat as [|a pat IH]; intros s.
  - split; [intros _; exists s; reflexivity|]. intros _. now destruct s.
  - destruct s as [|b s]; simpl.
    + split; [discriminate|]. intros [q Hq]. discriminate.
    + destruct (ascii_dec a b) as [->|Hne].
      * rewrite IH. split; intros [q Hq]; exists q.
        -- now subst s.
        -- change (String b pat +:+ q) with (String b (pat +:+ q)) in Hq.
           now injection Hq.
      * split; [discriminate|]. intros [q Hq].
        change (String a pat +:+ q) with (String a (pat +:+ q)) in Hq.
        injection Hq as Hab _. congruence.
Qed.

(** [includes] is the substring test. *)
Lemma includes_spec (s pat : string) :
  includes s pat = true <-> exists p q, s = p +:+ pat +:+ q.
Proof.
  split.
  - induction s as [|a s IH]; rewrite includes_unfold;
      destruct (String.prefix pat _) eqn:Hp.
    + apply prefix_spec in Hp as [q Hq]. exists "", q. exact Hq.
    + discriminate.
    + apply prefix_spec in Hp as [q Hq]. exists "", q. exact Hq.
    + intros H. destruct (IH H) as (p & q & ->). exists (String a p), q. reflexivity.
  - intros (p & q & ->). induction p as [|a p IH].
    + rewrite includes_unfold.
      assert (H : String.prefix pat ("" +:+ pat +:+ q) = true)
        by (apply prefix_spec; eauto).
      now rewrite H.
    + change (String a p +:+ pat +:+ q) with (String a (p +:+ pat +:+ q)).
      rewrite includes_unfold, IH.
      now destruct (String.prefix pat _).
Qed.

Lemma includes_false_cons (a : ascii) (s : string) :
  includes (String a s) "," = false ->
  Ascii.eqb a "," = false /\ includes s "," = false.
Proof.
  rewrite includes_unfold.
  destruct (String.prefix "," (String a s)) eqn:Hp; [discriminate|].
  intros H. split; [|exact H].
  apply Ascii.eqb_neq. intros ->.
  assert (Hc : String.prefix "," (String "," s) = true)
    by (apply prefix_spec; exists s; reflexivity).
  congruence.
Qed.

Lemma append_empty_r (s : string) : s +:+ "" = s.
Proof.
  induction s as [|a s IH]; [reflexivity|].
  change (String a s +:+ "") with (String a (s +:+ "")). now rewrite IH.
Qed.

Lemma split_on_no_comma (s : string) :
  includes s "," = false -> split_on "," s = [s].
Proof.
  induction s as [|a s IH]; [reflexivity|].
  intros H. apply includes_false_cons in H as [Ha Hs].
  simpl. now rewrite Ha, (IH Hs).
Qed.

Lemma split_on_first_comma (pre rest : string) :
  includes pre "," = false ->
  split_on "," (pre +:+ "," +:+ rest) = pre :: split_on "," rest.
Proof.
  induction pre as [|a pre IH]; intros H; [reflexivity|].
  apply includes_false_cons in H as [Ha Hs].
  change (String a pre +:+ "," +:+ rest) with (String a (pre +:+ "," +:+ rest)).
  simpl. now rewrite Ha, (IH Hs).
Qed.

(** X1. The prescription route strips the data-URL prefix: of an image
    string made of a prefix, a comma and the data, with no comma in the
    prefix nor in the data, it keeps the data; what follows a second comma
    is dropped. *)
Theorem base64Data_keeps_the_data (pre data tail : string) :
  includes pre "," = false ->
  includes data "," = false ->
  tail = "" \/ (exists t, tail = "," +:+ t) ->
  base64Data (pre +:+ "," +:+ data +:+ tail) = data.
Proof.
  intros Hpre Hdata Htail. unfold base64Data.
  assert (Hinc : includes (pre +:+ "," +:+ data +:+ tail) "," = true)
    by (apply includes_spec; eauto).
  rewrite Hinc, (split_on_first_comma pre _ Hpre).
  destruct Htail as [->|[t ->]].
  - now rewrite append_empty_r, (split_on_no_comma data Hdata).
  - now rewrite (split_on_first_comma data t Hdata).
Qed.

Lemma base64Data_keeps_the_data_witness :
  base64Data ("data:image/jpeg;base64" +:+ "," +:+ "AAAA" +:+ "") = "AAAA".
Proof.
  apply (base64Data_keeps_the_data "data:image/jpeg;base64" "AAAA" "").
  - reflexivity.
  - reflexivity.
  - left. reflexivity.
Defined.

(** ** The rate-limit test *)

(** X2. An error is classified as a rate limit exactly when its message
    contains one of the five indicators, anywhere in the text and with the
    same case; an error without a message never is. *)
Theorem isRateLimit_iff_indicator (e : JsError) :
  isRateLimit e = true
  <-> exists ind p q, ind ∈ rate_limit_indicators
                      /\ message e = Some (p +:+ ind +:+ q).
Proof.
  unfold isRateLimit, rate_limit_indicators. split.
  - destruct (message e) as [m|]; [|discriminate].
    intros H. repeat (apply orb_true_iff in H as [H|H]);
      apply includes_spec in H as (p & q & ->);
      eexists _, p, q; (split; [|reflexivity]);
      repeat (first [apply list_elem_of_here | apply list_elem_of_further]).
  - intros (ind & p & q & Hind & ->).
    assert (Hinc : includes (p +:+ ind +:+ q) ind = true)
      by (apply includes_spec; eauto).
    repeat (apply elem_of_cons in Hind as [->|Hind]);
      [..|now apply elem_of_nil in Hind];
      rewrite Hinc; repeat rewrite orb_true_r; reflexivity.
Qed.

(** ** Bookkeeping of the failures *)

Lemma count_nil p : count p [] = 0%N.
Proof. reflexivity. Qed.

Lemma count_cons p c asked :
  count p (c :: asked) = ((if p c then 1 else 0) + count p asked)%N.
Proof. unfold count. simpl. destruct (p c); simpl; lia. Qed.

Lemma rejected_of_rejection w c e : rejection w c = Some e -> rejected w c = true.
Proof. unfold rejected. now intros ->. Qed.

Lemma rate_limited_of_rejection w c e :
  rejection w c = Some e -> rate_limited w c = isRateLimit e.
Proof. unfold rate_limited. now intros ->. Qed.

Lemma not_rejected_of_rejection w c :
  rejection w c = None -> rejected w c = false /\ rate_limited w c = false.
Proof. unfold rejected, rate_limited. now intros ->. Qed.

Lemma booked_nil w n s : booked w n [] s s.
Proof.
  unfold booked, failures_of, rate_limits_of. rewrite !count_nil. simpl.
  repeat split; lia.
Qed.

Lemma booked_weaken w n asked s s' :
  booked w n asked (incr_attempts s) s' -> booked w n asked s s'.
Proof.
  intros (H1 & H2 & H3 & H4). simpl in *.
  split; [exact H1 | split; [exact H2 | split; [exact H3 | lia]]].
Qed.

(** A call that is answered. *)
Lemma booked_resolved w n c s :
  rejection w c = None ->
  booked w n [c] s (if made_for n c then incr_attempts s else s).
Proof.
  intros Hc. apply not_rejected_of_rejection in Hc as [Hr Hl].
  unfold booked, failures_of, rate_limits_of.
  rewrite !count_cons, !count_nil, Hr, Hl, !andb_false_r. simpl.
  destruct (made_for n c); simpl;
    (split; [lia | split; [lia | split; [reflexivity | lia]]]).
Qed.

(** A call that is rejected, followed by the calls [asked]. *)
Lemma booked_rejected w n c e asked s s' :
  rejection w c = Some e ->
  booked w n asked
    (if made_for n c then failed_stats (now_at_catch w n) e (incr_attempts s) else s)
    s' ->
  booked w n (c :: asked) s s'.
Proof.
  intros Hc (H1 & H2 & H3 & H4).
  unfold booked, failures_of, rate_limits_of in *.
  rewrite !count_cons, (rejected_of_rejection _ _ _ Hc),
    (rate_limited_of_rejection _ _ _ Hc), andb_true_r.
  rewrite H1, H2, H3. clear H1 H2 H3.
  set (R := count (fun call => made_for n call && rate_limited w call) asked) in *.
  unfold failed_stats in *.
  destruct (made_for n c), (isRateLimit e); simpl in *;
    (split; [lia | split; [lia | split; [| lia]]]);
    try reflexivity;
    destruct (N.ltb_spec 0 R) as [HR|HR];
    try reflexivity;
    try (assert (R = 0%N) as -> by lia; reflexivity);
    destruct (N.ltb_spec 0 (1 + R)) as [H1R|H1R]; try reflexivity; lia.
Qed.

(** The stats object of [n] after a candidate [m] was counted and, maybe,
    rejected. *)
Lemma lookup_attempted m n (ms : gmap string ModelStats) s :
  ms !! n = Some s ->
  alter incr_attempts (name m) ms !! n
  = Some (if String.eqb (name m) n then incr_attempts s else s).
Proof.
  intros Hs. destruct (String.eqb_spec (name m) n) as [->|Hne].
  - now rewrite lookup_alter_eq, Hs.
  - now rewrite lookup_alter_ne.
Qed.

Lemma lookup_failed w m e n st1 (ms : gmap string ModelStats) s :
  modelStats st1 = alter incr_attempts (name m) ms ->
  ms !! n = Some s ->
  modelStats (record_failure w m e st1) !! n
  = Some (if String.eqb (name m) n
          then failed_stats (now_at_catch w n) e (incr_attempts s) else s).
Proof.
  intros Hst1 Hs. rewrite modelStats_record_failure, Hst1.
  destruct (String.eqb_spec (name m) n) as [<-|Hne].
  - now rewrite alter_alter_eq, lookup_alter_eq, Hs.
  - now rewrite !lookup_alter_ne by exact Hne.
Qed.

Section GenerateBooks.
Context (w : World) (prompt : string) (cc : Config).

Lemma generate_loop_booked img n cands :
  forall lastError st s,
    modelStats st !! n = Some s ->
    let st' := snd (generate_loop w prompt cc img cands lastError st) in
    exists s' asked,
      modelStats st' !! n = Some s'
      /\ calls st' = (calls st ++ asked)%list
      /\ booked w n asked s s'.
Proof.
  induction cands as [|m rest IH]; intros lastError st s Hs; simpl.
  { exists s, []. rewrite app_nil_r. auto using booked_nil. }
  destruct (modelStats st !! name m) as [stats|] eqn:Em; simpl.
  2:{ exists s, []. rewrite app_nil_r. auto using booked_nil. }
  pose proof (lookup_attempted m n _ s Hs) as Hatt.
  assert (Hskip : forall le,
    let st' := snd (generate_loop w prompt cc img rest le
                      (with_stats (alter incr_attempts (name m)) st)) in
    exists s' asked,
      modelStats st' !! n = Some s'
      /\ calls st' = (calls st ++ asked)%list
      /\ booked w n asked s s').
  { intros le. destruct (IH le (with_stats (alter incr_attempts (name m)) st) _ Hatt)
      as (s' & asked & Hs' & Hasked & Hb).
    exists s', asked. split; [exact Hs'|]. split; [exact Hasked|].
    destruct (String.eqb (name m) n); [now apply booked_weaken | exact Hb]. }
  assert (Hfail : forall e c,
    call_model c = name m -> rejection w c = Some e ->
    let st' := snd (generate_loop w prompt cc img rest (Some e)
                      (record_failure w m e
                         (log_call c (with_stats (alter incr_attempts (name m)) st)))) in
    exists s' asked,
      modelStats st' !! n = Some s'
      /\ calls st' = (calls st ++ asked)%list
      /\ booked w n asked s s').
  { intros e c Hmodel Hrej.
    destruct (IH (Some e) _ _
                (lookup_failed w m e n
                   (log_call c (with_stats (alter incr_attempts (name m)) st))
                   (modelStats st) s eq_refl Hs))
      as (s' & asked & Hs' & Hasked & Hb).
    exists s', (c :: asked). split; [exact Hs'|].
    split; [rewrite Hasked, calls_record_failure; simpl; now rewrite <- app_assoc|].
    apply (booked_rejected w n c e); [exact Hrej|].
    unfold made_for. now rewrite Hmodel. }
  assert (Hok : forall c,
    call_model c = name m -> rejection w c = None ->
    exists s' asked,
      modelStats (log_call c (with_stats (alter incr_attempts (name m)) st)) !! n
      = Some s'
      /\ calls (log_call c (with_stats (alter incr_attempts (name m)) st))
         = (calls st ++ asked)%list
      /\ booked w n asked s s').
  { intros c Hmodel Hrej. eexists _, [c]. split; [exact Hatt|].
    split; [reflexivity|].
    pose proof (booked_resolved w n c s Hrej) as Hb.
    unfold made_for in Hb. now rewrite Hmodel in Hb. }
  destruct (recently_rate_limited stats _); [apply Hskip|].
  destruct (provider m).
  - destruct (gemini_generateContent w _ _ _) as [t|e] eqn:E; simpl.
    + apply Hok; [reflexivity | simpl; now rewrite E].
    + apply Hfail; [reflexivity | simpl; now rewrite E].
  - destruct img; [apply Hskip|].
    destruct (groq_create w _) as [t|e] eqn:E; simpl.
    + apply Hok; [reflexivity | simpl; now rewrite E].
    + apply Hfail; [reflexivity | simpl; now rewrite E].
Qed.

End GenerateBooks.

Lemma attempts_failed_stats now e s : attempts (failed_stats now e s) = attempts s.
Proof. unfold failed_stats. now destruct (isRateLimit e). Qed.

Lemma attempts_resolved n c s :
  attempts (if made_for n c then incr_attempts s else s)
  = (attempts s + count (made_for n) [c])%N.
Proof.
  rewrite count_cons, count_nil. destruct (made_for n c); simpl; lia.
Qed.

Lemma attempts_rejected now n c e asked s s' :
  attempts s'
  = (attempts (if made_for n c then failed_stats now e (incr_attempts s) else s)
     + count (made_for n) asked)%N ->
  attempts s' = (attempts s + count (made_for n) (c :: asked))%N.
Proof.
  rewrite count_cons. destruct (made_for n c).
  - rewrite attempts_failed_stats. simpl. lia.
  - lia.
Qed.

Section ChatBooks.
Context (w : World) (message : string).

Lemma chat_loop_booked n cands :
  forall chat lastError st s,
    modelStats st !! n = Some s ->
    let st' := snd (chat_loop w message cands chat lastError st) in
    exists s' asked,
      modelStats st' !! n = Some s'
      /\ calls st' = (calls st ++ asked)%list
      /\ booked w n asked s s'
      /\ attempts s' = (attempts s + count (made_for n) asked)%N.
Proof.
  induction cands as [|m rest IH]; intros chat lastError st s Hs; simpl.
  { exists s, []. rewrite app_nil_r, count_nil, N.add_0_r. auto using booked_nil. }
  destruct (modelStats st !! name m) as [stats|] eqn:Em; simpl.
  2:{ exists s, []. rewrite app_nil_r, count_nil, N.add_0_r. auto using booked_nil. }
  destruct (recently_rate_limited stats _); [now apply IH|].
  assert (Hfail : forall e c ch st1,
    call_model c = name m -> rejection w c = Some e ->
    modelStats st1 = alter incr_attempts (name m) (modelStats st) ->
    calls st1 = (calls st ++ [c])%list ->
    let st' := snd (chat_loop w message rest ch (Some e)
                      (record_failure w m e st1)) in
    exists s' asked,
      modelStats st' !! n = Some s'
      /\ calls st' = (calls st ++ asked)%list
      /\ booked w n asked s s'
      /\ attempts s' = (attempts s + count (made_for n) asked)%N).
  { intros e c ch st1 Hmodel Hrej Hms Hcalls.
    destruct (IH ch (Some e) _ _ (lookup_failed w m e n st1 _ s Hms Hs))
      as (s' & asked & Hs' & Hasked & Hb & Ha).
    exists s', (c :: asked). split; [exact Hs'|].
    split.
    { rewrite Hasked, calls_record_failure, Hcalls. now rewrite <- app_assoc. }
    split.
    - apply (booked_rejected w n c e); [exact Hrej|].
      unfold made_for. now rewrite Hmodel.
    - apply (attempts_rejected (now_at_catch w n) n c e).
      unfold made_for. now rewrite Hmodel. }
  assert (Hok : forall c (ms : gmap string ModelStats),
    call_model c = name m -> rejection w c = None ->
    ms = alter incr_attempts (name m) (modelStats st) ->
    exists s' asked,
      ms !! n = Some s'
      /\ (calls st ++ [c])%list = (calls st ++ asked)%list
      /\ booked w n asked s s'
      /\ attempts s' = (attempts s + count (made_for n) asked)%N).
  { intros c ms Hmodel Hrej ->. eexists _, [c].
    split; [apply lookup_attempted, Hs|]. split; [reflexivity|].
    pose proof (booked_resolved w n c s Hrej) as Hb.
    pose proof (attempts_resolved n c s) as Ha.
    unfold made_for in Hb, Ha at 1. rewrite Hmodel in Hb, Ha. now split. }
  destruct (provider m).
  - destruct (resolve_chat _ chat m) as [[r o] st1] eqn:Eres.
    apply resolve_chat_spec in Eres as (Hname & Hms & Hcalls & _).
    simpl in Hms, Hcalls.
    destruct (gemini_sendMessage w _ _ _ _) as [sent|e] eqn:E; simpl;
      [destruct (response_text sent) as [t|e] eqn:E'; simpl|].
    + rewrite Hms, Hcalls.
      apply Hok; [exact Hname | | reflexivity].
      exact (rejection_send_answered _ _ _ _ _ _ _ _ E E').
    + apply (Hfail e (GeminiSend r (modelName o) (chat_generationConfig o)
                        (history o) message) (Some r));
        [exact Hname | | exact Hms | simpl; now rewrite Hcalls].
      exact (rejection_send_unreadable _ _ _ _ _ _ _ _ E E').
    + apply (Hfail e (GeminiSend r (modelName o) (chat_generationConfig o)
                        (history o) message) (Some r));
        [exact Hname | | exact Hms | simpl; now rewrite Hcalls].
      exact (rejection_send_rejected _ _ _ _ _ _ _ E).
  - destruct (groq_create w _) as [t|e] eqn:E; simpl.
    + apply Hok; [reflexivity | simpl; now rewrite E | reflexivity].
    + apply (Hfail e (GroqCreate (chat_request m message)) chat);
        [reflexivity | simpl; now rewrite E | reflexivity | reflexivity].
Qed.

End ChatBooks.

(** ** One step of the server *)

(** What a step does to the stats and to the trace of calls: nothing, or
    what one call of [generateWithFallback] or [chatWithFallback] does. *)
Lemma handle_books w req st :
  let st' := snd (handle w req st) in
  same_books st' st
  \/ (exists prompt cc img,
        same_books st' (snd (generateWithFallback w prompt cc img st)))
  \/ (exists chat message sessionId,
        same_books st' (snd (chatWithFallback w chat message sessionId st))).
Proof.
  unfold handle, same_books. rewrite wrapAsync_state.
  destruct req as [body|body|body|med|image]; simpl.
  - unfold api_chat. destruct (missing (body_message body)); [now left|].
    right; right.
    exists (chatSessions st !! default "default" (body_sessionId body)),
      (default "" (body_message body)), (default "default" (body_sessionId body)).
    destruct (chatWithFallback w _ _ _ st) as [[result|e] st']; simpl;
      [now destruct (result_chat result) | now split].
  - unfold api_analyze_symptoms. destruct (missing _); [now left|].
    right; left. rewrite respond_generation_state. eauto.
  - unfold api_summarize_report. destruct (missing _); [now left|].
    right; left. rewrite respond_generation_state. eauto.
  - unfold api_medicine_info. destruct (missing _); [now left|].
    right; left. rewrite respond_generation_state. eauto.
  - unfold api_read_prescription. destruct (missing _); [now left|].
    right; left. rewrite respond_generation_state. eauto.
Qed.

Lemma run_step_books w step st :
  let st' := run_step (w, step) st in
  same_books st' st
  \/ (exists prompt cc img,
        same_books st' (snd (generateWithFallback w prompt cc img st)))
  \/ (exists chat message sessionId,
        same_books st' (snd (chatWithFallback w chat message sessionId st))).
Proof.
  destruct step as [[prompt cc img|chat message sid|req]|[req|body|sid|]]; simpl.
  - right; left. exists prompt, cc, img. now split.
  - right; right. exists chat, message, sid. now split.
  - apply handle_books.
  - apply handle_books.
  - right; left. rewrite wrapAsync_state. unfold api_diet_plan.
    rewrite respond_generation_state. eexists _, _, _. now split.
  - left. now split.
  - left. now split.
Qed.

Lemma run_step_booked w step st n s :
  modelStats st !! n = Some s ->
  let st' := run_step (w, step) st in
  exists s', modelStats st' !! n = Some s'
             /\ booked w n (new_calls st st') s s'.
Proof.
  intros Hs st'.
  destruct (run_step_books w step st) as [[Hms Hc]|[(p & cc & img & Hms & Hc)
                                                  |(ch & msg & sid & Hms & Hc)]];
    fold st' in Hms, Hc.
  - exists s. rewrite Hms. split; [exact Hs|].
    rewrite (new_calls_app st st' []) by (now rewrite Hc, app_nil_r).
    apply booked_nil.
  - rewrite generateWithFallback_eq in Hms, Hc.
    destruct (generate_loop_booked w p cc img n MODEL_PRIORITY None st s Hs)
      as (s' & asked & Hs' & Hasked & Hb).
    exists s'. rewrite Hms. split; [exact Hs'|].
    rewrite (new_calls_app st st' asked) by (now rewrite Hc). exact Hb.
  - rewrite chatWithFallback_eq in Hms, Hc.
    destruct (chat_loop_booked w msg n MODEL_PRIORITY ch None st s Hs)
      as (s' & asked & Hs' & Hasked & Hb & _).
    exists s'. rewrite Hms. split; [exact Hs'|].
    rewrite (new_calls_app st st' asked) by (now rewrite Hc). exact Hb.
Qed.

(** X3. Whatever the server does in one step (a direct call of the
    orchestrator or a request to an API route), the failure bookkeeping of
    every registered model is exact: [failures] grows by the number of
    rejected calls made for the model in that step, [rateLimitHits] by the
    number of those classified as rate limits, [lastFailure] is the clock
    of the catch block when there was such a rate limit and is left alone
    otherwise, and [attempts] grows at least by the number of calls. *)
Theorem step_books_failures w step st n s :
  modelStats st !! n = Some s ->
  let st' := run_step (w, step) st in
  exists s', modelStats st' !! n = Some s'
             /\ booked w n (new_calls st st') s s'.
Proof. apply run_step_booked. Qed.

Lemma step_books_failures_witness :
  exists s', modelStats (run_step (world_down "429 quota" 5, Direct (Chat None "hi" "default"))
                           init_state) !! flash = Some s'
             /\ booked (world_down "429 quota" 5) flash
                  (new_calls init_state
                     (run_step (world_down "429 quota" 5, Direct (Chat None "hi" "default"))
                        init_state))
                  {| attempts := 0; failures := 0; lastFailure := None;
                     rateLimitHits := 0 |} s'.
Proof.
  apply (step_books_failures (world_down "429 quota" 5)
           (Direct (Chat None "hi" "default")) init_state flash).
  reflexivity.
Defined.

(** X4. On the chat path [attempts] counts exactly the calls: after
    [chatWithFallback] the attempts of every registered model have grown
    by the number of provider calls made for it, a candidate that is
    passed over because it is cooling down is not counted. *)
Theorem chat_attempts_are_calls w chat message sessionId st n s :
  modelStats st !! n = Some s ->
  let st' := snd (chatWithFallback w chat message sessionId st) in
  exists s', modelStats st' !! n = Some s'
             /\ attempts s'
                = (attempts s + count (made_for n) (new_calls st st'))%N.
Proof.
  intros Hs st'. subst st'. rewrite chatWithFallback_eq.
  destruct (chat_loop_booked w message n MODEL_PRIORITY chat None st s Hs)
    as (s' & asked & Hs' & Hasked & _ & Ha).
  exists s'. split; [exact Hs'|]. now rewrite (new_calls_app _ _ asked Hasked).
Qed.

Lemma chat_attempts_are_calls_witness :
  exists s', modelStats (snd (chatWithFallback (world_up 5) None "hi" "default" init_state))
               !! flash = Some s'
             /\ attempts s'
                = (attempts {| attempts := 0; failures := 0; lastFailure := None;
                               rateLimitHits := 0 |}
                   + count (made_for flash)
                       (new_calls init_state
                          (snd (chatWithFallback (world_up 5) None "hi" "default"
                                  init_state))))%N.
Proof.
  apply (chat_attempts_are_calls (world_up 5) None "hi" "default" init_state flash).
  reflexivity.
Defined.

(** X5. The cooldown works: when a step in the world [w1] had a call for
    the model [n] rejected as a rate limit, and the clock of its catch
    block was not 0, then a chat request whose clock reads less than
    60000 ms after that does not ask [n] and leaves its stats as they
    are. *)
Theorem rate_limited_model_rests w1 step st n s w2 chat message sessionId :
  modelStats st !! n = Some s ->
  (0 < rate_limits_of w1 n (new_calls st (run_step (w1, step) st)))%N ->
  now_at_catch w1 n <> 0%Z ->
  (now_at_check w2 n - now_at_catch w1 n < 60000)%Z ->
  let st1 := run_step (w1, step) st in
  let st2 := snd (chatWithFallback w2 chat message sessionId st1) in
  (n ∉ models_asked st1 st2) /\ modelStats st2 !! n = modelStats st1 !! n.
Proof.
  intros Hs Hrl Hclock Hsoon st1 st2.
  destruct (run_step_booked w1 step st n s Hs) as (s1 & Hs1 & _ & _ & Hlast & _).
  fold st1 in Hs1.
  apply N.ltb_lt in Hrl. rewrite Hrl in Hlast.
  assert (Hcool : recently_rate_limited s1 (now_at_check w2 n) = true).
  { unfold recently_rate_limited. rewrite Hlast.
    apply andb_true_intro. split.
    - apply negb_true_iff, Z.eqb_neq, Hclock.
    - now apply Z.ltb_lt. }
  destruct (chat_skips_cooling_model w2 chat message sessionId st1 n s1 Hs1 Hcool)
    as [Hkeep Hnot].
  fold st2 in Hkeep, Hnot. split; [exact Hnot|]. now rewrite Hkeep, Hs1.
Qed.

Lemma rate_limited_model_rests_witness :
  let st1 := run_step (world_partial [flash] "429 Too Many Requests" 1000,
                       Direct (Generate "hello" ∅ None)) init_state in
  let st2 := snd (chatWithFallback (world_up 2000) None "hi" "default" st1) in
  (flash ∉ models_asked st1 st2)
  /\ modelStats st2 !! flash = modelStats st1 !! flash.
Proof.
  apply (rate_limited_model_rests
           (world_partial [flash] "429 Too Many Requests" 1000)
           (Direct (Generate "hello" ∅ None)) init_state flash
           {| attempts := 0; failures := 0; lastFailure := None;
              rateLimitHits := 0 |}
           (world_up 2000) None "hi" "default").
  - reflexivity.
  - vm_compute. reflexivity.
  - discriminate.
  - reflexivity.
Defined.

(** ** The result of a served request *)

Lemma served_skip w m cands asked model prov t :
  served w cands asked model prov t -> served w (m :: cands) asked model prov t.
Proof.
  intros (earlier & call & c & -> & He & Ha & Hm & Hc & Hn & Hp).
  exists earlier, call, c. repeat split; try assumption.
  now apply list_elem_of_further.
Qed.

Lemma served_after_rejected w m cands c e asked model prov t :
  rejection w c = Some e ->
  served w cands asked model prov t ->
  served w (m :: cands) (c :: asked) model prov t.
Proof.
  intros Hrej (earlier & call & c' & -> & He & Ha & Hm & Hc & Hn & Hp).
  exists (c :: earlier), call, c'. repeat split; try assumption.
  - constructor; [now apply (rejected_of_rejection w c e)|exact He].
  - now apply list_elem_of_further.
Qed.

Lemma served_here w m cands c t :
  answer w c = Some t -> call_model c = name m ->
  served w (m :: cands) [c] (name m) (provider_name (provider m)) t.
Proof.
  intros Ha Hm. exists [], c, m. repeat split; try assumption.
  - constructor.
  - apply list_elem_of_here.
Qed.

Section GenerateResult.
Context (w : World) (prompt : string) (cc : Config).

Lemma generate_loop_served img cands :
  forall lastError st res,
    fst (generate_loop w prompt cc img cands lastError st) = Return res ->
    success res = true
    /\ exists asked,
         calls (snd (generate_loop w prompt cc img cands lastError st))
         = (calls st ++ asked)%list
         /\ served w cands asked (modelUsed res) (gen_provider res) (text res).
Proof.
  induction cands as [|m rest IH]; intros lastError st res; simpl; [discriminate|].
  destruct (modelStats st !! name m) as [stats|]; simpl; [|discriminate].
  assert (Hskip : forall le,
    fst (generate_loop w prompt cc img rest le
           (with_stats (alter incr_attempts (name m)) st)) = Return res ->
    success res = true
    /\ exists asked,
         calls (snd (generate_loop w prompt cc img rest le
                       (with_stats (alter incr_attempts (name m)) st)))
         = (calls st ++ asked)%list
         /\ served w (m :: rest) asked (modelUsed res) (gen_provider res) (text res)).
  { intros le Hres. destruct (IH le _ res Hres) as (Hok & asked & Hasked & Hs).
    split; [exact Hok|]. exists asked. split; [exact Hasked|].
    now apply served_skip. }
  assert (Hfail : forall e c,
    rejection w c = Some e ->
    fst (generate_loop w prompt cc img rest (Some e)
           (record_failure w m e
              (log_call c (with_stats (alter incr_attempts (name m)) st))))
    = Return res ->
    success res = true
    /\ exists asked,
         calls (snd (generate_loop w prompt cc img rest (Some e)
                       (record_failure w m e
                          (log_call c
                             (with_stats (alter incr_attempts (name m)) st)))))
         = (calls st ++ asked)%list
         /\ served w (m :: rest) asked (modelUsed res) (gen_provider res) (text res)).
  { intros e c Hrej Hres.
    destruct (IH (Some e) _ res Hres) as (Hok & asked & Hasked & Hs).
    split; [exact Hok|]. exists (c :: asked). split.
    - rewrite Hasked, calls_record_failure. simpl. now rewrite <- app_assoc.
    - now apply (served_after_rejected w m rest c e). }
  destruct (recently_rate_limited stats _); [exact (Hskip lastError)|].
  destruct (provider m) eqn:Ep.
  - destruct (gemini_generateContent w _ _ _) as [t|e] eqn:E; simpl.
    + intros [= <-]. split; [reflexivity|]. eexists [_]. split; [reflexivity|].
      simpl. pose proof (served_here w m rest
        (GeminiGenerate (name m) (spread (config m) cc)
           (generate_content prompt img)) t) as H.
      rewrite Ep in H. apply H; [simpl; now rewrite E | reflexivity].
    + apply (Hfail e (GeminiGenerate (name m) (spread (config m) cc)
                        (generate_content prompt img))).
      simpl. now rewrite E.
  - destruct img; [exact (Hskip lastError)|].
    destruct (groq_create w _) as [t|e] eqn:E; simpl.
    + intros [= <-]. split; [reflexivity|]. eexists [_]. split; [reflexivity|].
      simpl. pose proof (served_here w m rest
        (GroqCreate (generate_request m prompt cc)) (or_str t "")) as H.
      rewrite Ep in H. apply H; [simpl; now rewrite E | reflexivity].
    + apply (Hfail e (GroqCreate (generate_request m prompt cc))).
      simpl. now rewrite E.
Qed.

End GenerateResult.

Section ChatResult.
Context (w : World) (message : string).

Lemma chat_loop_served cands :
  forall chat lastError st res,
    fst (chat_loop w message cands chat lastError st) = Return res ->
    chat_success res = true
    /\ exists asked,
         calls (snd (chat_loop w message cands chat lastError st))
         = (calls st ++ asked)%list
         /\ served w cands asked (chat_modelUsed res) (chat_provider res)
              (reply res)
         /\ match result_chat res with
            | Some r => exists cfg h,
                          last asked
                          = Some (GeminiSend r (chat_modelUsed res) cfg h message)
            | None => exists req, last asked = Some (GroqCreate req)
            end.
Proof.
  induction cands as [|m rest IH]; intros chat lastError st res; simpl;
    [discriminate|].
  destruct (modelStats st !! name m) as [stats|]; simpl; [|discriminate].
  destruct (recently_rate_limited stats _).
  { intros Hres. destruct (IH chat lastError st res Hres)
      as (Hok & asked & Hasked & Hs & Hl).
    split; [exact Hok|]. exists asked. split; [exact Hasked|].
    split; [now apply served_skip | exact Hl]. }
  assert (Hfail : forall e c ch st1,
    rejection w c = Some e ->
    calls st1 = (calls st ++ [c])%list ->
    fst (chat_loop w message rest ch (Some e) (record_failure w m e st1))
    = Return res ->
    chat_success res = true
    /\ exists asked,
         calls (snd (chat_loop w message rest ch (Some e)
                       (record_failure w m e st1)))
         = (calls st ++ asked)%list
         /\ served w (m :: rest) asked (chat_modelUsed res) (chat_provider res)
              (reply res)
         /\ match result_chat res with
            | Some r => exists cfg h,
                          last asked
                          = Some (GeminiSend r (chat_modelUsed res) cfg h message)
            | None => exists req, last asked = Some (GroqCreate req)
            end).
  { intros e c ch st1 Hrej Hcalls Hres.
    destruct (IH ch (Some e) _ res Hres) as (Hok & asked & Hasked & Hs & Hl).
    split; [exact Hok|]. exists (c :: asked). split.
    { rewrite Hasked, calls_record_failure, Hcalls. now rewrite <- app_assoc. }
    split; [now apply (served_after_rejected w m rest c e)|].
    destruct Hs as (earlier & call & _ & -> & _).
    rewrite app_comm_cons, last_snoc. rewrite last_snoc in Hl. exact Hl. }
  destruct (provider m) eqn:Ep.
  - destruct (resolve_chat _ chat m) as [[r o] st1] eqn:Eres.
    apply resolve_chat_spec in Eres as (Hname & Hms & Hcalls & _).
    simpl in Hcalls.
    destruct (gemini_sendMessage w _ _ _ _) as [sent|e] eqn:E; simpl;
      [destruct (response_text sent) as [t|e] eqn:E'; simpl|].
    + intros [= <-]. split; [reflexivity|]. eexists [_].
      split; [now rewrite Hcalls|]. simpl. split.
      * pose proof (served_here w m rest
          (GeminiSend r (modelName o) (chat_generationConfig o) (history o)
             message) t) as H.
        rewrite Ep in H. apply H; [|exact Hname].
        simpl. unfold send_outcome. now rewrite E, E'.
      * rewrite <- Hname. eauto.
    + apply (Hfail e (GeminiSend r (modelName o) (chat_generationConfig o)
                        (history o) message) (Some r));
        [exact (rejection_send_unreadable _ _ _ _ _ _ _ _ E E')
        | simpl; now rewrite Hcalls].
    + apply (Hfail e (GeminiSend r (modelName o) (chat_generationConfig o)
                        (history o) message) (Some r));
        [exact (rejection_send_rejected _ _ _ _ _ _ _ E)
        | simpl; now rewrite Hcalls].
  - destruct (groq_create w _) as [t|e] eqn:E; simpl.
    + intros [= <-]. split; [reflexivity|]. eexists [_]. split; [reflexivity|].
      simpl. split; [|eauto].
      pose proof (served_here w m rest
        (GroqCreate (chat_request m message)) (or_str t "")) as H.
      rewrite Ep in H. apply H; [simpl; now rewrite E | reflexivity].
    + apply (Hfail e (GroqCreate (chat_request m message)) chat);
        [simpl; now rewrite E | reflexivity].
Qed.

End ChatResult.

(** X6. A result of [generateWithFallback] is the answer to the last
    provider call of that request: the call was made for a candidate of
    the registry, the result carries the text the provider answered (an
    empty string for an absent groq content), the name of that candidate
    and the name of its provider, [success] is true, and every call made
    before it in that request was rejected. *)
Theorem generate_result_is_last_answer w prompt customConfig imageParts st res :
  fst (generateWithFallback w prompt customConfig imageParts st) = Return res ->
  let st' := snd (generateWithFallback w prompt customConfig imageParts st) in
  success res = true
  /\ served w MODEL_PRIORITY (new_calls st st') (modelUsed res)
       (gen_provider res) (text res).
Proof.
  rewrite generateWithFallback_eq. intros Hres.
  destruct (generate_loop_served w prompt customConfig imageParts
              MODEL_PRIORITY None st res Hres) as (Hok & asked & Hasked & Hs).
  split; [exact Hok|]. now rewrite (new_calls_app _ _ asked Hasked).
Qed.

Lemma generate_result_is_last_answer_witness :
  let w := world_partial [flash] "fetch failed" 1000 in
  let st' := snd (generateWithFallback w "hello" ∅ None init_state) in
  true = true
  /\ served w MODEL_PRIORITY (new_calls init_state st') flash_lite "gemini"
       "gemini answer".
Proof.
  apply (generate_result_is_last_answer
           (world_partial [flash] "fetch failed" 1000) "hello" ∅ None init_state
           {| text := "gemini answer"; modelUsed := flash_lite;
              gen_provider := "gemini"; success := true |}).
  vm_compute. reflexivity.
Defined.

(** X7. A result of [chatWithFallback] is the answer to the last provider
    call of that request, made for a candidate of the registry whose name
    and provider the result carries; every call before it was rejected.
    The result carries a chat object exactly when that last call was a
    Gemini [sendMessage], and then it is the chat object the message was
    sent on. *)
Theorem chat_result_is_last_answer w chat message sessionId st res :
  fst (chatWithFallback w chat message sessionId st) = Return res ->
  let st' := snd (chatWithFallback w chat message sessionId st) in
  chat_success res = true
  /\ served w MODEL_PRIORITY (new_calls st st') (chat_modelUsed res)
       (chat_provider res) (reply res)
  /\ match result_chat res with
     | Some r => exists cfg h,
                   last (new_calls st st')
                   = Some (GeminiSend r (chat_modelUsed res) cfg h message)
     | None => exists req, last (new_calls st st') = Some (GroqCreate req)
     end.
Proof.
  rewrite chatWithFallback_eq. intros Hres.
  destruct (chat_loop_served w message MODEL_PRIORITY chat None st res Hres)
    as (Hok & asked & Hasked & Hs & Hl).
  split; [exact Hok|]. rewrite (new_calls_app _ _ asked Hasked). now split.
Qed.

Lemma chat_result_is_last_answer_witness :
  let w := world_partial [flash] "fetch failed" 1000 in
  let st' := snd (chatWithFallback w None "hi" "default" init_state) in
  true = true
  /\ served w MODEL_PRIORITY (new_calls init_state st') flash_lite "gemini"
       "re: hi"
  /\ exists cfg h,
       last (new_calls init_state st')
       = Some (GeminiSend 1 flash_lite cfg h "hi").
Proof.
  apply (chat_result_is_last_answer
           (world_partial [flash] "fetch failed" 1000) None "hi" "default"
           init_state
           {| reply := "re: hi"; result_chat := Some 1%nat;
              chat_modelUsed := flash_lite; chat_provider := "gemini";
              chat_success := true |}).
  vm_compute. reflexivity.
Defined.

(** ** The states the server reaches *)

Lemma run_server_cons ws trace st :
  run_server (ws :: trace) st = run_server trace (run_step ws st).
Proof. reflexivity. Qed.

Lemma run_server_snoc trace ws st :
  run_server (trace ++ [ws]) st = run_step ws (run_server trace st).
Proof. unfold run_server. now rewrite foldl_app. Qed.

Lemma run_step_dom ws st :
  dom (modelStats (run_step ws st)) = dom (modelStats st).
Proof.
  destruct ws as [w step].
  destruct (run_step_books w step st)
    as [[-> _]|[(p & cc & img & -> & _)|(ch & msg & sid & -> & _)]].
  - reflexivity.
  - rewrite generateWithFallback_eq. apply generate_loop_dom.
  - rewrite chatWithFallback_eq. apply chat_loop_dom.
Qed.

Lemma run_server_dom trace :
  forall st, dom (modelStats (run_server trace st)) = dom (modelStats st).
Proof.
  induction trace as [|ws trace IH]; intros st; [reflexivity|].
  rewrite run_server_cons, IH. apply run_step_dom.
Qed.

Lemma run_server_registered trace :
  registered MODEL_PRIORITY (run_server trace init_state).
Proof.
  pose proof init_state_registered as Hinit. unfold registered in *.
  eapply Forall_impl; [exact Hinit|]. intros m Hm. simpl in Hm.
  apply elem_of_dom. rewrite run_server_dom. now apply elem_of_dom.
Qed.

(** ** The status of the answers *)

Lemma generation_status key w prompt cc img st :
  registered MODEL_PRIORITY st ->
  let r := fst (wrapAsync (respond_generation key
                             (generateWithFallback w prompt cc img st))) in
  status r = 200%Z \/ status r = 503%Z.
Proof.
  intros Hreg. rewrite generateWithFallback_eq.
  pose proof (generate_loop_exhausted_last w prompt cc img MODEL_PRIORITY None st)
    as Hex.
  destruct (generate_loop w prompt cc img MODEL_PRIORITY None st)
    as [[res|e] st'] eqn:E; simpl.
  - now left.
  - destruct (Hex e Hreg eq_refl) as (asked & _ & ->). now right.
Qed.

Lemma chat_status w body st :
  registered MODEL_PRIORITY st ->
  let r := fst (wrapAsync (api_chat w body st)) in
  status r = 200%Z \/ status r = 400%Z \/ status r = 503%Z.
Proof.
  intros Hreg. unfold api_chat.
  destruct (missing (body_message body)); [right; now left|].
  rewrite chatWithFallback_eq.
  pose proof (chat_loop_registered_throws w (default "" (body_message body))
                MODEL_PRIORITY
                (chatSessions st !! default "default" (body_sessionId body))
                None st) as Hex.
  destruct (chat_loop w _ MODEL_PRIORITY _ None st) as [[res|e] st'] eqn:E; simpl.
  - now left.
  - rewrite (Hex e Hreg eq_refl). right; now right.
Qed.

Lemma api_status_registered w req st :
  registered MODEL_PRIORITY st ->
  let r := fst (api w req st) in
  status r = 200%Z \/ status r = 400%Z \/ status r = 503%Z.
Proof.
  intros Hreg.
  assert (Hgen : forall a b : Prop, a \/ b -> a \/ False \/ b) by tauto.
  assert (Hgen' : forall key prompt cc img,
    let r := fst (wrapAsync (respond_generation key
                               (generateWithFallback w prompt cc img st))) in
    status r = 200%Z \/ status r = 400%Z \/ status r = 503%Z).
  { intros key prompt cc img.
    destruct (generation_status key w prompt cc img st Hreg) as [H|H];
      [now left | right; now right]. }
  destruct req as [[body|body|body|med|image]|body|sid|]; simpl.
  - now apply chat_status.
  - unfold handle, api_analyze_symptoms.
    destruct (missing _); [right; now left | apply Hgen'].
  - unfold handle, api_summarize_report.
    destruct (missing _); [right; now left | apply Hgen'].
  - unfold handle, api_medicine_info.
    destruct (missing _); [right; now left | apply Hgen'].
  - unfold handle, api_read_prescription.
    destruct (missing _); [right; now left | apply Hgen'].
  - apply Hgen'.
  - now left.
  - now left.
Qed.

(** X8. In every state the server reaches from its start, the two
    orchestrator functions fail in one way only: [generateWithFallback]
    throws nothing but an operational error with status 503, and
    [chatWithFallback] nothing but its fixed 503 error; the loops always
    find a stats object, so the [TypeError] of an undefined [stats] never
    occurs.  Hence a request whose body fields are strings or absent,
    which is what the modelled requests are, is answered 200, 400 or 503
    by every modelled API route.  (A body field of another JSON type is
    outside this statement: a number as [imageBase64] passes the check of
    the prescription route and fails at [imageBase64.includes], which the
    error middleware answers with 500.) *)
Theorem orchestrator_fails_only_with_503 trace w :
  (forall prompt customConfig imageParts e,
     fst (generateWithFallback w prompt customConfig imageParts
            (run_server trace init_state)) = Throw e ->
     statusCode e = Some 503%Z /\ isOperational e = true)
  /\ (forall chat message sessionId e,
        fst (chatWithFallback w chat message sessionId
               (run_server trace init_state)) = Throw e ->
        e = chat_exhausted)
  /\ (forall req,
        status (fst (api w req (run_server trace init_state))) = 200%Z
        \/ status (fst (api w req (run_server trace init_state))) = 400%Z
        \/ status (fst (api w req (run_server trace init_state))) = 503%Z).
Proof.
  pose proof (run_server_registered trace) as Hreg.
  split; [|split].
  - intros prompt customConfig imageParts e. rewrite generateWithFallback_eq.
    intros Hthrow.
    destruct (generate_loop_exhausted_last w prompt customConfig imageParts
                MODEL_PRIORITY None (run_server trace init_state) e Hreg Hthrow)
      as (asked & _ & ->).
    now split.
  - intros chat message sessionId e. rewrite chatWithFallback_eq.
    now apply chat_loop_registered_throws.
  - intros req. now apply api_status_registered.
Qed.

(** ** The chat store *)

Section GenerateStore.
Context (w : World) (prompt : string) (cc : Config).

Lemma generate_loop_store img cands :
  forall lastError st,
    let st' := snd (generate_loop w prompt cc img cands lastError st) in
    chatSessions st' = chatSessions st /\ chatObjects st' = chatObjects st.
Proof.
  induction cands as [|m rest IH]; intros lastError st; simpl; [now split|].
  destruct (modelStats st !! name m) as [stats|]; simpl; [|now split].
  destruct (recently_rate_limited stats _);
    [exact (IH lastError (with_stats (alter incr_attempts (name m)) st))|].
  destruct (provider m).
  - destruct (gemini_generateContent w _ _ _) as [t|e]; simpl; [now split|].
    destruct (IH (Some e)
                (record_failure w m e
                   (log_call (GeminiGenerate (name m) (spread (config m) cc)
                                (generate_content prompt img))
                      (with_stats (alter incr_attempts (name m)) st))))
      as [-> ->].
    now rewrite chatSessions_record_failure, chatObjects_record_failure.
  - destruct img;
      [exact (IH lastError (with_stats (alter incr_attempts (name m)) st))|].
    destruct (groq_create w _) as [t|e]; simpl; [now split|].
    destruct (IH (Some e)
                (record_failure w m e
                   (log_call (GroqCreate (generate_request m prompt cc))
                      (with_stats (alter incr_attempts (name m)) st))))
      as [-> ->].
    now rewrite chatSessions_record_failure, chatObjects_record_failure.
Qed.

End GenerateStore.

Lemma generation_step_store w step st :
  generation_step step = true ->
  let st' := run_step (w, step) st in
  chatSessions st' = chatSessions st /\ chatObjects st' = chatObjects st.
Proof.
  assert (Hgen : forall key prompt cc img,
    let st' := snd (wrapAsync (respond_generation key
                                 (generateWithFallback w prompt cc img st))) in
    chatSessions st' = chatSessions st /\ chatObjects st' = chatObjects st).
  { intros key prompt cc img.
    rewrite wrapAsync_state, respond_generation_state, generateWithFallback_eq.
    apply generate_loop_store. }
  destruct step as [[prompt cc img|chat message sid|[b|b|b|b|b]]
                   |[[b|b|b|b|b]|body|sid|]]; simpl; try discriminate; intros _.
  - rewrite generateWithFallback_eq. apply generate_loop_store.
  - unfold handle, api_analyze_symptoms.
    destruct (missing _); [now split | apply Hgen].
  - unfold handle, api_summarize_report.
    destruct (missing _); [now split | apply Hgen].
  - unfold handle, api_medicine_info.
    destruct (missing _); [now split | apply Hgen].
  - unfold handle, api_read_prescription.
    destruct (missing _); [now split | apply Hgen].
  - unfold handle, api_analyze_symptoms.
    destruct (missing _); [now split | apply Hgen].
  - unfold handle, api_summarize_report.
    destruct (missing _); [now split | apply Hgen].
  - unfold handle, api_medicine_info.
    destruct (missing _); [now split | apply Hgen].
  - unfold handle, api_read_prescription.
    destruct (missing _); [now split | apply Hgen].
  - apply Hgen.
Qed.

(** X9. Generating text never touches the chats: a direct call of
    [generateWithFallback] and a request to one of the generation routes
    (symptoms, report, medicine, prescription, diet plan), served or
    failed, leave the session store and every chat object as they were. *)
Theorem generation_keeps_chats w step st :
  generation_step step = true ->
  let st' := run_step (w, step) st in
  chatSessions st' = chatSessions st /\ chatObjects st' = chatObjects st.
Proof. apply generation_step_store. Qed.

Lemma generation_keeps_chats_witness :
  let st' := run_step (world_up 2000,
                       Route (PostDietPlan (mkDietBody None None None)))
               after_first_turn in
  chatSessions st' = chatSessions after_first_turn
  /\ chatObjects st' = chatObjects after_first_turn.
Proof.
  apply (generation_keeps_chats (world_up 2000)
           (Route (PostDietPlan (mkDietBody None None None))) after_first_turn).
  reflexivity.
Defined.

(** ** Chat objects and sessions *)

Lemma chat_ok_startChat m :
  m ∈ MODEL_PRIORITY -> provider m = gemini -> chat_ok (startChat m).
Proof.
  intros Hm Hp. split; [reflexivity|]. exists m. now repeat split.
Qed.

Lemma chat_ok_record_turns message turn o :
  chat_ok o -> chat_ok (record_turns message turn o).
Proof.
  intros [Hpre Hc]. split.
  - rewrite history_record_turns. now apply prefix_app_r.
  - now rewrite modelName_record_turns, config_record_turns.
Qed.

Lemma chat_store_kept_refl chat st : chat_store_kept chat st st.
Proof.
  split; [reflexivity|]. split; [intros k H; exact H|].
  split; [intros k _ _; reflexivity | intros H; exact H].
Qed.

(** The store after the block that binds the chat of a Gemini candidate. *)
Lemma resolve_chat_store st chat m r o st1 :
  m ∈ MODEL_PRIORITY -> provider m = gemini ->
  resolve_chat st chat m = (r, o, st1) ->
  chatObjects st1 !! r = Some o
  /\ (chat = Some r \/ chatObjects st !! r = None)
  /\ (map_Forall (fun _ o => chat_ok o) (chatObjects st) -> chat_ok o)
  /\ chat_store_kept chat st st1
  /\ (forall k, k <> r -> chatObjects st1 !! k = chatObjects st !! k).
Proof.
  intros Hm Hp Hres.
  pose proof (resolve_chat_objects _ _ _ _ _ _ Hres) as Hsub.
  apply resolve_chat_spec in Hres
    as (Hname & Hms & Hcalls & Hsess & Hr & [(-> & Ho & ->)|(Hb & -> & Hnew & Hobj)]).
  - split; [exact Hr|]. split; [now left|].
    split; [intros Hok; exact (Hok r o Ho)|].
    split; [apply chat_store_kept_refl | reflexivity].
  - split; [exact Hr|]. split; [now right|].
    split; [intros _; now apply chat_ok_startChat|].
    split; [|intros k Hk; rewrite Hobj; now apply lookup_insert_ne].
    split; [exact Hsess|]. split.
    { intros k [x Hx]. exists x. exact (lookup_weaken _ _ _ _ Hx Hsub). }
    split.
    { intros k _ [x Hx]. rewrite Hobj. apply lookup_insert_ne.
      intros <-. congruence. }
    intros Hok. rewrite Hobj. apply map_Forall_insert_2; [|exact Hok].
    now apply chat_ok_startChat.
Qed.

(** Two states with the same store. *)
Lemma chat_store_kept_same chat st st' :
  chatSessions st' = chatSessions st -> chatObjects st' = chatObjects st ->
  chat_store_kept chat st st'.
Proof.
  intros Hs Ho. unfold chat_store_kept. rewrite Hs, Ho.
  split; [reflexivity|]. split; [intros k H; exact H|].
  split; [intros k _ _; reflexivity | intros H; exact H].
Qed.

Lemma chat_store_kept_trans chat st1 st2 st3 :
  chat_store_kept chat st1 st2 -> chat_store_kept chat st2 st3 ->
  chat_store_kept chat st1 st3.
Proof.
  intros (Hs & Hd & Ho & Hok) (Hs' & Hd' & Ho' & Hok').
  split; [congruence|]. split; [intros k Hk; now apply Hd', Hd|].
  split; [|intros H; now apply Hok', Hok].
  intros k Hk Hx. rewrite Ho'; [now apply Ho | exact Hk | now apply Hd].
Qed.

(** The local chat has become [r], which is the chat the request started
    on or a chat object made since. *)
Lemma chat_store_kept_step chat st st1 r st' :
  chat_store_kept chat st st1 ->
  chat = Some r \/ chatObjects st !! r = None ->
  chat_store_kept (Some r) st1 st' ->
  chat_store_kept chat st st'.
Proof.
  intros (Hs & Hd & Ho & Hok) Hfrom (Hs' & Hd' & Ho' & Hok').
  split; [congruence|]. split; [intros k Hk; now apply Hd', Hd|].
  split; [|intros H; now apply Hok', Hok].
  intros k Hk Hx. rewrite Ho'; [now apply Ho | | now apply Hd].
  intros [= ->]. destruct Hx as [x Hx].
  destruct Hfrom as [->|Hnone]; congruence.
Qed.

Lemma result_ref_ok_step chat st st1 r st' r' :
  chat_store_kept chat st st1 ->
  chat = Some r \/ chatObjects st !! r = None ->
  result_ref_ok (Some r) st1 st' r' ->
  result_ref_ok chat st st' r'.
Proof.
  intros (_ & Hd & _) Hfrom [Hin Hwhere]. split; [exact Hin|].
  destruct Hwhere as [[= <-]|Hnone]; [exact Hfrom|].
  right. destruct (chatObjects st !! r') eqn:Er'; [|reflexivity].
  destruct (Hd r' (mk_is_Some _ _ Er')) as [x Hx]. congruence.
Qed.

(** A fulfilled send on the chat [r]. *)
Lemma chat_store_kept_record st st' r o message turn :
  chatObjects st !! r = Some o ->
  chatSessions st' = chatSessions st ->
  chatObjects st' = <[r := record_turns message turn o]> (chatObjects st) ->
  chat_store_kept (Some r) st st'.
Proof.
  intros Hr Hs Ho. unfold chat_store_kept. rewrite Hs, Ho.
  split; [reflexivity|]. split.
  { intros k Hk. destruct (decide (k = r)) as [->|Hne].
    - rewrite lookup_insert_eq. eauto.
    - now rewrite lookup_insert_ne by congruence. }
  split.
  { intros k Hk _. apply lookup_insert_ne. congruence. }
  intros Hall. apply map_Forall_insert_2; [|exact Hall].
  apply chat_ok_record_turns. exact (Hall r o Hr).
Qed.

Section ChatStore.
Context (w : World) (message : string).

Lemma chat_loop_store cands :
  (forall m, m ∈ cands -> m ∈ MODEL_PRIORITY) ->
  forall chat lastError st,
    let out := chat_loop w message cands chat lastError st in
    chat_store_kept chat st (snd out)
    /\ forall res r, fst out = Return res -> result_chat res = Some r ->
                     result_ref_ok chat st (snd out) r.
Proof.
  induction cands as [|m rest IH]; intros Hcands chat lastError st; simpl.
  { split; [apply chat_store_kept_refl | discriminate]. }
  assert (Hm : m ∈ MODEL_PRIORITY) by apply Hcands, list_elem_of_here.
  assert (Hrest : forall c, c ∈ rest -> c ∈ MODEL_PRIORITY)
    by (intros c Hc; now apply Hcands, list_elem_of_further).
  specialize (IH Hrest).
  destruct (modelStats st !! name m) as [stats|]; simpl.
  2:{ split; [apply chat_store_kept_refl | discriminate]. }
  destruct (recently_rate_limited stats _); [apply IH|].
  (* a failed attempt that leaves the store [st2] and the local chat [r] *)
  assert (Hfail : forall e r st2,
    chat_store_kept chat st st2 ->
    chat = Some r \/ chatObjects st !! r = None ->
    let out := chat_loop w message rest (Some r) (Some e)
                 (record_failure w m e st2) in
    chat_store_kept chat st (snd out)
    /\ forall res r', fst out = Return res -> result_chat res = Some r' ->
                      result_ref_ok chat st (snd out) r').
  { intros e r st2 Hkept Hfrom.
    destruct (IH (Some r) (Some e) (record_failure w m e st2)) as [Hk' Hres'].
    assert (Hk2 : chat_store_kept chat st (record_failure w m e st2)).
    { apply (chat_store_kept_trans chat st st2); [exact Hkept|].
      apply chat_store_kept_same;
        [apply chatSessions_record_failure | apply chatObjects_record_failure]. }
    split.
    - exact (chat_store_kept_step chat st _ r _ Hk2 Hfrom Hk').
    - intros res r' Hret Hchat.
      exact (result_ref_ok_step chat st _ r _ r' Hk2 Hfrom
               (Hres' res r' Hret Hchat)). }
  destruct (provider m) eqn:Ep.
  - destruct (resolve_chat _ chat m) as [[r o] st1] eqn:Eres.
    apply (resolve_chat_store _ _ _ _ _ _ Hm Ep) in Eres
      as (Hr & Hfrom & Hok_o & Hkept1 & Hne).
    simpl in Hfrom.
    assert (Hkept1' : chat_store_kept chat st st1) by exact Hkept1.
    (* the store after a fulfilled send *)
    assert (Hsent : forall turn,
      chat_store_kept chat st
        (with_objects (insert r (record_turns message turn o))
           (log_call (GeminiSend r (modelName o) (chat_generationConfig o)
                        (history o) message) st1))).
    { intros turn.
      apply (chat_store_kept_step chat st st1 r); [exact Hkept1' | exact Hfrom|].
      now apply (chat_store_kept_record st1 _ r o message turn). }
    destruct (gemini_sendMessage w _ _ _ _) as [sent|e] eqn:E; simpl;
      [destruct (response_text sent) as [t|e] eqn:E'; simpl|].
    + split; [apply Hsent|].
      intros res r' [= <-] [= <-]. split; [|exact Hfrom]. simpl.
      rewrite lookup_insert_eq. eauto.
    + apply Hfail; [apply Hsent | exact Hfrom].
    + apply Hfail; [|exact Hfrom].
      apply (chat_store_kept_trans chat st st1); [exact Hkept1'|].
      now apply chat_store_kept_same.
  - destruct (groq_create w _) as [t|e] eqn:E; simpl.
    + split; [exact (chat_store_kept_refl chat st)|].
      intros res r [= <-] H. discriminate H.
    + set (st2 := record_failure w m e _).
      assert (Hobj2 : chatObjects st2 = chatObjects st)
        by (unfold st2; now rewrite chatObjects_record_failure).
      assert (Hsess2 : chatSessions st2 = chatSessions st)
        by (unfold st2; now rewrite chatSessions_record_failure).
      destruct (IH chat (Some e) st2) as (Hkept & Hres').
      unfold chat_store_kept, result_ref_ok in *.
      rewrite Hobj2, Hsess2 in Hkept. rewrite Hobj2 in Hres'.
      split; [exact Hkept | exact Hres'].
Qed.

End ChatStore.

(** ** Sessions *)

Lemma store_ok_init : store_ok init_state.
Proof.
  split; [apply map_Forall_empty|]. split.
  - intros k r H. simpl in H. now rewrite lookup_empty in H.
  - intros k1 k2 r H. simpl in H. now rewrite lookup_empty in H.
Qed.

Lemma store_ok_same st st' :
  chatSessions st' = chatSessions st -> chatObjects st' = chatObjects st ->
  store_ok st -> store_ok st'.
Proof. unfold store_ok. now intros -> ->. Qed.

(** A chat request that returns keeps the store in order, whatever chat it
    starts on, as long as the sessions are not written. *)
Lemma store_ok_kept chat st st' :
  chat_store_kept chat st st' -> store_ok st -> store_ok st'.
Proof.
  intros (Hs & Hd & _ & Hok) (Hall & Href & Hinj). unfold store_ok.
  rewrite Hs. split; [now apply Hok|]. split; [|exact Hinj].
  intros k r Hk. apply Hd. now apply (Href k).
Qed.

Lemma api_chat_store w body st :
  store_ok st ->
  let st' := snd (api_chat w body st) in
  store_ok st'
  /\ (forall k, k <> session_key body ->
                chatSessions st' !! k = chatSessions st !! k)
  /\ (forall k r, k <> session_key body -> chatSessions st !! k = Some r ->
                  chatObjects st' !! r = chatObjects st !! r).
Proof.
  intros Hst. unfold api_chat, session_key.
  set (sid := default "default" (body_sessionId body)).
  destruct (missing (body_message body));
    [simpl; split; [exact Hst | split; intros; reflexivity]|].
  rewrite chatWithFallback_eq.
  destruct (chat_loop_store w (default "" (body_message body)) MODEL_PRIORITY
              (fun m H => H) (chatSessions st !! sid) None st) as [Hkept Hres].
  pose proof (store_ok_kept _ _ _ Hkept Hst) as Hst1.
  destruct Hkept as (Hs & Hd & Ho & Hok).
  destruct Hst as (Hall & Href & Hinj).
  assert (Hothers : forall k r, k <> sid -> chatSessions st !! k = Some r ->
    chatObjects
      (snd (chat_loop w (default "" (body_message body)) MODEL_PRIORITY
              (chatSessions st !! sid) None st)) !! r
    = chatObjects st !! r).
  { intros k r Hk Hkr. apply Ho; [|now apply (Href k)].
    intros Heq. apply Hk. symmetry in Heq. exact (Hinj k sid r Hkr Heq). }
  destruct (chat_loop w _ MODEL_PRIORITY _ None st) as [[res|e] st1];
    simpl in Hres, Hst1, Hs, Hd, Ho, Hok, Hothers |- *.
  2:{ split; [exact Hst1|]. split; [intros k _; now rewrite Hs | exact Hothers]. }
  destruct (result_chat res) as [r|] eqn:Er; simpl.
  2:{ split; [exact Hst1|]. split; [intros k _; now rewrite Hs | exact Hothers]. }
  destruct (Hres res r eq_refl Er) as [Hin Hfrom].
  split; [|split; [intros k Hk; now rewrite lookup_insert_ne, Hs by congruence
                  | exact Hothers]].
  destruct Hst1 as (Hall1 & Href1 & Hinj1). unfold store_ok. simpl.
  split; [exact Hall1|].
  assert (Hnew : forall k, k <> sid -> chatSessions st1 !! k = Some r -> False).
  { intros k Hk Hkr. rewrite Hs in Hkr.
    destruct Hfrom as [Hfrom|Hnone].
    - apply Hk. exact (Hinj k sid r Hkr Hfrom).
    - destruct (Href k r Hkr) as [x Hx]. congruence. }
  split.
  - intros k r' Hk. destruct (decide (k = sid)) as [->|Hne].
    + rewrite lookup_insert_eq in Hk. now injection Hk as <-.
    + rewrite lookup_insert_ne in Hk by congruence. now apply (Href1 k).
  - intros k1 k2 r' H1 H2.
    destruct (decide (k1 = sid)) as [->|Hne1], (decide (k2 = sid)) as [->|Hne2];
      [reflexivity | | |].
    + rewrite lookup_insert_eq in H1. injection H1 as <-.
      rewrite lookup_insert_ne in H2 by congruence.
      destruct (Hnew k2 Hne2 H2).
    + rewrite lookup_insert_eq in H2. injection H2 as <-.
      rewrite lookup_insert_ne in H1 by congruence.
      destruct (Hnew k1 Hne1 H1).
    + rewrite lookup_insert_ne in H1, H2 by congruence.
      exact (Hinj1 k1 k2 r' H1 H2).
Qed.

Lemma store_ok_forget (f : gmap string nat -> gmap string nat) st :
  (forall k r, f (chatSessions st) !! k = Some r -> chatSessions st !! k = Some r) ->
  store_ok st -> store_ok (with_sessions f st).
Proof.
  intros Hf (Hall & Href & Hinj). unfold store_ok. simpl.
  split; [exact Hall|]. split.
  - intros k r Hk. apply (Href k), Hf, Hk.
  - intros k1 k2 r H1 H2. exact (Hinj k1 k2 r (Hf _ _ H1) (Hf _ _ H2)).
Qed.

Lemma run_step_store_ok ws st : store_ok st -> store_ok (run_step ws st).
Proof.
  intros Hst. destruct ws as [w step].
  destruct (generation_step step) eqn:Hgen.
  { destruct (generation_step_store w step st Hgen) as [Hs Ho].
    now apply (store_ok_same st). }
  destruct step as [[prompt cc img|chat message sid|[b|b|b|b|b]]
                   |[[b|b|b|b|b]|body|sid|]]; try discriminate Hgen; simpl.
  - rewrite chatWithFallback_eq.
    destruct (chat_loop_store w message MODEL_PRIORITY (fun m H => H) chat None st)
      as [Hkept _].
    exact (store_ok_kept _ _ _ Hkept Hst).
  - unfold handle. rewrite wrapAsync_state. now apply api_chat_store.
  - unfold handle. rewrite wrapAsync_state. now apply api_chat_store.
  - apply store_ok_forget; [|exact Hst].
    intros k r Hk. now apply lookup_delete_Some in Hk as [_ Hk].
  - apply store_ok_forget; [|exact Hst].
    intros k r Hk. now rewrite lookup_empty in Hk.
Qed.

Lemma run_server_store_ok trace : forall st, store_ok st -> store_ok (run_server trace st).
Proof.
  induction trace as [|ws trace IH]; intros st Hst; [exact Hst|].
  rewrite run_server_cons. now apply IH, run_step_store_ok.
Qed.

(** X10. In every state the server reaches from its start, the session
    store and the chat objects fit together: every session refers to a
    chat object, no two sessions share a chat object, and every chat
    object is bound to a Gemini candidate of the registry, carries the
    config of that candidate and has a history that starts with the two
    priming turns. *)
Theorem sessions_are_consistent trace : store_ok (run_server trace init_state).
Proof. apply run_server_store_ok, store_ok_init. Qed.

(** X11. A chat turn is confined to its session: in every state the
    server reaches, a request to [/api/chat] leaves the entry of every
    other session key as it was, and the chat object of every other
    session with the same history. *)
Theorem chat_turn_leaves_other_sessions trace w body k :
  k <> session_key body ->
  let st := run_server trace init_state in
  let st' := snd (api w (AiRoute (PostChat body)) st) in
  chatSessions st' !! k = chatSessions st !! k
  /\ forall r, chatSessions st !! k = Some r ->
               chatObjects st' !! r = chatObjects st !! r.
Proof.
  intros Hk. simpl. unfold handle. rewrite wrapAsync_state.
  destruct (api_chat_store w body (run_server trace init_state)
              (run_server_store_ok trace init_state store_ok_init))
    as (_ & Hsess & Hobj).
  split; [now apply Hsess|]. intros r. now apply Hobj.
Qed.

Lemma chat_turn_leaves_other_sessions_witness :
  let st := run_server
              [ (world_up 1000,
                 Route (AiRoute (PostChat (mkChatBody (Some "first") (Some "s1"))))) ]
              init_state in
  let st' := snd (api (world_up 2000)
                    (AiRoute (PostChat (mkChatBody (Some "hello") (Some "s2")))) st) in
  chatSessions st' !! "s1" = chatSessions st !! "s1"
  /\ forall r, chatSessions st !! "s1" = Some r ->
               chatObjects st' !! r = chatObjects st !! r.
Proof.
  apply (chat_turn_leaves_other_sessions
           [ (world_up 1000,
              Route (AiRoute (PostChat (mkChatBody (Some "first") (Some "s1"))))) ]
           (world_up 2000) (mkChatBody (Some "hello") (Some "s2")) "s1").
  discriminate.
Defined.

(** ** A session that starts over *)

Section ChatPrimed.
Context (w : World) (message : string).


End ChatPrimed.

Lemma api_chat_calls w body st :
  calls (snd (api_chat w body st))
  = calls (snd (chatWithFallback w (chatSessions st !! session_key body)
                  (default "" (body_message body)) (session_key body) st))
  \/ calls (snd (api_chat w body st)) = calls st.
Proof.
  unfold api_chat, session_key.
  destruct (missing (body_message body)); [now right|]. left.
  destruct (chatWithFallback w _ _ _ st) as [[res|e] st1]; [|reflexivity].
  simpl. now destruct (result_chat res).
Qed.




(** ** Accounts *)

Lemma missing_false field :
  missing field = false -> field = Some (default "" field).
Proof. destruct field as [s|]; [reflexivity | discriminate]. Qed.

Lemma findOne_Some email users u :
  findOne email users = Some u -> u ∈ users /\ User.email u = email.
Proof.
  unfold findOne. intros H. apply find_some in H as [Hin Heq].
  split; [now apply list_elem_of_In | now apply String.eqb_eq].
Qed.

Lemma findOne_None email users :
  findOne email users = None -> email ∉ map User.email users.
Proof.
  unfold findOne. intros H Hin.
  apply list_elem_of_fmap in Hin as (u & -> & Hu).
  apply list_elem_of_In in Hu.
  pose proof (find_none _ _ H u Hu) as Hne. simpl in Hne.
  now rewrite String.eqb_refl in Hne.
Qed.

Lemma findOne_new email users u :
  findOne email users = None -> User.email u = email ->
  findOne email (users ++ [u])%list = Some u.
Proof.
  unfold findOne. intros Hnone Hu. induction users as [|x users IH]; simpl in *.
  - now rewrite Hu, String.eqb_refl.
  - destruct (String.eqb (User.email x) email); [discriminate | now apply IH].
Qed.

(** What a signup that redirects has done. *)
Lemma signup_Return db body users session loc users' session' :
  signup db body users session = (Return loc, (users', session')) ->
  exists u,
    users' = (users ++ [u])%list /\ session' = log_in u /\ loc = "/"
    /\ findOne (User.email u) users = None
    /\ signup_name body = Some (User.name u)
    /\ signup_email body = Some (User.email u)
    /\ signup_password body = Some (User.password u)
    /\ missing (signup_email body) = false
    /\ missing (signup_password body) = false.
Proof.
  unfold signup.
  destruct (missing (signup_name body)) eqn:Hn; [discriminate|].
  destruct (missing (signup_email body)) eqn:He; [discriminate|].
  destruct (missing (signup_password body)) eqn:Hp; [discriminate|]. simpl.
  destruct (findOne_rejects db); [discriminate|].
  destruct (findOne _ users) eqn:Hfind; [discriminate|].
  destruct (save_rejects db); [discriminate|].
  intros [= <- <- <-]. eexists. split; [reflexivity|]. simpl.
  repeat split; auto using missing_false.
Qed.

Lemma signup_users db body users session :
  let users' := fst (snd (signup db body users session)) in
  users' = users
  \/ exists u, users' = (users ++ [u])%list /\ findOne (User.email u) users = None.
Proof.
  destruct (signup db body users session) as [[loc|e] [users' session']] eqn:E.
  - apply signup_Return in E as (u & -> & _ & _ & Hnone & _). right. eauto.
  - left. unfold signup in E.
    destruct (_ || _); [now injection E as _ <- _|].
    destruct (findOne_rejects db); [now injection E as _ <- _|].
    destruct (findOne _ users); [now injection E as _ <- _|].
    destruct (save_rejects db); [now injection E as _ <- _ | discriminate].
Qed.

Lemma account_users req users session :
  let users' := fst (snd (account req users session)) in
  users' = users
  \/ exists u, users' = (users ++ [u])%list /\ findOne (User.email u) users = None.
Proof.
  destruct req as [db body|db body|failed]; simpl.
  - unfold post_signup.
    pose proof (signup_users db body users session) as H.
    destruct (signup db body users session) as [[loc|e] [users' session']];
      exact H.
  - left. now destruct (post_login db body users session).
  - left. now destruct (get_logout failed session).
Qed.

(** X13. The account routes keep the accounts in order: whatever requests
    arrive at [/signup], [/login] and [/logout], one after the other, no
    two accounts get the same email, and the accounts that existed are
    still there, unchanged and in the same order. *)
Theorem accounts_stay_distinct trace users :
  NoDup (map User.email users) ->
  NoDup (map User.email (run_accounts trace users))
  /\ users `prefix_of` run_accounts trace users.
Proof.
  revert users.
  induction trace as [|[req session] trace IH]; intros users Hnodup.
  { split; [exact Hnodup | reflexivity]. }
  change (run_accounts ((req, session) :: trace) users)
    with (run_accounts trace (fst (snd (account req users session)))).
  destruct (account_users req users session) as [-> | (u & -> & Hnone)].
  - now apply IH.
  - destruct (IH (users ++ [u])%list) as [Hn Hp].
    + rewrite map_app. apply NoDup_app. split; [exact Hnodup|].
      split; [|apply NoDup_singleton].
      intros e He Hin. apply list_elem_of_singleton in Hin as ->.
      now apply (findOne_None _ _ Hnone).
    + split; [exact Hn|]. etransitivity; [|exact Hp]. now apply prefix_app_r.
Qed.

Lemma accounts_stay_distinct_witness :
  NoDup (map User.email
           (run_accounts [ (PostSignup (db_up 1) alice, Session.empty);
                           (PostSignup (db_up 2) alice, Session.empty) ] []))
  /\ [] `prefix_of`
       run_accounts [ (PostSignup (db_up 1) alice, Session.empty);
                      (PostSignup (db_up 2) alice, Session.empty) ] [].
Proof.
  apply (accounts_stay_distinct
           [ (PostSignup (db_up 1) alice, Session.empty);
             (PostSignup (db_up 2) alice, Session.empty) ] []).
  constructor.
Defined.

(** X14. Who has signed up can log in: when [/signup] redirects, a
    [/login] with the same email and password on the accounts it left,
    with the database answering, redirects to "/" and writes into the
    session what the signup wrote, whatever that session held. *)
Theorem signup_then_login db body users session loc users' session' db' other :
  signup db body users session = (Return loc, (users', session')) ->
  findOne_rejects db' = None ->
  login db'
    (mkLoginBody (BStr <$> signup_email body) (BStr <$> signup_password body))
    users' other
  = (Return "/", session').
Proof.
  intros Hsignup Hup.
  apply signup_Return in Hsignup
    as (u & -> & -> & _ & Hnone & _ & He & Hp & Hme & Hmp).
  unfold login. simpl. rewrite He, Hp in *. simpl in *.
  rewrite Hme, Hmp, Hup. simpl.
  rewrite (findOne_new (User.email u) users u Hnone eq_refl).
  now rewrite String.eqb_refl.
Qed.

Lemma signup_then_login_witness :
  login (db_up 2)
    (mkLoginBody (BStr <$> signup_email alice) (BStr <$> signup_password alice))
    ([] ++ [alice_account]) Session.empty
  = (Return "/", log_in alice_account).
Proof.
  apply (signup_then_login (db_up 1) alice [] Session.empty "/"
           ([] ++ [alice_account]) (log_in alice_account) (db_up 2)
           Session.empty); reflexivity.
Defined.

(** The user that the [email] of a request selects. *)
Lemma findOne_by_Some db email users u :
  findOne_by db email users = Some u ->
  u ∈ users
  /\ match email with
     | Some (BStr e) => User.email u = e
     | Some v => selects db v u = true
     | None => False
     end.
Proof.
  assert (Hfind : forall v, List.find (selects db v) users = Some u ->
                            u ∈ users /\ selects db v u = true).
  { intros v H. apply find_some in H as [Hin Hsel].
    split; [now apply list_elem_of_In | exact Hsel]. }
  destruct email as [[e|q|b| |items|fields]|]; simpl;
    [apply findOne_Some | apply Hfind .. | discriminate].
Qed.

Lemma same_password_true password stored :
  same_password password stored = true -> password = Some (BStr stored).
Proof.
  destruct password as [[p|q|b| |items|fields]|]; simpl; try discriminate.
  now intros ->%String.eqb_eq.
Qed.

Lemma login_Return db body users session loc session' :
  login db body users session = (Return loc, session') ->
  loc = "/"
  /\ exists u, u ∈ users
               /\ login_password body = Some (BStr (User.password u))
               /\ session' = log_in u
               /\ match login_email body with
                  | Some (BStr e) => User.email u = e
                  | Some v => selects db v u = true
                  | None => False
                  end.
Proof.
  unfold login.
  destruct (missing_value (login_email body) || missing_value (login_password body));
    [discriminate|].
  destruct (findOne_rejects db); [discriminate|].
  destruct (findOne_by db (login_email body) users) as [u|] eqn:Hfind;
    [|discriminate].
  destruct (same_password _ (User.password u)) eqn:Hpw; [|discriminate].
  intros [= <- <-].
  apply findOne_by_Some in Hfind as [Hin Hemail].
  apply same_password_true in Hpw.
  split; [reflexivity|]. exists u. auto.
Qed.

Lemma login_Throw db body users session e session' :
  login db body users session = (Throw e, session') -> session' = session.
Proof.
  unfold login.
  destruct (_ || _); [now intros [= _ <-]|].
  destruct (findOne_rejects db); [now intros [= _ <-]|].
  destruct (findOne_by db _ users) as [u|]; [|now intros [= _ <-]].
  destruct (same_password _ (User.password u));
    [discriminate | now intros [= _ <-]].
Qed.

(** X15. [/login] lets in only who gives the password of the account the
    request singles out, whatever JSON values the body holds: when it
    redirects, the accounts hold a user whose password is exactly the
    password of the request, which is a string; that user is the one the
    email of the request selects, the user with exactly that email when
    the email is a string, and a user the database selects by the filter
    when the email is any other value (a query operator object, say);
    the session is the one of that user.  When it throws, the session is
    as it was. *)
Theorem login_is_sound db body users session :
  match login db body users session with
  | (Return loc, session') =>
      loc = "/"
      /\ exists u, u ∈ users
                   /\ login_password body = Some (BStr (User.password u))
                   /\ session' = log_in u
                   /\ match login_email body with
                      | Some (BStr e) => User.email u = e
                      | Some v => selects db v u = true
                      | None => False
                      end
  | (Throw _, session') => session' = session
  end.
Proof.
  destruct (login db body users session) as [[loc|e] session'] eqn:E.
  - now apply (login_Return db body users session).
  - now apply (login_Throw db body users session e).
Qed.

(** The two cases of the email.  With her email and her password Alice is
    let in; with her password and a query operator in the place of the
    email, on a database that honours it, the request is let in as Alice
    without naming her; a password that is not a string is refused. *)
Lemma login_by_email_and_by_operator :
  login (db_operators 2)
    (mkLoginBody (Some (BStr "alice@example.org")) (Some (BStr "s3cret")))
    [alice_account] Session.empty
  = (Return "/", log_in alice_account)
  /\ login (db_operators 2)
       (mkLoginBody (Some (BObj [("$ne", BNull)])) (Some (BStr "s3cret")))
       [alice_account] Session.empty
     = (Return "/", log_in alice_account)
  /\ login (db_operators 2)
       (mkLoginBody (Some (BStr "alice@example.org"))
          (Some (BObj [("$ne", BNull)])))
       [alice_account] Session.empty
     = (Throw invalid_credentials, Session.empty).
Proof. repeat split. Qed.

(** X16. A login opens the API and a logout closes it: with the session
    that a redirecting [/login] leaves, every API route runs its handler
    and the home page is the main page; once [/logout] has destroyed
    that session, every API route redirects to [/login] without touching
    the server state, so without any provider call, and the home page is
    the welcome page. *)
Theorem login_opens_logout_closes db body users session loc session' :
  login db body users session = (Return loc, session') ->
  get_home session' = Render "main"
  /\ get_home (snd (get_logout false session')) = Render "welcome"
  /\ forall w req st,
       mounted_api w session' req st
       = (Sent (fst (api w req st)), snd (api w req st))
       /\ mounted_api w (snd (get_logout false session')) req st
          = (Redirect "/login", st).
Proof.
  intros Hlogin.
  apply login_Return in Hlogin as (_ & u & _ & _ & -> & _).
  split; [reflexivity|]. split; [reflexivity|]. intros w req st.
  split; [|reflexivity].
  unfold mounted_api, requireLogin. simpl. now destruct (api w req st).
Qed.

Lemma login_opens_logout_closes_witness :
  get_home (log_in alice_account) = Render "main"
  /\ get_home (snd (get_logout false (log_in alice_account))) = Render "welcome"
  /\ forall w req st,
       mounted_api w (log_in alice_account) req st
       = (Sent (fst (api w req st)), snd (api w req st))
       /\ mounted_api w (snd (get_logout false (log_in alice_account))) req st
          = (Redirect "/login", st).
Proof.
  apply (login_opens_logout_closes (db_up 2)
           (mkLoginBody (Some (BStr "alice@example.org")) (Some (BStr "s3cret")))
           [alice_account] Session.empty "/").
  reflexivity.
Defined.

(** ** Answers and failures of a request *)

Section Unanswered.
Context (w : World).

Lemma generate_loop_unanswered prompt cc img cands :
  forall lastError st e,
    fst (generate_loop w prompt cc img cands lastError st) = Throw e ->
    exists asked,
      calls (snd (generate_loop w prompt cc img cands lastError st))
      = (calls st ++ asked)%list
      /\ Forall (fun c => rejected w c = true) asked.
Proof.
  induction cands as [|m rest IH]; intros lastError st e0; simpl.
  { intros _. exists []. rewrite app_nil_r. split; [reflexivity|constructor]. }
  destruct (modelStats st !! name m) as [stats|]; simpl.
  2:{ intros _. exists []. rewrite app_nil_r. split; [reflexivity|constructor]. }
  assert (Hfail : forall e c,
    rejection w c = Some e ->
    fst (generate_loop w prompt cc img rest (Some e)
           (record_failure w m e
              (log_call c (with_stats (alter incr_attempts (name m)) st))))
    = Throw e0 ->
    exists asked,
      calls (snd (generate_loop w prompt cc img rest (Some e)
                    (record_failure w m e
                       (log_call c
                          (with_stats (alter incr_attempts (name m)) st)))))
      = (calls st ++ asked)%list
      /\ Forall (fun c => rejected w c = true) asked).
  { intros e c Hrej Hthrow.
    destruct (IH (Some e) _ e0 Hthrow) as (asked & Hasked & Hall).
    exists (c :: asked). split.
    - rewrite Hasked, calls_record_failure. simpl. now rewrite <- app_assoc.
    - constructor; [now apply (rejected_of_rejection w c e) | exact Hall]. }
  destruct (recently_rate_limited stats _);
    [exact (IH lastError (with_stats (alter incr_attempts (name m)) st) e0)|].
  destruct (provider m).
  - destruct (gemini_generateContent w _ _ _) as [t|e] eqn:E; simpl;
      [discriminate|].
    apply (Hfail e (GeminiGenerate (name m) (spread (config m) cc)
                      (generate_content prompt img))).
    simpl. now rewrite E.
  - destruct img;
      [exact (IH lastError (with_stats (alter incr_attempts (name m)) st) e0)|].
    destruct (groq_create w _) as [t|e] eqn:E; simpl; [discriminate|].
    apply (Hfail e (GroqCreate (generate_request m prompt cc))).
    simpl. now rewrite E.
Qed.

Lemma chat_loop_unanswered message cands :
  forall chat lastError st e,
    fst (chat_loop w message cands chat lastError st) = Throw e ->
    exists asked,
      calls (snd (chat_loop w message cands chat lastError st))
      = (calls st ++ asked)%list
      /\ Forall (fun c => rejected w c = true) asked.
Proof.
  induction cands as [|m rest IH]; intros chat lastError st e0; simpl.
  { intros _. exists []. rewrite app_nil_r. split; [reflexivity|constructor]. }
  destruct (modelStats st !! name m) as [stats|]; simpl.
  2:{ intros _. exists []. rewrite app_nil_r. split; [reflexivity|constructor]. }
  destruct (recently_rate_limited stats _); [apply IH|].
  assert (Hfail : forall e c ch st1,
    rejection w c = Some e ->
    calls st1 = (calls st ++ [c])%list ->
    fst (chat_loop w message rest ch (Some e) (record_failure w m e st1))
    = Throw e0 ->
    exists asked,
      calls (snd (chat_loop w message rest ch (Some e)
                    (record_failure w m e st1)))
      = (calls st ++ asked)%list
      /\ Forall (fun c => rejected w c = true) asked).
  { intros e c ch st1 Hrej Hcalls Hthrow.
    destruct (IH ch (Some e) _ e0 Hthrow) as (asked & Hasked & Hall).
    exists (c :: asked). split.
    - rewrite Hasked, calls_record_failure, Hcalls. now rewrite <- app_assoc.
    - constructor; [now apply (rejected_of_rejection w c e) | exact Hall]. }
  destruct (provider m).
  - destruct (resolve_chat _ chat m) as [[r o] st1] eqn:Eres.
    apply resolve_chat_spec in Eres as (_ & _ & Hcalls & _).
    simpl in Hcalls.
    destruct (gemini_sendMessage w _ _ _ _) as [sent|e] eqn:E; simpl;
      [destruct (response_text sent) as [t|e] eqn:E'; simpl; [discriminate|]|].
    + apply (Hfail e (GeminiSend r (modelName o) (chat_generationConfig o)
                        (history o) message) (Some r));
        [exact (rejection_send_unreadable _ _ _ _ _ _ _ _ E E')
        | simpl; now rewrite Hcalls].
    + apply (Hfail e (GeminiSend r (modelName o) (chat_generationConfig o)
                        (history o) message) (Some r));
        [exact (rejection_send_rejected _ _ _ _ _ _ _ E)
        | simpl; now rewrite Hcalls].
  - destruct (groq_create w _) as [t|e] eqn:E; simpl; [discriminate|].
    apply (Hfail e (GroqCreate (chat_request m message)) chat);
      [simpl; now rewrite E | reflexivity].
Qed.

End Unanswered.

Lemma status_of_thrown (r : Completion Json * State) :
  status (fst (wrapAsync r)) = 503%Z ->
  exists e, fst r = Throw e.
Proof. destruct r as [[json|e] st]; simpl; [discriminate | eauto]. Qed.

Lemma generation_unanswered w key prompt cc img st :
  let r := wrapAsync (respond_generation key
                        (generateWithFallback w prompt cc img st)) in
  status (fst r) = 503%Z ->
  Forall (fun c => rejected w c = true) (new_calls st (snd r)).
Proof.
  intros r Hstatus. subst r. apply status_of_thrown in Hstatus as [e He].
  rewrite wrapAsync_state, respond_generation_state.
  rewrite generateWithFallback_eq in *.
  assert (Hthrow : exists e',
    fst (generate_loop w prompt cc img MODEL_PRIORITY None st) = Throw e').
  { destruct (generate_loop w prompt cc img MODEL_PRIORITY None st)
      as [[res|e'] st']; [discriminate | eauto]. }
  destruct Hthrow as [e' Hthrow].
  destruct (generate_loop_unanswered w prompt cc img MODEL_PRIORITY None st e'
              Hthrow) as (asked & Hasked & Hall).
  now rewrite (new_calls_app _ _ asked Hasked).
Qed.

Lemma new_calls_same st : new_calls st st = [].
Proof. unfold new_calls. apply drop_all. Qed.

(** X17. A 503 answer means that no provider answered: when an API route
    answers with status 503, every provider call made for that request
    was rejected. *)
Theorem unavailable_means_all_rejected w req st :
  status (fst (api w req st)) = 503%Z ->
  Forall (fun c => rejected w c = true) (new_calls st (snd (api w req st))).
Proof.
  destruct req as [[body|body|body|med|image]|body|sid|]; simpl.
  - unfold handle. intros Hstatus. rewrite wrapAsync_state.
    apply status_of_thrown in Hstatus as [e He].
    destruct (api_chat_calls w body st) as [Hc|Hc].
    2:{ unfold new_calls. rewrite Hc, drop_all. constructor. }
    unfold new_calls. rewrite Hc. unfold api_chat in He.
    destruct (missing (body_message body)) eqn:Hm.
    { unfold api_chat in Hc. rewrite Hm in Hc. simpl in Hc.
      rewrite <- Hc, drop_all. constructor. }
    fold (session_key body) in He.
    rewrite chatWithFallback_eq in *.
    assert (Hthrow : exists e',
      fst (chat_loop w (default "" (body_message body)) MODEL_PRIORITY
             (chatSessions st !! session_key body) None st) = Throw e').
    { destruct (chat_loop w _ MODEL_PRIORITY _ None st) as [[res|e'] st'];
        [discriminate | eauto]. }
    destruct Hthrow as [e' Hthrow].
    destruct (chat_loop_unanswered w _ MODEL_PRIORITY _ None st e' Hthrow)
      as (asked & -> & Hall).
    now rewrite drop_app_length.
  - unfold handle, api_analyze_symptoms. destruct (missing _).
    + intros _. simpl. rewrite new_calls_same. constructor.
    + apply generation_unanswered.
  - unfold handle, api_summarize_report. destruct (missing _).
    + intros _. simpl. rewrite new_calls_same. constructor.
    + apply generation_unanswered.
  - unfold handle, api_medicine_info. destruct (missing _).
    + intros _. simpl. rewrite new_calls_same. constructor.
    + apply generation_unanswered.
  - unfold handle, api_read_prescription. destruct (missing _).
    + intros _. simpl. rewrite new_calls_same. constructor.
    + apply generation_unanswered.
  - apply generation_unanswered.
  - discriminate.
  - discriminate.
Qed.

Lemma unavailable_means_all_rejected_witness :
  Forall (fun c => rejected (world_down "fetch failed" 1000) c = true)
    (new_calls init_state
       (snd (api (world_down "fetch failed" 1000)
               (PostDietPlan (mkDietBody (Some "fitness") None None))
               init_state))).
Proof.
  apply (unavailable_means_all_rejected (world_down "fetch failed" 1000)
           (PostDietPlan (mkDietBody (Some "fitness") None None)) init_state).
  vm_compute. reflexivity.
Defined.

(** ** What a session remembers of a turn *)

Lemma chat_loop_provider w message cands :
  forall chat lastError st res,
    fst (chat_loop w message cands chat lastError st) = Return res ->
    chat_provider res = "gemini" -> is_Some (result_chat res).
Proof.
  induction cands as [|m rest IH]; intros chat lastError st res; simpl;
    [discriminate|].
  destruct (modelStats st !! name m) as [stats|]; simpl; [|discriminate].
  destruct (recently_rate_limited stats _); [apply IH|].
  destruct (provider m).
  - destruct (resolve_chat _ chat m) as [[r o] st1].
    destruct (gemini_sendMessage w _ _ _ _) as [sent|e]; simpl; [|apply IH].
    destruct (response_text sent) as [t|e]; simpl; [|apply IH].
    intros [= <-] _. simpl. eauto.
  - destruct (groq_create w _) as [t|e]; simpl; [|apply IH].
    intros [= <-]. discriminate.
Qed.

(** X18. What a session remembers of a turn: when [/api/chat] answers
    with a reply of a Gemini candidate, the session of the request refers
    to the chat object the message was sent on, that send is the last
    provider call and the reply is the text of its response, and the
    history of the chat object is the history that was sent followed by
    what the SDK recorded of the exchange: the user turn with the message
    and the model turn of the response, or nothing at all. *)
Theorem session_holds_recorded_turn w body st answer model :
  fst (api_chat w body st)
  = Return [ ("reply", JStr answer); ("success", JBool true);
             ("sessionId", JStr (session_key body));
             ("modelUsed", JStr model); ("provider", JStr "gemini") ] ->
  let st' := snd (api_chat w body st) in
  let message := default "" (body_message body) in
  exists r cfg h sent,
    chatSessions st' !! session_key body = Some r
    /\ last (calls st') = Some (GeminiSend r model cfg h message)
    /\ gemini_sendMessage w model cfg h message = Resolved sent
    /\ response_text sent = Return answer
    /\ chatObjects st' !! r
       = Some {| modelName := model; chat_generationConfig := cfg;
                 history := (h ++ turns_of message (recorded sent))%list |}.
Proof.
  unfold api_chat. fold (session_key body).
  destruct (missing (body_message body)); [discriminate|].
  rewrite chatWithFallback_eq.
  pose proof (chat_loop_provider w (default "" (body_message body)) MODEL_PRIORITY
                (chatSessions st !! session_key body) None st) as Hprov.
  pose proof (chat_loop_gemini_served w (default "" (body_message body))
                MODEL_PRIORITY MODEL_PRIORITY_names_NoDup
                (chatSessions st !! session_key body) None st)
    as Hserved.
  destruct (chat_loop w _ MODEL_PRIORITY _ None st) as [[res|e] st1];
    [|discriminate].
  simpl fst in Hprov. simpl. intros [= Hreply Hmodel Hp].
  destruct (Hprov res eq_refl Hp) as [r Hr].
  destruct (Hserved res st1 r eq_refl Hr)
    as (_ & before & cfg & h & sent & Hcalls & Hsend & Htext & Hobj & _).
  rewrite Hr. simpl. exists r, cfg, h, sent.
  rewrite lookup_insert_eq, Hobj, Hcalls, <- Hreply, <- Hmodel.
  split; [reflexivity|]. split; [now rewrite !app_assoc, last_snoc|].
  split; [exact Hsend|]. split; [exact Htext | reflexivity].
Qed.

Lemma session_holds_recorded_turn_witness :
  exists r cfg h sent,
    chatSessions
      (snd (api_chat (world_up 1000) (mkChatBody (Some "hi") (Some "s1"))
              init_state))
    !! session_key (mkChatBody (Some "hi") (Some "s1")) = Some r
    /\ last (calls (snd (api_chat (world_up 1000)
                           (mkChatBody (Some "hi") (Some "s1")) init_state)))
       = Some (GeminiSend r flash cfg h
                 (default "" (body_message (mkChatBody (Some "hi") (Some "s1")))))
    /\ gemini_sendMessage (world_up 1000) flash cfg h
         (default "" (body_message (mkChatBody (Some "hi") (Some "s1"))))
       = Resolved sent
    /\ response_text sent = Return "re: hi"
    /\ chatObjects
         (snd (api_chat (world_up 1000) (mkChatBody (Some "hi") (Some "s1"))
                 init_state)) !! r
       = Some {| modelName := flash; chat_generationConfig := cfg;
                 history :=
                   (h ++ turns_of
                           (default "" (body_message
                                          (mkChatBody (Some "hi") (Some "s1"))))
                           (recorded sent))%list |}.
Proof.
  apply (session_holds_recorded_turn (world_up 1000)
           (mkChatBody (Some "hi") (Some "s1")) init_state "re: hi" flash).
  vm_compute. reflexivity.
Defined.

(** A plain answer is remembered as the exchange; an answer without parts
    is replied as the empty string and leaves the history of the session
    at the priming turns. *)
Lemma plain_and_empty_answers :
  let plain := snd (api_chat (world_up 1000)
                      (mkChatBody (Some "hi") (Some "s1")) init_state) in
  let empty := snd (api_chat empty_answers
                      (mkChatBody (Some "hi") (Some "s1")) init_state) in
  (history <$> chatObjects plain !! 0%nat)
  = Some (initial_history ++ exchange "hi" "re: hi")%list
  /\ fst (api_chat empty_answers (mkChatBody (Some "hi") (Some "s1")) init_state)
     = Return [ ("reply", JStr ""); ("success", JBool true);
                ("sessionId", JStr "s1"); ("modelUsed", JStr flash);
                ("provider", JStr "gemini") ]
  /\ chatSessions empty !! "s1" = Some 0%nat
  /\ (history <$> chatObjects empty !! 0%nat) = Some initial_history.
Proof. vm_compute. repeat split. Qed.

(** ** The order of the calls *)

Section Order.
Context (w : World).

Lemma generate_loop_in_order prompt cc img cands :
  forall lastError st,
    exists asked,
      calls (snd (generate_loop w prompt cc img cands lastError st))
      = (calls st ++ asked)%list
      /\ map call_model asked `sublist_of` map name cands.
Proof.
  induction cands as [|m rest IH]; intros lastError st; simpl.
  { exists []. rewrite app_nil_r. split; [reflexivity | constructor]. }
  destruct (modelStats st !! name m) as [stats|]; simpl.
  2:{ exists []. rewrite app_nil_r. split; [reflexivity | apply sublist_nil_l]. }
  assert (Hskip : forall le,
    exists asked,
      calls (snd (generate_loop w prompt cc img rest le
                    (with_stats (alter incr_attempts (name m)) st)))
      = (calls st ++ asked)%list
      /\ map call_model asked `sublist_of` name m :: map name rest).
  { intros le.
    destruct (IH le (with_stats (alter incr_attempts (name m)) st))
      as (asked & Hasked & Hsub).
    exists asked. split; [exact Hasked | now apply sublist_cons]. }
  assert (Hfail : forall e c,
    call_model c = name m ->
    exists asked,
      calls (snd (generate_loop w prompt cc img rest (Some e)
                    (record_failure w m e
                       (log_call c
                          (with_stats (alter incr_attempts (name m)) st)))))
      = (calls st ++ asked)%list
      /\ map call_model asked `sublist_of` name m :: map name rest).
  { intros e c Hc.
    destruct (IH (Some e)
                (record_failure w m e
                   (log_call c (with_stats (alter incr_attempts (name m)) st))))
      as (asked & Hasked & Hsub).
    exists (c :: asked). split.
    - rewrite Hasked, calls_record_failure. simpl. now rewrite <- app_assoc.
    - simpl. rewrite Hc. now apply sublist_skip. }
  assert (Hone : forall c : ProviderCall,
    call_model c = name m ->
    exists asked,
      (calls st ++ [c])%list = (calls st ++ asked)%list
      /\ map call_model asked `sublist_of` name m :: map name rest).
  { intros c Hc. exists [c]. split; [reflexivity|]. simpl. rewrite Hc.
    apply sublist_skip, sublist_nil_l. }
  destruct (recently_rate_limited stats _); [apply Hskip|].
  destruct (provider m).
  - destruct (gemini_generateContent w _ _ _) as [t|e]; simpl.
    + now apply Hone.
    + now apply Hfail.
  - destruct img; [apply Hskip|].
    destruct (groq_create w _) as [t|e]; simpl.
    + now apply Hone.
    + now apply Hfail.
Qed.

Lemma chat_loop_in_order message cands :
  forall chat lastError st,
    exists asked,
      calls (snd (chat_loop w message cands chat lastError st))
      = (calls st ++ asked)%list
      /\ map call_model asked `sublist_of` map name cands.
Proof.
  induction cands as [|m rest IH]; intros chat lastError st; simpl.
  { exists []. rewrite app_nil_r. split; [reflexivity | constructor]. }
  destruct (modelStats st !! name m) as [stats|]; simpl.
  2:{ exists []. rewrite app_nil_r. split; [reflexivity | apply sublist_nil_l]. }
  destruct (recently_rate_limited stats _).
  { destruct (IH chat lastError st) as (asked & Hasked & Hsub).
    exists asked. split; [exact Hasked | now apply sublist_cons]. }
  assert (Hfail : forall e c ch st1,
    call_model c = name m ->
    calls st1 = (calls st ++ [c])%list ->
    exists asked,
      calls (snd (chat_loop w message rest ch (Some e) (record_failure w m e st1)))
      = (calls st ++ asked)%list
      /\ map call_model asked `sublist_of` name m :: map name rest).
  { intros e c ch st1 Hc Hcalls.
    destruct (IH ch (Some e) (record_failure w m e st1))
      as (asked & Hasked & Hsub).
    exists (c :: asked). split.
    - rewrite Hasked, calls_record_failure, Hcalls. now rewrite <- app_assoc.
    - simpl. rewrite Hc. now apply sublist_skip. }
  assert (Hone : forall (c : ProviderCall) l,
    call_model c = name m -> l = (calls st ++ [c])%list ->
    exists asked,
      l = (calls st ++ asked)%list
      /\ map call_model asked `sublist_of` name m :: map name rest).
  { intros c l Hc ->. exists [c]. split; [reflexivity|]. simpl. rewrite Hc.
    apply sublist_skip, sublist_nil_l. }
  destruct (provider m).
  - destruct (resolve_chat _ chat m) as [[r o] st1] eqn:Eres.
    apply resolve_chat_spec in Eres as (Hname & _ & Hcalls & _).
    simpl in Hcalls.
    destruct (gemini_sendMessage w _ _ _ _) as [sent|e]; simpl;
      [destruct (response_text sent) as [t|e]; simpl|].
    + apply (Hone (GeminiSend r (modelName o) (chat_generationConfig o)
                     (history o) message)); [exact Hname | now rewrite Hcalls].
    + apply (Hfail e (GeminiSend r (modelName o) (chat_generationConfig o)
                        (history o) message) (Some r));
        [exact Hname | simpl; now rewrite Hcalls].
    + apply (Hfail e (GeminiSend r (modelName o) (chat_generationConfig o)
                        (history o) message) (Some r));
        [exact Hname | simpl; now rewrite Hcalls].
  - destruct (groq_create w _) as [t|e]; simpl.
    + now apply (Hone (GroqCreate (chat_request m message))).
    + now apply (Hfail e (GroqCreate (chat_request m message)) chat).
Qed.

End Order.

(** X19. The candidates are asked in the order of the registry, each at
    most once: in every step of the server, the models of the provider
    calls, in the order the calls were made, are a subsequence of the
    names of [MODEL_PRIORITY]. *)
Theorem candidates_asked_in_priority_order w step st :
  models_asked st (run_step (w, step) st) `sublist_of` map name MODEL_PRIORITY.
Proof.
  unfold models_asked.
  destruct (run_step_books w step st)
    as [[_ Hc]|[(p & cc & img & _ & Hc)|(ch & msg & sid & _ & Hc)]].
  - rewrite (new_calls_app st _ []) by (now rewrite Hc, app_nil_r).
    apply sublist_nil_l.
  - rewrite generateWithFallback_eq in Hc.
    destruct (generate_loop_in_order w p cc img MODEL_PRIORITY None st)
      as (asked & Hasked & Hsub).
    rewrite (new_calls_app st _ asked) by (now rewrite Hc). exact Hsub.
  - rewrite chatWithFallback_eq in Hc.
    destruct (chat_loop_in_order w msg MODEL_PRIORITY ch None st)
      as (asked & Hasked & Hsub).
    rewrite (new_calls_app st _ asked) by (now rewrite Hc). exact Hsub.
Qed.

(** ** Cooldown comes from rate limits only (C7) *)

Lemma registered_same_dom cands st st1 :
  dom (modelStats st1) = dom (modelStats st) ->
  registered cands st -> registered cands st1.
Proof.
  intros Hdom Hreg. unfold registered in *.
  eapply Forall_impl; [exact Hreg|]. intros m Hm. simpl in *.
  apply elem_of_dom. rewrite Hdom. now apply elem_of_dom.
Qed.

Lemma registered_after_failure w cands m e st st2 :
  modelStats st2 = alter incr_attempts (name m) (modelStats st) ->
  registered cands st -> registered cands (record_failure w m e st2).
Proof.
  intros Hms. apply registered_same_dom.
  now rewrite modelStats_record_failure, Hms, !dom_alter_L.
Qed.

Lemma lookup_after_failure w m e n st st2 s :
  name m <> n ->
  modelStats st2 = alter incr_attempts (name m) (modelStats st) ->
  modelStats st !! n = Some s ->
  modelStats (record_failure w m e st2) !! n = Some s.
Proof.
  intros Hne Hms Hs.
  rewrite (lookup_failed w m e n st2 (modelStats st) s Hms Hs).
  destruct (String.eqb_spec (name m) n); [contradiction | reflexivity].
Qed.

Section Reaches.
Context (w : World).

(** A candidate that is not cooling down when the chat starts is asked,
    unless a candidate placed before it serves the turn. *)
Lemma chat_loop_reaches message c post pre :
  forall chat lastError st s,
    NoDup (map name (pre ++ c :: post)) ->
    registered pre st ->
    modelStats st !! name c = Some s ->
    recently_rate_limited s (now_at_check w (name c)) = false ->
    let r := chat_loop w message (pre ++ c :: post) chat lastError st in
    (exists before call after,
       calls (snd r) = (calls st ++ before ++ call :: after)%list
       /\ call_model call = name c)
    \/ (exists res m, fst r = Return res /\ m ∈ pre /\ chat_modelUsed res = name m).
Proof.
  induction pre as [|m pre IH]; intros chat lastError st s Hnd Hreg Hs Hwarm.
  - (* the candidate itself *)
    left. simpl. rewrite Hs, Hwarm.
    assert (Hasked : forall call (l l2 : list ProviderCall),
      call_model call = name c ->
      l2 = (calls st ++ [call])%list ->
      (exists asked, l = (l2 ++ asked)%list) ->
      exists before call0 after,
        l = (calls st ++ before ++ call0 :: after)%list
        /\ call_model call0 = name c).
    { intros call l l2 Hmodel Hcalls (asked & Hr).
      exists [], call, asked. split; [|exact Hmodel].
      rewrite Hr, Hcalls. now rewrite <- app_assoc. }
    destruct (provider c).
    + destruct (resolve_chat _ chat c) as [[r o] st1] eqn:Eres.
      apply resolve_chat_spec in Eres as (Hname & _ & Hcalls & _).
      simpl in Hcalls.
      set (call := GeminiSend r (modelName o) (chat_generationConfig o)
                     (history o) message).
      destruct (gemini_sendMessage w _ _ _ _) as [sent|e]; simpl;
        [destruct (response_text sent) as [t|e]; simpl|].
      * apply (Hasked call _ (calls (log_call call st1)) Hname);
          [simpl; now rewrite Hcalls|].
        exists []. simpl. now rewrite app_nil_r.
      * apply (Hasked call _ (calls (log_call call st1)) Hname);
          [simpl; now rewrite Hcalls|].
        destruct (chat_loop_calls_app w message post (Some r) (Some e)
                    (record_failure w c e
                       (with_objects
                          (insert r (record_turns message (recorded sent) o))
                          (log_call call st1)))) as (asked & ->).
        rewrite calls_record_failure. simpl. eauto.
      * apply (Hasked call _ (calls (log_call call st1)) Hname);
          [simpl; now rewrite Hcalls|].
        destruct (chat_loop_calls_app w message post (Some r) (Some e)
                    (record_failure w c e (log_call call st1))) as (asked & ->).
        rewrite calls_record_failure. simpl. eauto.
    + set (call := GroqCreate (chat_request c message)).
      destruct (groq_create w _) as [t|e]; simpl.
      * apply (Hasked call _
                 (calls (log_call call
                           (with_stats (alter incr_attempts (name c)) st))));
          [reflexivity | reflexivity|].
        exists []. simpl. now rewrite app_nil_r.
      * apply (Hasked call _
                 (calls (log_call call
                           (with_stats (alter incr_attempts (name c)) st))));
          [reflexivity | reflexivity|].
        destruct (chat_loop_calls_app w message post chat (Some e)
                    (record_failure w c e
                       (log_call call
                          (with_stats (alter incr_attempts (name c)) st))))
          as (asked & ->).
        rewrite calls_record_failure. simpl. eauto.
  - (* a candidate placed before it *)
    simpl in Hnd. apply NoDup_cons in Hnd as [Hm Hnd].
    assert (Hne : name m <> name c).
    { intros Heq. apply Hm. rewrite Heq, map_app. apply elem_of_app. right.
      apply list_elem_of_here. }
    apply Forall_cons in Hreg as [[stats Hstats] Hreg]. simpl in Hstats.
    simpl. rewrite Hstats.
    assert (Hlater : forall (r : Completion ChatResult * State),
      (exists before call after,
         calls (snd r) = (calls st ++ before ++ call :: after)%list
         /\ call_model call = name c)
      \/ (exists res m0, fst r = Return res /\ m0 ∈ pre
                         /\ chat_modelUsed res = name m0) ->
      (exists before call after,
         calls (snd r) = (calls st ++ before ++ call :: after)%list
         /\ call_model call = name c)
      \/ (exists res m0, fst r = Return res /\ m0 ∈ m :: pre
                         /\ chat_modelUsed res = name m0)).
    { intros r [H|(res & m0 & Hret & Hin & Hn)]; [now left|right].
      exists res, m0. split; [exact Hret|].
      split; [now apply list_elem_of_further | exact Hn]. }
    destruct (recently_rate_limited stats _).
    { apply Hlater. now apply (IH chat lastError st s). }
    assert (Hfail : forall e call ch st2,
      modelStats st2 = alter incr_attempts (name m) (modelStats st) ->
      calls st2 = (calls st ++ [call])%list ->
      let r := chat_loop w message (pre ++ c :: post) ch (Some e)
                 (record_failure w m e st2) in
      (exists before call0 after,
         calls (snd r) = (calls st ++ before ++ call0 :: after)%list
         /\ call_model call0 = name c)
      \/ (exists res m0, fst r = Return res /\ m0 ∈ m :: pre
                         /\ chat_modelUsed res = name m0)).
    { intros e call ch st2 Hms Hcalls r. apply Hlater.
      destruct (IH ch (Some e) (record_failure w m e st2) s Hnd
                  (registered_after_failure w pre m e st st2 Hms Hreg)
                  (lookup_after_failure w m e (name c) st st2 s Hne Hms Hs)
                  Hwarm)
        as [(before & call0 & after & Hc & Hmodel)|H]; [left|now right].
      exists (call :: before), call0, after. split; [|exact Hmodel].
      fold r in Hc. rewrite Hc, calls_record_failure, Hcalls.
      now rewrite <- app_assoc. }
    destruct (provider m).
    + destruct (resolve_chat _ chat m) as [[r o] st1] eqn:Eres.
      apply resolve_chat_spec in Eres as (_ & Hms & Hcalls & _).
      simpl in Hms, Hcalls.
      destruct (gemini_sendMessage w _ _ _ _) as [sent|e]; simpl;
        [destruct (response_text sent) as [t|e]; simpl|].
      * right. eexists _, m. split; [reflexivity|].
        split; [apply list_elem_of_here | reflexivity].
      * apply (Hfail e (GeminiSend r (modelName o) (chat_generationConfig o)
                          (history o) message) (Some r));
          simpl; [exact Hms | now rewrite Hcalls].
      * apply (Hfail e (GeminiSend r (modelName o) (chat_generationConfig o)
                          (history o) message) (Some r));
          simpl; [exact Hms | now rewrite Hcalls].
    + destruct (groq_create w _) as [t|e]; simpl.
      * right. eexists _, m. split; [reflexivity|].
        split; [apply list_elem_of_here | reflexivity].
      * apply (Hfail e (GroqCreate (chat_request m message)) chat);
          reflexivity.
Qed.

(** A candidate that is not cooling down when the generation starts is
    asked, unless a candidate placed before it answers, or it is a groq
    candidate and the request carries an image. *)
Lemma generate_loop_reaches prompt cc img c post pre :
  forall lastError st s,
    NoDup (map name (pre ++ c :: post)) ->
    registered pre st ->
    modelStats st !! name c = Some s ->
    recently_rate_limited s (now_at_check w (name c)) = false ->
    let r := generate_loop w prompt cc img (pre ++ c :: post) lastError st in
    (exists before call after,
       calls (snd r) = (calls st ++ before ++ call :: after)%list
       /\ call_model call = name c)
    \/ (exists res m, fst r = Return res /\ m ∈ pre /\ modelUsed res = name m)
    \/ (provider c = groq /\ img <> None).
Proof.
  induction pre as [|m pre IH]; intros lastError st s Hnd Hreg Hs Hwarm.
  - (* the candidate itself *)
    simpl. rewrite Hs. simpl. rewrite Hwarm.
    assert (Hasked : forall call (l : list ProviderCall),
      call_model call = name c ->
      (exists asked,
         l = (calls (log_call call
                       (with_stats (alter incr_attempts (name c)) st))
                ++ asked)%list) ->
      exists before call0 after,
        l = (calls st ++ before ++ call0 :: after)%list
        /\ call_model call0 = name c).
    { intros call l Hmodel (asked & Hr).
      exists [], call, asked. split; [|exact Hmodel].
      rewrite Hr. simpl. now rewrite <- app_assoc. }
    destruct (provider c) eqn:Ep.
    + set (call := GeminiGenerate (name c) (spread (config c) cc)
                     (generate_content prompt img)).
      destruct (gemini_generateContent w _ _ _) as [t|e]; simpl; left.
      * apply (Hasked call); [reflexivity|].
        exists []. simpl. now rewrite app_nil_r.
      * apply (Hasked call); [reflexivity|].
        destruct (generate_loop_in_order w prompt cc img post (Some e)
                    (record_failure w c e
                       (log_call call
                          (with_stats (alter incr_attempts (name c)) st))))
          as (asked & -> & _).
        rewrite calls_record_failure. eauto.
    + destruct img as [parts|].
      { right. right. split; [reflexivity | discriminate]. }
      set (call := GroqCreate (generate_request c prompt cc)).
      destruct (groq_create w _) as [t|e]; simpl; left.
      * apply (Hasked call); [reflexivity|].
        exists []. simpl. now rewrite app_nil_r.
      * apply (Hasked call); [reflexivity|].
        destruct (generate_loop_in_order w prompt cc None post (Some e)
                    (record_failure w c e
                       (log_call call
                          (with_stats (alter incr_attempts (name c)) st))))
          as (asked & -> & _).
        rewrite calls_record_failure. eauto.
  - (* a candidate placed before it *)
    simpl in Hnd. apply NoDup_cons in Hnd as [Hm Hnd].
    assert (Hne : name m <> name c).
    { intros Heq. apply Hm. rewrite Heq, map_app. apply elem_of_app. right.
      apply list_elem_of_here. }
    apply Forall_cons in Hreg as [[stats Hstats] Hreg]. simpl in Hstats.
    simpl. rewrite Hstats. simpl.
    assert (Hlater : forall (r : Completion GenerateResult * State),
      (exists before call after,
         calls (snd r) = (calls st ++ before ++ call :: after)%list
         /\ call_model call = name c)
      \/ (exists res m0, fst r = Return res /\ m0 ∈ pre
                         /\ modelUsed res = name m0)
      \/ (provider c = groq /\ img <> None) ->
      (exists before call after,
         calls (snd r) = (calls st ++ before ++ call :: after)%list
         /\ call_model call = name c)
      \/ (exists res m0, fst r = Return res /\ m0 ∈ m :: pre
                         /\ modelUsed res = name m0)
      \/ (provider c = groq /\ img <> None)).
    { intros r [H|[(res & m0 & Hret & Hin & Hn)|H]];
        [now left | right; left | now right; right].
      exists res, m0. split; [exact Hret|].
      split; [now apply list_elem_of_further | exact Hn]. }
    assert (Hskip : forall le,
      let r := generate_loop w prompt cc img (pre ++ c :: post) le
                 (with_stats (alter incr_attempts (name m)) st) in
      (exists before call after,
         calls (snd r) = (calls st ++ before ++ call :: after)%list
         /\ call_model call = name c)
      \/ (exists res m0, fst r = Return res /\ m0 ∈ m :: pre
                         /\ modelUsed res = name m0)
      \/ (provider c = groq /\ img <> None)).
    { intros le r. apply Hlater.
      apply (IH le (with_stats (alter incr_attempts (name m)) st) s Hnd).
      - apply (registered_after_alter incr_attempts m pre st); [exact Hreg|].
        reflexivity.
      - simpl. now rewrite lookup_alter_ne.
      - exact Hwarm. }
    assert (Hfail : forall e call,
      let r := generate_loop w prompt cc img (pre ++ c :: post) (Some e)
                 (record_failure w m e
                    (log_call call
                       (with_stats (alter incr_attempts (name m)) st))) in
      (exists before call0 after,
         calls (snd r) = (calls st ++ before ++ call0 :: after)%list
         /\ call_model call0 = name c)
      \/ (exists res m0, fst r = Return res /\ m0 ∈ m :: pre
                         /\ modelUsed res = name m0)
      \/ (provider c = groq /\ img <> None)).
    { intros e call r. apply Hlater.
      destruct (IH (Some e)
                  (record_failure w m e
                     (log_call call
                        (with_stats (alter incr_attempts (name m)) st)))
                  s Hnd
                  (registered_after_failure w pre m e st
                     (log_call call
                        (with_stats (alter incr_attempts (name m)) st))
                     eq_refl Hreg)
                  (lookup_after_failure w m e (name c) st
                     (log_call call
                        (with_stats (alter incr_attempts (name m)) st))
                     s Hne eq_refl Hs)
                  Hwarm)
        as [(before & call0 & after & Hc & Hmodel)|H]; [left|now right].
      exists (call :: before), call0, after. split; [|exact Hmodel].
      fold r in Hc. rewrite Hc, calls_record_failure. simpl.
      now rewrite <- app_assoc. }
    destruct (recently_rate_limited stats _); [apply Hskip|].
    destruct (provider m).
    + destruct (gemini_generateContent w _ _ _) as [t|e]; simpl.
      * right. left. eexists _, m. split; [reflexivity|].
        split; [apply list_elem_of_here | reflexivity].
      * apply Hfail.
    + destruct img as [parts|]; [apply Hskip|].
      destruct (groq_create w _) as [t|e]; simpl.
      * right. left. eexists _, m. split; [reflexivity|].
        split; [apply list_elem_of_here | reflexivity].
      * apply Hfail.
Qed.

End Reaches.

(** Steps without a rate-limit hit leave the stats object without a
    timestamp. *)
Lemma run_server_keeps_no_timestamp n trace :
  forall st s,
    modelStats st !! n = Some s -> lastFailure s = None ->
    no_rate_limit_hit n trace st ->
    exists s', modelStats (run_server trace st) !! n = Some s'
               /\ lastFailure s' = None.
Proof.
  induction trace as [|[w step] trace IH]; intros st s Hs Hnone Hhit.
  { exists s. now split. }
  destruct Hhit as [Hzero Hhit].
  change (rate_limits_of w n (new_calls st (run_step (w, step) st)) = 0%N)
    in Hzero.
  destruct (run_step_booked w step st n s Hs) as (s1 & Hs1 & _ & _ & Hlast & _).
  rewrite Hzero in Hlast. simpl in Hlast.
  rewrite run_server_cons.
  apply (IH _ s1 Hs1); [congruence | exact Hhit].
Qed.

(** C7. Cooldown comes from a rate-limit classification only, and a
    candidate without one is retried on every request.  Take any sequence
    of steps since the server started in which no call made for the
    candidate [c] was rejected with an error that matches the rate-limit
    indicators, whatever its other failures.  Then the stats object of [c]
    has no [lastFailure] timestamp, and every later request reaches [c]:
    a chat asks [c] unless a candidate placed before it serves the turn,
    and a generation asks [c] unless a candidate placed before it answers
    or [c] is a groq candidate and the request carries an image.  The
    cooldown test never passes [c] over. *)
Theorem cooldown_only_after_rate_limit (trace : list (World * Step))
    (pre : list ModelConfig) (c : ModelConfig) (post : list ModelConfig)
    (w : World) :
  MODEL_PRIORITY = (pre ++ c :: post)%list ->
  no_rate_limit_hit (name c) trace init_state ->
  (exists s, modelStats (run_server trace init_state) !! name c = Some s
             /\ lastFailure s = None)
  /\ (forall chat message sessionId,
        name c ∈ models_asked (run_server trace init_state)
                   (snd (chatWithFallback w chat message sessionId
                           (run_server trace init_state)))
        \/ exists res m,
             fst (chatWithFallback w chat message sessionId
                    (run_server trace init_state)) = Return res
             /\ m ∈ pre /\ chat_modelUsed res = name m)
  /\ (forall prompt customConfig imageParts,
        name c ∈ models_asked (run_server trace init_state)
                   (snd (generateWithFallback w prompt customConfig imageParts
                           (run_server trace init_state)))
        \/ (exists res m,
              fst (generateWithFallback w prompt customConfig imageParts
                     (run_server trace init_state)) = Return res
              /\ m ∈ pre /\ modelUsed res = name m)
        \/ (provider c = groq /\ imageParts <> None)).
Proof.
  intros Hsplit Hhit.
  pose proof MODEL_PRIORITY_names_NoDup as Hnd.
  pose proof (run_server_registered trace) as Hreg.
  pose proof init_state_registered as Hinit.
  unfold registered in Hreg, Hinit. rewrite Hsplit in Hnd, Hreg, Hinit.
  apply Forall_app in Hreg as [Hpre _].
  apply Forall_app in Hinit as [_ Hinit].
  apply Forall_cons in Hinit as [[s0 Hs0] _]. simpl in Hs0.
  destruct (run_server_keeps_no_timestamp (name c) trace init_state s0 Hs0
              (init_state_no_timestamp (name c) s0 Hs0) Hhit)
    as (s & Hs & Hnone).
  assert (Hwarm : recently_rate_limited s (now_at_check w (name c)) = false).
  { unfold recently_rate_limited. now rewrite Hnone. }
  split; [exists s; now split|]. split.
  - intros chat message sessionId. rewrite chatWithFallback_eq, Hsplit.
    destruct (chat_loop_reaches w message c post pre chat None
                (run_server trace init_state) s Hnd Hpre Hs Hwarm)
      as [(before & call & after & Hcalls & Hmodel)|H]; [left|now right].
    unfold models_asked. rewrite (new_calls_app _ _ _ Hcalls), <- Hmodel.
    apply list_elem_of_fmap. exists call. split; [reflexivity|].
    apply elem_of_app. right. apply list_elem_of_here.
  - intros prompt customConfig imageParts.
    rewrite generateWithFallback_eq, Hsplit.
    destruct (generate_loop_reaches w prompt customConfig imageParts c post pre
                None (run_server trace init_state) s Hnd Hpre Hs Hwarm)
      as [(before & call & after & Hcalls & Hmodel)|H]; [left|now right].
    unfold models_asked. rewrite (new_calls_app _ _ _ Hcalls), <- Hmodel.
    apply list_elem_of_fmap. exists call. split; [reflexivity|].
    apply elem_of_app. right. apply list_elem_of_here.
Qed.

Lemma cooldown_only_after_rate_limit_witness :
  (exists s,
     modelStats
       (run_server
          [ (world_down "fetch failed" 1000,
             Direct (Generate "hello" ∅ None));
            (world_down "500 Internal Server Error" 2000,
             Route (AiRoute (PostChat (mkChatBody (Some "hello") None)))) ]
          init_state)
     !! name (mkModel flash_lite gemini (gemini_config (8000 # 1))) = Some s
     /\ lastFailure s = None)
  /\ (forall chat message sessionId,
        name (mkModel flash_lite gemini (gemini_config (8000 # 1)))
        ∈ models_asked
            (run_server
               [ (world_down "fetch failed" 1000,
                  Direct (Generate "hello" ∅ None));
                 (world_down "500 Internal Server Error" 2000,
                  Route (AiRoute (PostChat (mkChatBody (Some "hello") None)))) ]
               init_state)
            (snd (chatWithFallback
                    (world_partial [flash] "fetch failed" 3000)
                    chat message sessionId
                    (run_server
                       [ (world_down "fetch failed" 1000,
                          Direct (Generate "hello" ∅ None));
                         (world_down "500 Internal Server Error" 2000,
                          Route (AiRoute
                                   (PostChat (mkChatBody (Some "hello") None)))) ]
                       init_state)))
        \/ exists res m,
             fst (chatWithFallback
                    (world_partial [flash] "fetch failed" 3000)
                    chat message sessionId
                    (run_server
                       [ (world_down "fetch failed" 1000,
                          Direct (Generate "hello" ∅ None));
                         (world_down "500 Internal Server Error" 2000,
                          Route (AiRoute
                                   (PostChat (mkChatBody (Some "hello") None)))) ]
                       init_state)) = Return res
             /\ m ∈ take 1 MODEL_PRIORITY /\ chat_modelUsed res = name m)
  /\ (forall prompt customConfig imageParts,
        name (mkModel flash_lite gemini (gemini_config (8000 # 1)))
        ∈ models_asked
            (run_server
               [ (world_down "fetch failed" 1000,
                  Direct (Generate "hello" ∅ None));
                 (world_down "500 Internal Server Error" 2000,
                  Route (AiRoute (PostChat (mkChatBody (Some "hello") None)))) ]
               init_state)
            (snd (generateWithFallback
                    (world_partial [flash] "fetch failed" 3000)
                    prompt customConfig imageParts
                    (run_server
                       [ (world_down "fetch failed" 1000,
                          Direct (Generate "hello" ∅ None));
                         (world_down "500 Internal Server Error" 2000,
                          Route (AiRoute
                                   (PostChat (mkChatBody (Some "hello") None)))) ]
                       init_state)))
        \/ (exists res m,
              fst (generateWithFallback
                     (world_partial [flash] "fetch failed" 3000)
                     prompt customConfig imageParts
                     (run_server
                        [ (world_down "fetch failed" 1000,
                           Direct (Generate "hello" ∅ None));
                          (world_down "500 Internal Server Error" 2000,
                           Route (AiRoute
                                    (PostChat (mkChatBody (Some "hello") None)))) ]
                        init_state)) = Return res
              /\ m ∈ take 1 MODEL_PRIORITY /\ modelUsed res = name m)
        \/ (provider (mkModel flash_lite gemini (gemini_config (8000 # 1))) = groq
            /\ imageParts <> None)).
Proof.
  apply (cooldown_only_after_rate_limit
           [ (world_down "fetch failed" 1000,
              Direct (Generate "hello" ∅ None));
             (world_down "500 Internal Server Error" 2000,
              Route (AiRoute (PostChat (mkChatBody (Some "hello") None)))) ]
           (take 1 MODEL_PRIORITY)
           (mkModel flash_lite gemini (gemini_config (8000 # 1)))
           (drop 2 MODEL_PRIORITY)
           (world_partial [flash] "fetch failed" 3000)).
  - reflexivity.
  - vm_compute. repeat split.
Defined.

(** The hypothesis is about the failures that occurred: after two
    requests in which every call made for the second candidate was
    rejected, none with a rate-limit error, its stats object holds two
    failures and no timestamp; a rate-limit rejection of the first
    candidate in the same requests does not matter. *)
Lemma failures_without_rate_limit :
  let trace :=
    [ (world_partial [flash; flash_lite] "fetch failed" 1000,
       Direct (Generate "hello" ∅ None));
      (world_down "500 Internal Server Error" 2000,
       Route (AiRoute (PostChat (mkChatBody (Some "hello") None)))) ] in
  no_rate_limit_hit flash_lite trace init_state
  /\ modelStats (run_server trace init_state) !! flash_lite
     = Some {| attempts := 2; failures := 2; lastFailure := None;
               rateLimitHits := 0 |}.
Proof. vm_compute. repeat split. Qed.
